(** * ChunkViz: the deterministic chunking engine of [services/chunkers.ts]

    A shallow embedding of [estimateTokenCount], [generateFixedSizeChunks],
    [generateRecursiveChunks], [generateMarkdownChunks] and
    [generateJsonChunks], together with the properties of the specification
    that concern them.

    Conventions of the embedding.
    - A JavaScript string is the list of its UTF-16 code units ([jsstring]);
      [text.length] is the length of that list.
    - [chunkSize] and [chunkOverlap] are integers ([Z]); they may be zero or
      negative, as the code accepts them.
    - [while] and [for] loops are run with a bound on the number of times
      their body is entered; a loop that has not left by then yields [Spin].
      A loop whose exit test already fails needs no fuel at all. A call
      that yields [Spin] for every bound never returns to its caller (on
      the platform it pushes on an array until memory runs out).
    - [Date.now()] is an oracle [now : nat -> Z]: [now k] is the value
      returned by the k-th reading of the clock during an invocation; the
      number of readings made so far is threaded through the code.
    - [JSON.parse] and [JSON.stringify (_, null, 2)] are built-ins of the
      platform and are parameters of the development. *)

From Stdlib Require Import String Ascii.
From Stdlib Require Import ZArith NArith List Bool Lia QArith Qround.
From Stdlib Require Import DecimalZ.
Import ListNotations.

#[local] Open Scope Z_scope.

(** ** JavaScript strings *)

Module Js.

(** A UTF-16 code unit, [0 .. 0xFFFF]. *)
Definition unit16 := N.

Definition jsstring := list unit16.

(** [s.length] *)
Definition len (s : jsstring) : Z := Z.of_nat (List.length s).

(** An ASCII literal of the source as code units. *)
Definition lit (s : string) : jsstring :=
  List.map N_of_ascii (list_ascii_of_string s).

(** Relative index of [String.prototype.slice]: a negative index counts
    from the end, and the result is clamped to [0 .. len]. *)
Definition relIndex (l i : Z) : Z :=
  if i <? 0 then Z.max (l + i) 0 else Z.min i l.

(** [s.slice(from, to)] *)
Definition slice (s : jsstring) (from to : Z) : jsstring :=
  let f := relIndex (len s) from in
  let t := relIndex (len s) to in
  firstn (Z.to_nat (Z.max (t - f) 0)) (skipn (Z.to_nat f) s).

(** [s.slice(from)] *)
Definition sliceFrom (s : jsstring) (from : Z) : jsstring :=
  skipn (Z.to_nat (relIndex (len s) from)) s.

Definition unit_eqb (a b : unit16) : bool := N.eqb a b.

(** [s] begins with [p]. *)
Fixpoint isPrefix (p s : jsstring) : bool :=
  match p, s with
  | [], _ => true
  | _ :: _, [] => false
  | a :: p', b :: s' => unit_eqb a b && isPrefix p' s'
  end.

(** First occurrence of a separator: [Some (before, after)] when
    [s = before ++ sep ++ after] and [sep] does not occur earlier. *)
Fixpoint breakOn (sep s : jsstring) : option (jsstring * jsstring) :=
  if isPrefix sep s then Some ([], skipn (List.length sep) s)
  else match s with
       | [] => None
       | c :: s' =>
           match breakOn sep s' with
           | Some (b, a) => Some (c :: b, a)
           | None => None
           end
       end.

(** [s.includes(sep)] *)
Definition includes (s sep : jsstring) : bool :=
  match breakOn sep s with Some _ => true | None => false end.

(** Splitting on a non-empty separator, left to right, the search resuming
    after each match; [n] bounds the number of matches looked for. *)
Fixpoint splitOn (n : nat) (sep s : jsstring) : list jsstring :=
  match breakOn sep s with
  | None => [s]
  | Some (b, a) =>
      match n with
      | O => [b; a]
      | S n' => b :: splitOn n' sep a
      end
  end.

(** [s.split(sep)] for a string separator: the empty separator splits
    into single code units (and the empty string into no piece at all). *)
Definition split (s sep : jsstring) : list jsstring :=
  match sep with
  | [] => List.map (fun c => [c]) s
  | _ :: _ => splitOn (List.length s) sep s
  end.

(** WhiteSpace and LineTerminator code units, as [trim] strips them. *)
Definition isWhiteSpace (c : unit16) : bool :=
  ((9 <=? c) && (c <=? 13) || (c =? 32) || (c =? 160) || (c =? 5760)
   || (8192 <=? c) && (c <=? 8202) || (c =? 8232) || (c =? 8233)
   || (c =? 8239) || (c =? 8287) || (c =? 12288) || (c =? 65279))%N.

Fixpoint trimStart (s : jsstring) : jsstring :=
  match s with
  | [] => []
  | c :: s' => if isWhiteSpace c then trimStart s' else s
  end.

Definition trimEnd (s : jsstring) : jsstring :=
  rev (trimStart (rev s)).

(** [s.trim()] *)
Definition trim (s : jsstring) : jsstring := trimEnd (trimStart s).

(** Decimal digits of [Number.prototype.toString] on an integer. *)
Fixpoint digits (d : Decimal.uint) : jsstring :=
  match d with
  | Decimal.Nil => []
  | Decimal.D0 d' => 48%N :: digits d'
  | Decimal.D1 d' => 49%N :: digits d'
  | Decimal.D2 d' => 50%N :: digits d'
  | Decimal.D3 d' => 51%N :: digits d'
  | Decimal.D4 d' => 52%N :: digits d'
  | Decimal.D5 d' => 53%N :: digits d'
  | Decimal.D6 d' => 54%N :: digits d'
  | Decimal.D7 d' => 55%N :: digits d'
  | Decimal.D8 d' => 56%N :: digits d'
  | Decimal.D9 d' => 57%N :: digits d'
  end.

(** [`${z}`] for an integer [z]. *)
Definition numToString (z : Z) : jsstring :=
  match Z.to_int z with
  | Decimal.Pos d => digits d
  | Decimal.Neg d => 45%N :: digits d
  end.

(** [Math.ceil(n / d)] on integers, through the exact quotient. *)
Definition ceilDiv (n d : Z) : Z := Qceiling (inject_Z n / inject_Z d).

End Js.

Import Js.

(** ** Outcomes of a call *)

(** A call returns a value, throws, or is still inside a loop when the
    bound on loop iterations is reached. *)
Inductive JsError := SyntaxError.

Inductive Res (A : Type) : Type :=
| Ret (a : A)
| Throw (e : JsError)
| Spin.

Arguments Ret {A} a.
Arguments Throw {A} e.
Arguments Spin {A}.

Definition bind {A B} (m : Res A) (k : A -> Res B) : Res B :=
  match m with
  | Ret a => k a
  | Throw e => Throw e
  | Spin => Spin
  end.

Notation "x <- m ;; k" := (bind m (fun x => k))
  (at level 61, m at next level, right associativity).
Notation "' p <- m ;; k" := (bind m (fun p => k))
  (at level 61, p pattern, m at next level, right associativity).

(** ** types.ts *)

Module Chunk.
Record t := mk {
  id : jsstring;
  content : jsstring;
  index : Z;
  length : Z;
  tokenCount : Z
}.
End Chunk.

Record ChunkingConfig := {
  chunkSize : Z;
  chunkOverlap : Z;
  separators : list jsstring
}.

(** ** estimateTokenCount *)

(** The character class of [cjkRegex], which has no [u] flag and so tests
    single code units: 4e00-9fa5, 3040-30ff, 3400-4dbf, f900-faff and
    ff66-ff9f. *)
Definition cjkClass (c : unit16) : bool :=
  ((0x4e00 <=? c) && (c <=? 0x9fa5) || (0x3040 <=? c) && (c <=? 0x30ff)
   || (0x3400 <=? c) && (c <=? 0x4dbf) || (0xf900 <=? c) && (c <=? 0xfaff)
   || (0xff66 <=? c) && (c <=? 0xff9f))%N.

(** [text.match(cjkRegex)] with the [g] flag: every match, in order, or
    [null] when there is none. *)
Definition matchCjk (text : jsstring) : option (list jsstring) :=
  match List.filter cjkClass text with
  | [] => None
  | ms => Some (List.map (fun c => [c]) ms)
  end.

Definition estimateTokenCount (text : jsstring) : Z :=
  let matches := matchCjk text in
  let cjkCount :=
    match matches with
    | Some ms => Z.of_nat (List.length ms)
    | None => 0
    end in
  let otherCount := Z.max 0 (len text - cjkCount) in
  cjkCount + ceilDiv otherCount 4.

(** ** The chunkers *)

Section Chunkers.

(** [now k] is what the k-th call of [Date.now()] returns. *)
Variable now : nat -> Z.

(** *** generateFixedSizeChunks *)

(** The [while (start < text.length)] loop; [ticks] counts the readings
    of the clock made so far. *)
Fixpoint fixedLoop (fuel : nat) (text : jsstring) (chunkSize step : Z)
    (start index : Z) (ticks : nat) : Res (list Chunk.t * nat) :=
  if start <? len text then
    match fuel with
    | O => Spin
    | S fuel' =>
        let end_ := Z.min (start + chunkSize) (len text) in
        let content := slice text start end_ in
        let c :=
          Chunk.mk
            (lit "chunk-" ++ numToString index ++ lit "-"
               ++ numToString (now ticks))
            content index (len content) (estimateTokenCount content) in
        '(chunks, t) <- fixedLoop fuel' text chunkSize step
                          (start + step) (index + 1) (S ticks) ;;
        Ret (c :: chunks, t)
    end
  else Ret ([], ticks).

Definition generateFixedSizeChunks (fuel : nat) (text : jsstring)
    (config : ChunkingConfig) (ticks : nat) : Res (list Chunk.t * nat) :=
  if chunkSize config <=? 0 then Ret ([], ticks)
  else
    let effectiveOverlap :=
      Z.min (chunkOverlap config) (chunkSize config - 1) in
    let step := chunkSize config - effectiveOverlap in
    fixedLoop fuel text (chunkSize config) step 0 0 ticks.

(** *** generateRecursiveChunks

    The inner helper [splitText] of the source is never called and is not
    part of the embedding. *)

(** The hard split of [recurse]:
    [for (let i = 0; i < txt.length; i += (chunkSize - chunkOverlap))]. *)
Fixpoint hardSplit (fuel : nat) (txt : jsstring) (chunkSize chunkOverlap : Z)
    (i : Z) : Res (list jsstring) :=
  if i <? len txt then
    match fuel with
    | O => Spin
    | S fuel' =>
        rest <- hardSplit fuel' txt chunkSize chunkOverlap
                  (i + (chunkSize - chunkOverlap)) ;;
        Ret (slice txt i (i + chunkSize) :: rest)
    end
  else Ret [].

(** [parts.map((part, idx) => ...)], with the index. *)
Fixpoint mapi {A B} (f : nat -> A -> B) (idx : nat) (l : list A) : list B :=
  match l with
  | [] => []
  | a :: l' => f idx a :: mapi f (S idx) l'
  end.

(** The separator re-added to every part but the last. *)
Definition partsWithSep (parts : list jsstring) (sep : jsstring)
    : list jsstring :=
  mapi (fun idx part =>
          if Z.of_nat idx <? Z.of_nat (List.length parts) - 1
          then part ++ sep else part) 0%nat parts.

(** Running a segment producer over every piece, in order. *)
Definition forEach (f : jsstring -> Res (list jsstring))
    : list jsstring -> Res (list jsstring) :=
  fix go (l : list jsstring) : Res (list jsstring) :=
    match l with
    | [] => Ret []
    | p :: l' =>
        segs <- f p ;;
        rest <- go l' ;;
        Ret (segs ++ rest)
    end.

(** Phase A. The result is what the call pushes on [rawSegments]. *)
Fixpoint recurse (fuel : nat) (chunkSize chunkOverlap : Z)
    (seps : list jsstring) (txt : jsstring) : Res (list jsstring) :=
  if len txt <=? chunkSize then Ret [txt]
  else
    match seps with
    | [] => hardSplit fuel txt chunkSize chunkOverlap 0
    | sep :: nextSeps =>
        if includes txt sep then
          let parts := split txt sep in
          forEach (recurse fuel chunkSize chunkOverlap nextSeps)
                  (partsWithSep parts sep)
        else recurse fuel chunkSize chunkOverlap nextSeps txt
    end.

(** Phase B: the [for (const segment of rawSegments)] loop and the final
    push. The result is the array [chunks] before it is filtered. *)
Fixpoint pack (chunkSize chunkOverlap : Z) (segments : list jsstring)
    (currentUnit : jsstring) : list jsstring :=
  match segments with
  | [] => if len currentUnit >? 0 then [currentUnit] else []
  | segment :: rest =>
      if len currentUnit + len segment >? chunkSize then
        if len currentUnit >? 0 then
          let overlapStart := Z.max 0 (len currentUnit - chunkOverlap) in
          currentUnit
            :: pack chunkSize chunkOverlap rest
                 (sliceFrom currentUnit overlapStart ++ segment)
        else pack chunkSize chunkOverlap rest (currentUnit ++ segment)
      else pack chunkSize chunkOverlap rest (currentUnit ++ segment)
  end.

(** [c => c.trim().length > 0] *)
Definition notBlank (c : jsstring) : bool := len (trim c) >? 0.

(** [.map((c, i) => ({ id: `rec-chunk-${i}-${Date.now()}`, ... }))] *)
Fixpoint recChunks (cs : list jsstring) (i : Z) (ticks : nat)
    : list Chunk.t * nat :=
  match cs with
  | [] => ([], ticks)
  | c :: cs' =>
      let ch :=
        Chunk.mk
          (lit "rec-chunk-" ++ numToString i ++ lit "-"
             ++ numToString (now ticks))
          c i (len c) (estimateTokenCount c) in
      let '(rest, t) := recChunks cs' (i + 1) (S ticks) in
      (ch :: rest, t)
  end.

Definition generateRecursiveChunks (fuel : nat) (text : jsstring)
    (config : ChunkingConfig) (ticks : nat) : Res (list Chunk.t * nat) :=
  rawSegments <- recurse fuel (chunkSize config) (chunkOverlap config)
                   (separators config) text ;;
  let chunks := pack (chunkSize config) (chunkOverlap config) rawSegments [] in
  Ret (recChunks (List.filter notBlank chunks) 0 ticks).

(** *** generateMarkdownChunks *)

Definition generateMarkdownChunks (fuel : nat) (text : jsstring)
    (config : ChunkingConfig) (ticks : nat) : Res (list Chunk.t * nat) :=
  generateRecursiveChunks fuel text config ticks.

End Chunkers.

(** *** generateJsonChunks *)

(** A parsed JSON value. [Num] is the platform's number type; the
    properties of an object are listed in the order [Object.entries]
    enumerates them. *)
#[warnings="-register-all"]
Inductive JValue (Num : Type) : Type :=
| JNull
| JBool (b : bool)
| JNumber (n : Num)
| JString (s : jsstring)
| JArray (items : list (JValue Num))
| JObject (props : list (jsstring * JValue Num)).

Arguments JNull {Num}.
Arguments JBool {Num} b.
Arguments JNumber {Num} n.
Arguments JString {Num} s.
Arguments JArray {Num} items.
Arguments JObject {Num} props.

Fixpoint str_eqb (a b : jsstring) : bool :=
  match a, b with
  | [], [] => true
  | x :: a', y :: b' => unit_eqb x y && str_eqb a' b'
  | _, _ => false
  end.

(** The variables local to one invocation of [generateJsonChunks]. *)
Record JsonState := {
  chunks : list Chunk.t;
  index : Z;
  ticks : nat
}.

Section Json.

Context {Num : Type}.
Variable now : nat -> Z.

(** [JSON.parse(text)]: the value, or the [SyntaxError] it throws. *)
Variable JSON_parse : jsstring -> JsError + JValue Num.

(** [JSON.stringify(value, null, 2)] *)
Variable JSON_stringify : JValue Num -> jsstring.

Definition addChunk (content : jsstring) (st : JsonState) : JsonState :=
  {| chunks :=
       chunks st ++
         [Chunk.mk
            (lit "json-chunk-" ++ numToString (index st) ++ lit "-"
               ++ numToString (now (ticks st)))
            content (index st) (len content) (estimateTokenCount content)];
     index := index st + 1;
     ticks := S (ticks st) |}.

(** [for (const item of value)] of the array branch, with the flush of
    the last batch. *)
Fixpoint batchItems (chunkSize : Z) (items currentBatch : list (JValue Num))
    (currentSize : Z) (st : JsonState) : JsonState :=
  match items with
  | [] =>
      if Z.of_nat (List.length currentBatch) >? 0
      then addChunk (JSON_stringify (JArray currentBatch)) st
      else st
  | item :: rest =>
      let itemStr := JSON_stringify item in
      if (currentSize + len itemStr + 2 >? chunkSize)
         && (Z.of_nat (List.length currentBatch) >? 0)
      then
        batchItems chunkSize rest ([] ++ [item]) (0 + (len itemStr + 2))
          (addChunk (JSON_stringify (JArray currentBatch)) st)
      else
        batchItems chunkSize rest (currentBatch ++ [item])
          (currentSize + (len itemStr + 2)) st
  end.

(** [currentObj[k] = v]. The key [__proto__] reaches the setter of
    [Object.prototype] and creates no own property; any other key is
    added after the existing ones, or replaces its old value. *)
Fixpoint putProp (o : list (jsstring * JValue Num)) (k : jsstring)
    (v : JValue Num) : list (jsstring * JValue Num) :=
  match o with
  | [] => [(k, v)]
  | (k', v') :: o' =>
      if str_eqb k' k then (k', v) :: o' else (k', v') :: putProp o' k v
  end.

Definition setProp (o : list (jsstring * JValue Num)) (k : jsstring)
    (v : JValue Num) : list (jsstring * JValue Num) :=
  if str_eqb k (lit "__proto__") then o else putProp o k v.

(** [for (const [k, v] of Object.entries(value))] of the object branch,
    with the flush of the last group. *)
Fixpoint batchProps (chunkSize : Z) (entries currentObj : list (jsstring * JValue Num))
    (currentSize : Z) (st : JsonState) : JsonState :=
  match entries with
  | [] =>
      if Z.of_nat (List.length currentObj) >? 0
      then addChunk (JSON_stringify (JObject currentObj)) st
      else st
  | (k, v) :: rest =>
      let propStr := [34%N] ++ k ++ [34%N; 58%N; 32%N] ++ JSON_stringify v in
      if (currentSize + len propStr + 2 >? chunkSize)
         && (Z.of_nat (List.length currentObj) >? 0)
      then
        batchProps chunkSize rest (setProp [] k v) (2 + (len propStr + 2))
          (addChunk (JSON_stringify (JObject currentObj)) st)
      else
        batchProps chunkSize rest (setProp currentObj k v)
          (currentSize + (len propStr + 2)) st
  end.

Definition processValue (fuel : nat) (config : ChunkingConfig)
    (value : JValue Num) (st : JsonState) : Res JsonState :=
  let jsonStr := JSON_stringify value in
  if len jsonStr <=? chunkSize config then Ret (addChunk jsonStr st)
  else
    match value with
    | JArray items => Ret (batchItems (chunkSize config) items [] 0 st)
    | JObject props => Ret (batchProps (chunkSize config) props [] 2 st)
    | _ =>
        '(recursiveChunks, t) <-
           generateRecursiveChunks now fuel jsonStr config (ticks st) ;;
        Ret (fold_left (fun s c => addChunk (Chunk.content c) s)
               recursiveChunks
               {| chunks := chunks st; index := index st; ticks := t |})
    end.

Definition generateJsonChunks (fuel : nat) (text : jsstring)
    (config : ChunkingConfig) (ticks0 : nat) : Res (list Chunk.t * nat) :=
  match JSON_parse text with
  | inl _ => generateRecursiveChunks now fuel text config ticks0
  | inr data =>
      st <- processValue fuel config data
              {| chunks := []; index := 0; ticks := ticks0 |} ;;
      Ret (chunks st, ticks st)
  end.

End Json.

(** ** Notions used to state the properties *)

(** A chunk without its [id]. *)
Definition payload (c : Chunk.t) : jsstring * Z * Z * Z :=
  (Chunk.content c, Chunk.index c, Chunk.length c, Chunk.tokenCount c).

(** What a caller observes of a call: the chunks, or the way it ended. *)
Definition returned (r : Res (list Chunk.t * nat)) : Res (list Chunk.t) :=
  '(cs, _) <- r ;; Ret cs.

Definition payloads (r : Res (list Chunk.t * nat))
    : Res (list (jsstring * Z * Z * Z)) :=
  cs <- returned r ;; Ret (List.map payload cs).

Definition contents (cs : list Chunk.t) : list jsstring :=
  List.map Chunk.content cs.

(** What the state of [generateJsonChunks] holds apart from the clock:
    the chunks without their [id], and the next index. *)
Definition stateView (st : JsonState) : list (jsstring * Z * Z * Z) * Z :=
  (List.map payload (chunks st), index st).

(** Every chunk in the state has the length of its content. *)
Definition measured (st : JsonState) : Prop :=
  forall c, In c (chunks st) -> Chunk.length c = len (Chunk.content c).

(** The chunks of the state are numbered from 0 in the order they were
    added, the next index is their number, and each carries the token
    estimate of its content. *)
Definition numbered (st : JsonState) : Prop :=
  index st = Z.of_nat (List.length (chunks st))
  /\ forall k c,
       nth_error (chunks st) k = Some c ->
       Chunk.index c = Z.of_nat k
       /\ Chunk.tokenCount c = estimateTokenCount (Chunk.content c).

(** The size [generateJsonChunks] counts for a batch of array elements:
    the length of each serialized element and 2 more for each. *)
Definition batchCost {Num : Type} (JSON_stringify : JValue Num -> jsstring)
    (batch : list (JValue Num)) : Z :=
  fold_right (fun item acc => len (JSON_stringify item) + 2 + acc) 0 batch.

(** The size it counts for a group of properties: 2 for the braces, and
    for each property the length of ["key": value] and 2 more. *)
Definition groupCost {Num : Type} (JSON_stringify : JValue Num -> jsstring)
    (group : list (jsstring * JValue Num)) : Z :=
  fold_right
    (fun kv acc =>
       len ([34%N] ++ fst kv ++ [34%N; 58%N; 32%N] ++ JSON_stringify (snd kv))
       + 2 + acc)
    2 group.

(** A value that is neither an array nor an object. *)
Definition isScalar {Num : Type} (value : JValue Num) : bool :=
  match value with
  | JArray _ | JObject _ => false
  | _ => true
  end.

(** Number of characters in the CJK ranges, and of the others. *)
Definition cjkChars (text : jsstring) : Z :=
  Z.of_nat (List.length (List.filter cjkClass text)).

Definition otherChars (text : jsstring) : Z :=
  Z.of_nat (List.length (List.filter (fun c => negb (cjkClass c)) text)).

(** Number of Unicode code points of a UTF-16 string: a high surrogate
    followed by a low surrogate is one code point, any other code unit is
    one by itself. *)
Definition isHighSurrogate (c : unit16) : bool :=
  ((0xD800 <=? c) && (c <=? 0xDBFF))%N.

Definition isLowSurrogate (c : unit16) : bool :=
  ((0xDC00 <=? c) && (c <=? 0xDFFF))%N.

Fixpoint codePointCount (s : jsstring) : Z :=
  match s with
  | [] => 0
  | hi :: rest =>
      match rest with
      | lo :: rest' =>
          if isHighSurrogate hi && isLowSurrogate lo
          then 1 + codePointCount rest'
          else 1 + codePointCount rest
      | [] => 1
      end
  end.

(** The code points of a UTF-16 string: a high surrogate followed by a
    low surrogate is the one code point they encode, any other code unit
    is the code point of its own value. *)
Fixpoint codePoints (s : jsstring) : list N :=
  match s with
  | [] => []
  | hi :: rest =>
      match rest with
      | lo :: rest' =>
          if isHighSurrogate hi && isLowSurrogate lo
          then (0x10000 + (hi - 0xD800) * 0x400 + (lo - 0xDC00))%N
                 :: codePoints rest'
          else hi :: codePoints rest
      | [] => [hi]
      end
  end.

(** Number of characters, taken as code points, in the CJK ranges, and
    of the others. *)
Definition cjkCodePoints (text : jsstring) : Z :=
  Z.of_nat (List.length (List.filter cjkClass (codePoints text))).

Definition otherCodePoints (text : jsstring) : Z :=
  Z.of_nat
    (List.length (List.filter (fun c => negb (cjkClass c)) (codePoints text))).

(** The chunks [cs] of a call that has read the clock [t'] times when it
    returns carry, at position [k], the id made of [tag], of [k] and of
    what the clock showed at the reading numbered
    [t' - length cs + k]: the last [length cs] readings of the call, one
    for each chunk, in order. *)
Definition stamped (now : nat -> Z) (tag : jsstring) (cs : list Chunk.t)
    (t' : nat) : Prop :=
  (List.length cs <= t')%nat
  /\ forall k c,
       nth_error cs k = Some c ->
       Chunk.id c
       = tag ++ numToString (Z.of_nat k) ++ lit "-"
           ++ numToString (now (t' - List.length cs + k)%nat).

(** Concatenation of chunk contents in order, the first [overlap]
    characters of every chunk after the first dropped. *)
Definition reassemble (overlap : Z) (cs : list jsstring) : jsstring :=
  match cs with
  | [] => []
  | c :: cs' => c ++ concat (List.map (fun x => sliceFrom x overlap) cs')
  end.

(** Concatenation of units in order, each unit after the first without
    the prefix copied from its predecessor, which is the last
    [min overlap (length of the predecessor)] characters of it. *)
Fixpoint stitchAfter (overlap : Z) (prev : jsstring) (units : list jsstring)
    : jsstring :=
  match units with
  | [] => []
  | u :: us =>
      sliceFrom u (Z.min overlap (len prev)) ++ stitchAfter overlap u us
  end.

Definition stitch (overlap : Z) (units : list jsstring) : jsstring :=
  match units with
  | [] => []
  | u :: us => u ++ stitchAfter overlap u us
  end.

(** The parts of a split with the separator put back between them. *)
Fixpoint reattach (sep : jsstring) (parts : list jsstring) : list jsstring :=
  match parts with
  | [] => []
  | [p] => [p]
  | p :: ps => (p ++ sep) :: reattach sep ps
  end.

(** Phase A reaches no hard split on [txt]: every piece that is left when
    the separators are used up fits in [chunkSize]. *)
Fixpoint splitsCleanly (chunkSize : Z) (seps : list jsstring) (txt : jsstring)
    : bool :=
  if len txt <=? chunkSize then true
  else
    match seps with
    | [] => false
    | sep :: nextSeps =>
        if includes txt sep
        then forallb (splitsCleanly chunkSize nextSeps)
               (partsWithSep (split txt sep) sep)
        else splitsCleanly chunkSize nextSeps txt
    end.

(** ** An instance of the platform, for running the model *)

Module Platform.

Definition indent (n : nat) : jsstring := repeat 32%N n.

Fixpoint joinWith (sep : jsstring) (l : list jsstring) : jsstring :=
  match l with
  | [] => []
  | [x] => x
  | x :: l' => x ++ sep ++ joinWith sep l'
  end.

(** Quoting of a string whose code units need no escape other than the
    two-character ones. *)
Definition quoteUnit (c : unit16) : jsstring :=
  if (c =? 34)%N then [92; 34]%N
  else if (c =? 92)%N then [92; 92]%N
  else if (c =? 10)%N then [92; 110]%N
  else if (c =? 13)%N then [92; 114]%N
  else if (c =? 9)%N then [92; 116]%N
  else [c].

Definition quote (s : jsstring) : jsstring :=
  [34%N] ++ concat (List.map quoteUnit s) ++ [34%N].

(** [JSON.stringify(value, null, 2)] on values whose numbers are
    integers; [depth] is the nesting depth of [value]. *)
Fixpoint stringifyAt (depth : nat) (value : JValue Z) : jsstring :=
  match value with
  | JNull => lit "null"
  | JBool true => lit "true"
  | JBool false => lit "false"
  | JNumber n => numToString n
  | JString s => quote s
  | JArray [] => lit "[]"
  | JArray items =>
      let inner := indent (2 * S depth) in
      lit "[" ++ [10%N] ++ inner
        ++ joinWith ([44%N; 10%N] ++ inner)
             (List.map (stringifyAt (S depth)) items)
        ++ [10%N] ++ indent (2 * depth) ++ lit "]"
  | JObject [] => lit "{}"
  | JObject props =>
      let inner := indent (2 * S depth) in
      lit "{" ++ [10%N] ++ inner
        ++ joinWith ([44%N; 10%N] ++ inner)
             (List.map (fun kv => quote (fst kv) ++ [58%N; 32%N]
                                    ++ stringifyAt (S depth) (snd kv)) props)
        ++ [10%N] ++ indent (2 * depth) ++ lit "}"
  end.

Definition stringify (value : JValue Z) : jsstring := stringifyAt 0 value.

(** A parser that knows one document: [doc] parses to [value], every
    other text is rejected. *)
Definition parseOnly (doc : jsstring) (value : JValue Z)
    : jsstring -> JsError + JValue Z :=
  fun text => if str_eqb text doc then inr value else inl SyntaxError.

(** A parser that rejects every text. *)
Definition parseNothing : jsstring -> JsError + JValue Z :=
  fun _ => inl SyntaxError.

(** A clock that stands still at [z]. *)
Definition frozen (z : Z) : nat -> Z := fun _ => z.

End Platform.

(** ** The statistics of the Visualizer component

    The four figures the header of [Visualizer] computes from the chunks
    it is given. *)

(** [Math.round(n / d)]: the nearest integer, a half going up. *)
Definition roundDiv (n d : Z) : Z :=
  Qfloor (inject_Z n / inject_Z d + (1 # 2)).

(** The least and the greatest of [x] and the elements of [xs]. *)
Definition minOf (x : Z) (xs : list Z) : Z := fold_left Z.min xs x.

Definition maxOf (x : Z) (xs : list Z) : Z := fold_left Z.max xs x.

Definition avgSize (chunks : list Chunk.t) : Z :=
  if Z.of_nat (List.length chunks) >? 0
  then roundDiv (fold_left (fun acc c => acc + Chunk.length c) chunks 0)
         (Z.of_nat (List.length chunks))
  else 0.

(** [c.tokenCount || 0] is [0] for a count that is [0], the count
    otherwise. *)
Definition totalTokens (chunks : list Chunk.t) : Z :=
  if Z.of_nat (List.length chunks) >? 0
  then fold_left
         (fun acc c =>
            acc + (if Chunk.tokenCount c =? 0 then 0 else Chunk.tokenCount c))
         chunks 0
  else 0.

(** [Math.min(...xs)] and [Math.max(...xs)] pass every element of the
    list as an argument of the call; an engine accepts [argLimit]
    arguments at most and throws a [RangeError] beyond. [None] is that
    error, which the component does not catch. *)
Definition minSize (argLimit : nat) (chunks : list Chunk.t) : option Z :=
  if Z.of_nat (List.length chunks) >? 0
  then match List.map Chunk.length chunks with
       | x :: xs =>
           if (List.length (x :: xs) <=? argLimit)%nat
           then Some (minOf x xs) else None
       | [] => Some 0
       end
  else Some 0.

Definition maxSize (argLimit : nat) (chunks : list Chunk.t) : option Z :=
  if Z.of_nat (List.length chunks) >? 0
  then match List.map Chunk.length chunks with
       | x :: xs =>
           if (List.length (x :: xs) <=? argLimit)%nat
           then Some (maxOf x xs) else None
       | [] => Some 0
       end
  else Some 0.

(** * Properties *)

(** ** Strings *)

Section StringFacts.

Lemma len_nonneg (s : jsstring) : 0 <= len s.
Proof. unfold len. lia. Qed.

Lemma len_app (a b : jsstring) : len (a ++ b) = len a + len b.
Proof. unfold len. rewrite length_app. lia. Qed.

Lemma len_nil : len [] = 0.
Proof. reflexivity. Qed.

Lemma len_cons (c : unit16) (s : jsstring) : len (c :: s) = 1 + len s.
Proof. unfold len. cbn [List.length]. lia. Qed.

Lemma len_zero_nil (s : jsstring) : len s <= 0 -> s = [].
Proof. destruct s; [reflexivity | rewrite len_cons; pose proof (len_nonneg s); lia]. Qed.

(** [slice] between two indices that are not negative. *)
Lemma slice_nonneg (s : jsstring) (a b : Z) :
  0 <= a -> 0 <= b ->
  slice s a b = firstn (Z.to_nat b - Z.to_nat a) (skipn (Z.to_nat a) s).
Proof.
  intros Ha Hb. unfold slice, relIndex.
  destruct (Z.ltb_spec a 0); [lia|]. destruct (Z.ltb_spec b 0); [lia|].
  pose proof (len_nonneg s) as Hl. unfold len in *.
  destruct (Z.le_ge_cases a (Z.of_nat (List.length s))) as [Hal|Hal].
  - rewrite (Z.min_l a) by lia.
    destruct (Z.le_ge_cases b (Z.of_nat (List.length s))) as [Hbl|Hbl].
    + rewrite (Z.min_l b) by lia. f_equal. lia.
    + rewrite (Z.min_r b) by lia.
      rewrite !firstn_all2; try reflexivity; rewrite length_skipn; lia.
  - rewrite (Z.min_r a) by lia.
    rewrite !skipn_all2 by lia. now rewrite !firstn_nil.
Qed.

Lemma sliceFrom_nonneg (s : jsstring) (a : Z) :
  0 <= a -> sliceFrom s a = skipn (Z.to_nat a) s.
Proof.
  intros Ha. unfold sliceFrom, relIndex.
  destruct (Z.ltb_spec a 0); [lia|]. unfold len.
  destruct (Z.le_ge_cases a (Z.of_nat (List.length s))) as [Hal|Hal].
  - now rewrite Z.min_l by lia.
  - rewrite Z.min_r by lia. rewrite !skipn_all2 by lia. reflexivity.
Qed.

Lemma len_skipn (s : jsstring) (n : nat) :
  len (skipn n s) = Z.max 0 (len s - Z.of_nat n).
Proof. unfold len. rewrite length_skipn. lia. Qed.

Lemma len_firstn (s : jsstring) (n : nat) :
  len (firstn n s) = Z.min (Z.of_nat n) (len s).
Proof. unfold len. rewrite length_firstn. lia. Qed.

Lemma len_slice_nonneg (s : jsstring) (a b : Z) :
  0 <= a -> 0 <= b ->
  len (slice s a b) = Z.max 0 (Z.min b (len s) - a).
Proof.
  intros Ha Hb. rewrite slice_nonneg by assumption.
  rewrite len_firstn, len_skipn. pose proof (len_nonneg s). lia.
Qed.

Lemma isPrefix_app (p s : jsstring) :
  isPrefix p s = true -> s = p ++ skipn (List.length p) s.
Proof.
  revert s. induction p as [|a p IH]; intros [|b s] H; cbn in *;
    try reflexivity; try discriminate.
  apply andb_prop in H as [Hab Hp].
  apply N.eqb_eq in Hab. subst b. f_equal. now apply IH.
Qed.

Lemma breakOn_app (sep s b a : jsstring) :
  breakOn sep s = Some (b, a) -> s = b ++ sep ++ a.
Proof.
  revert b a. induction s as [|c s IH]; intros b a H; cbn [breakOn] in H.
  - destruct (isPrefix sep []) eqn:E; [|discriminate].
    injection H as <- <-. now apply isPrefix_app.
  - destruct (isPrefix sep (c :: s)) eqn:E.
    + injection H as <- <-. now apply isPrefix_app.
    + destruct (breakOn sep s) as [[b' a']|]; [|discriminate].
      injection H as <- <-. cbn. f_equal. now apply IH.
Qed.

Lemma mapi_reattach (sep : jsstring) (total : Z) (parts : list jsstring) (k : nat) :
  Z.of_nat k + Z.of_nat (List.length parts) = total ->
  mapi (fun idx part => if Z.of_nat idx <? total - 1 then part ++ sep else part)
    k parts = reattach sep parts.
Proof.
  revert k. induction parts as [|p ps IH]; intros k H; [reflexivity|].
  cbn [mapi]. rewrite IH by (cbn [List.length] in H; lia).
  destruct ps as [|q ps]; cbn [reattach List.length] in *.
  - destruct (Z.ltb_spec (Z.of_nat k) (total - 1)); [lia | reflexivity].
  - destruct (Z.ltb_spec (Z.of_nat k) (total - 1)); [reflexivity | lia].
Qed.

Lemma partsWithSep_reattach (parts : list jsstring) (sep : jsstring) :
  partsWithSep parts sep = reattach sep parts.
Proof. unfold partsWithSep. now apply mapi_reattach. Qed.

Lemma splitOn_not_nil (n : nat) (sep s : jsstring) : splitOn n sep s <> [].
Proof.
  destruct n; cbn [splitOn]; destruct (breakOn sep s) as [[b a]|]; discriminate.
Qed.

Lemma breakOn_shorter (sep s b a : jsstring) :
  sep <> [] -> breakOn sep s = Some (b, a) ->
  (List.length a < List.length s)%nat.
Proof.
  intros Hsep H. apply breakOn_app in H. subst s.
  rewrite !length_app. destruct sep; [congruence | cbn; lia].
Qed.

(** The bound [split] gives to [splitOn] is never reached: any bound from
    the length of the string on yields the same parts. *)
Lemma splitOn_enough (sep : jsstring) (n : nat) :
  sep <> [] ->
  forall s m,
    (List.length s <= n)%nat -> (List.length s <= m)%nat ->
    splitOn n sep s = splitOn m sep s.
Proof.
  intros Hsep. induction n as [|n IH]; intros s m Hn Hm.
  - destruct s; [|cbn in Hn; lia].
    destruct sep; [congruence|]. destruct m; reflexivity.
  - cbn [splitOn]. destruct (breakOn sep s) as [[b a]|] eqn:E.
    + pose proof (breakOn_shorter sep s b a Hsep E) as Hlt.
      destruct m as [|m]; [lia|]. cbn [splitOn]. rewrite E.
      f_equal. apply IH; lia.
    + destruct m; cbn [splitOn]; now rewrite E.
Qed.

Lemma reattach_splitOn (n : nat) (sep s : jsstring) :
  List.concat (reattach sep (splitOn n sep s)) = s.
Proof.
  revert s. induction n as [|n IH]; intros s; cbn [splitOn].
  - destruct (breakOn sep s) as [[b a]|] eqn:E; cbn.
    + apply breakOn_app in E. rewrite app_nil_r, <- app_assoc. now symmetry.
    + now rewrite app_nil_r.
  - destruct (breakOn sep s) as [[b a]|] eqn:E.
    + specialize (IH a). apply breakOn_app in E.
      destruct (splitOn n sep a) as [|q qs] eqn:Eq.
      * exfalso. now apply (splitOn_not_nil n sep a).
      * change (reattach sep (b :: q :: qs))
          with ((b ++ sep) :: reattach sep (q :: qs)).
        cbn [List.concat]. rewrite IH, <- app_assoc. now symmetry.
    + cbn. now rewrite app_nil_r.
Qed.

Lemma reattach_nil_sep (parts : list jsstring) :
  reattach [] parts = parts.
Proof.
  induction parts as [|p [|q ps] IH]; try reflexivity.
  change (reattach [] (p :: q :: ps)) with ((p ++ []) :: reattach [] (q :: ps)).
  now rewrite IH, app_nil_r.
Qed.

(** The pieces Phase A recurses on make up the text they come from. *)
Lemma concat_partsWithSep (txt sep : jsstring) :
  List.concat (partsWithSep (split txt sep) sep) = txt.
Proof.
  rewrite partsWithSep_reattach. destruct sep as [|c sep]; cbn [split].
  - rewrite reattach_nil_sep. induction txt as [|x txt IH]; cbn; congruence.
  - apply reattach_splitOn.
Qed.

Lemma len_concat_le (l : list jsstring) (p : jsstring) :
  In p l -> len p <= len (List.concat l).
Proof.
  induction l as [|q l IH]; intros H; [destruct H|].
  cbn [List.concat]. rewrite len_app. destruct H as [->|H].
  - pose proof (len_nonneg (List.concat l)). lia.
  - specialize (IH H). pose proof (len_nonneg q). lia.
Qed.

Lemma len_piece_le (txt sep p : jsstring) :
  In p (partsWithSep (split txt sep) sep) -> len p <= len txt.
Proof.
  intros H. apply len_concat_le in H. now rewrite concat_partsWithSep in H.
Qed.

End StringFacts.

(** ** estimateTokenCount *)

Section TokenEstimate.

Lemma ceilDiv_4 (n : Z) : ceilDiv n 4 = - (- n / 4).
Proof.
  unfold ceilDiv, Qceiling, Qfloor, Qdiv, Qmult, Qinv, Qopp, inject_Z.
  cbn. now rewrite Z.mul_1_r.
Qed.

Lemma ceilDiv_4_bounds (n : Z) :
  4 * (ceilDiv n 4 - 1) < n <= 4 * ceilDiv n 4.
Proof.
  rewrite ceilDiv_4.
  pose proof (Z.div_mod (- n) 4 ltac:(lia)).
  pose proof (Z.mod_pos_bound (- n) 4 ltac:(lia)). lia.
Qed.

Lemma filter_split_length {A} (p : A -> bool) (l : list A) :
  (List.length (List.filter p l)
   + List.length (List.filter (fun x => negb (p x)) l) = List.length l)%nat.
Proof.
  induction l as [|x l IH]; [reflexivity|]. cbn.
  destruct (p x); cbn; lia.
Qed.

Lemma cjk_other_total (text : jsstring) :
  cjkChars text + otherChars text = len text.
Proof.
  unfold cjkChars, otherChars, len.
  pose proof (filter_split_length cjkClass text). lia.
Qed.

(** The number of matches of the regular expression, [0] for [null]. *)
Lemma matchCjk_count (text : jsstring) :
  match matchCjk text with
  | Some ms => Z.of_nat (List.length ms)
  | None => 0
  end = cjkChars text.
Proof.
  unfold matchCjk, cjkChars.
  destruct (List.filter cjkClass text) as [|c ms]; [reflexivity|].
  now rewrite length_map.
Qed.

Lemma estimateTokenCount_eq (text : jsstring) :
  estimateTokenCount text = cjkChars text + ceilDiv (otherChars text) 4.
Proof.
  unfold estimateTokenCount. cbv zeta. rewrite matchCjk_count.
  pose proof (cjk_other_total text) as H.
  assert (0 <= otherChars text) by (unfold otherChars; lia).
  now replace (Z.max 0 (len text - cjkChars text)) with (otherChars text) by lia.
Qed.

Lemma estimateTokenCount_nonneg (text : jsstring) :
  0 <= estimateTokenCount text.
Proof.
  rewrite estimateTokenCount_eq.
  pose proof (ceilDiv_4_bounds (otherChars text)).
  assert (0 <= otherChars text) by (unfold otherChars; lia).
  assert (0 <= cjkChars text) by (unfold cjkChars; lia). lia.
Qed.

End TokenEstimate.

(** ** generateFixedSizeChunks *)

Section FixedWindow.

Variable now : nat -> Z.
Variable text : jsstring.
Variables chunkSize step : Z.

Hypothesis step_pos : 0 < step.

(** The loop leaves within [len text - start] iterations. *)
Lemma fixedLoop_returns (fuel : nat) :
  forall start index ticks,
    len text - start <= Z.of_nat fuel ->
    exists cs t,
      fixedLoop now fuel text chunkSize step start index ticks = Ret (cs, t).
Proof.
  induction fuel as [|fuel IH]; intros start index ticks Hf; cbn [fixedLoop].
  - destruct (Z.ltb_spec start (len text)); [lia | eauto].
  - destruct (Z.ltb_spec start (len text)); [|eauto].
    destruct (IH (start + step) (index + 1) (S ticks)) as (cs & t & E); [lia|].
    rewrite E. cbn. eauto.
Qed.

(** The k-th chunk pushed from [start] on is the window at
    [start + k * step]. *)
Lemma fixedLoop_nth (fuel : nat) :
  forall start index ticks cs t,
    fixedLoop now fuel text chunkSize step start index ticks = Ret (cs, t) ->
    forall k c,
      nth_error cs k = Some c ->
      let s := start + Z.of_nat k * step in
      s < len text
      /\ Chunk.content c = slice text s (Z.min (s + chunkSize) (len text))
      /\ Chunk.length c = len (Chunk.content c)
      /\ Chunk.index c = index + Z.of_nat k.
Proof.
  induction fuel as [|fuel IH]; intros start index ticks cs t E k c Hk;
    cbn [fixedLoop] in E; destruct (Z.ltb_spec start (len text)) as [Hlt|Hge];
    try discriminate;
    try (injection E as <- <-; destruct k; discriminate).
  destruct (fixedLoop now fuel text chunkSize step (start + step) (index + 1)
              (S ticks)) as [[cs' t']| |] eqn:E'; cbn in E; try discriminate.
  injection E as <- <-. destruct k as [|k]; cbn in Hk.
  - injection Hk as <-. cbn. rewrite Z.add_0_r. repeat split; try lia.
  - specialize (IH _ _ _ _ _ E' k c Hk). cbv zeta in *.
    replace (start + Z.of_nat (S k) * step)
      with (start + step + Z.of_nat k * step) by lia.
    replace (index + Z.of_nat (S k)) with (index + 1 + Z.of_nat k) by lia.
    exact IH.
Qed.

Lemma fixedLoop_length (fuel : nat) :
  forall start index ticks cs t,
    fixedLoop now fuel text chunkSize step start index ticks = Ret (cs, t) ->
    forall k,
      (k < List.length cs)%nat <-> start + Z.of_nat k * step < len text.
Proof.
  induction fuel as [|fuel IH]; intros start index ticks cs t E k;
    cbn [fixedLoop] in E; destruct (Z.ltb_spec start (len text)) as [Hlt|Hge];
    try discriminate;
    try (injection E as <- <-; cbn; split; [lia | nia]).
  destruct (fixedLoop now fuel text chunkSize step (start + step) (index + 1)
              (S ticks)) as [[cs' t']| |] eqn:E'; cbn in E; try discriminate.
  injection E as <- <-. destruct k as [|k]; cbn [List.length].
  - split; lia.
  - specialize (IH _ _ _ _ _ E' k).
    replace (start + Z.of_nat (S k) * step)
      with (start + step + Z.of_nat k * step) by lia.
    rewrite <- IH. lia.
Qed.



End FixedWindow.

(** With a positive [chunkSize] the call is the loop with a step of at
    least one, whatever the overlap. *)
Lemma generateFixedSizeChunks_loop (now : nat -> Z) (fuel : nat)
    (text : jsstring) (config : ChunkingConfig) (ticks : nat) :
  0 < chunkSize config ->
  let overlap := Z.min (chunkOverlap config) (chunkSize config - 1) in
  generateFixedSizeChunks now fuel text config ticks
  = fixedLoop now fuel text (chunkSize config) (chunkSize config - overlap)
      0 0 ticks
  /\ 0 < chunkSize config - overlap.
Proof.
  intros Hs overlap. unfold generateFixedSizeChunks.
  destruct (Z.leb_spec (chunkSize config) 0); [lia|].
  split; [reflexivity | unfold overlap; lia].
Qed.




(** C5, as the code has it. For every text and every config with
    [chunkSize > 0] and [0 <= chunkOverlap < chunkSize],
    [generateFixedSizeChunks] returns chunks that are all of length at
    most [chunkSize]; the k-th chunk is the window that starts at
    [k * (chunkSize - chunkOverlap)], and has length exactly [chunkSize]
    whenever that window ends within the text; with [chunkOverlap = 0]
    every chunk but the last has length [chunkSize]. *)
Theorem fixed_window_sizes :
  forall (now : nat -> Z) (fuel : nat) (text : jsstring)
         (config : ChunkingConfig) (ticks : nat),
    0 < chunkSize config ->
    0 <= chunkOverlap config < chunkSize config ->
    len text <= Z.of_nat fuel ->
    exists cs t,
      generateFixedSizeChunks now fuel text config ticks = Ret (cs, t)
      /\ (forall c, In c cs -> Chunk.length c <= chunkSize config)
      /\ (forall k c,
             nth_error cs k = Some c ->
             Z.of_nat k * (chunkSize config - chunkOverlap config)
               + chunkSize config <= len text ->
             Chunk.length c = chunkSize config)
      /\ (chunkOverlap config = 0 ->
          forall k c,
            nth_error cs k = Some c -> (S k < List.length cs)%nat ->
            Chunk.length c = chunkSize config).
Proof.
  intros now fuel text config ticks Hs Ho Hf.
  destruct (generateFixedSizeChunks_loop now fuel text config ticks Hs)
    as [E Hstep]. cbv zeta in E.
  rewrite Z.min_l in E, Hstep by lia.
  set (step := chunkSize config - chunkOverlap config) in *.
  destruct (fixedLoop_returns now text (chunkSize config) step Hstep fuel 0 0 ticks)
    as (cs & t & R); [lia|].
  exists cs, t. split; [congruence|].
  pose proof (len_nonneg text) as Hl.
  assert (Hnth : forall k c, nth_error cs k = Some c ->
            Z.of_nat k * step < len text
            /\ Chunk.length c
               = Z.min (chunkSize config) (len text - Z.of_nat k * step)).
  { intros k c Hk.
    destruct (fixedLoop_nth now text (chunkSize config) step fuel _ _ _ _ _ R k c Hk)
      as (Hlt & Hc & Hlen & _). cbn in Hlt, Hc. split; [assumption|].
    rewrite Hlen, Hc. rewrite len_slice_nonneg by nia. nia. }
  split; [|split].
  - intros c Hin. apply In_nth_error in Hin as [k Hk].
    destruct (Hnth k c Hk). lia.
  - intros k c Hk Hend. destruct (Hnth k c Hk). fold step in Hend. lia.
  - intros Hz k c Hk Hnext. destruct (Hnth k c Hk) as [_ ->].
    apply (fixedLoop_length now text (chunkSize config) step Hstep
             fuel 0 0 ticks cs t R (S k)) in Hnext.
    unfold step in *. nia.
Qed.

Lemma fixed_window_sizes_witness :
  exists cs t,
    generateFixedSizeChunks (Platform.frozen 0) 4 (lit "abcd")
      {| chunkSize := 3; chunkOverlap := 2; separators := [] |} 0%nat
    = Ret (cs, t)
    /\ (forall c, In c cs -> Chunk.length c <= 3)
    /\ (forall k c,
           nth_error cs k = Some c ->
           Z.of_nat k * (3 - 2) + 3 <= len (lit "abcd") ->
           Chunk.length c = 3)
    /\ (2 = 0 ->
        forall k c,
          nth_error cs k = Some c -> (S k < List.length cs)%nat ->
          Chunk.length c = 3).
Proof.
  apply (fixed_window_sizes (Platform.frozen 0) 4 (lit "abcd")
           {| chunkSize := 3; chunkOverlap := 2; separators := [] |} 0%nat);
    cbn; lia.
Defined.

(** C5 as it is stated fails when the overlap is positive: on "abcd" with
    [chunkSize = 3] and [chunkOverlap = 2] the chunks are "abc", "bcd",
    "cd" and "d", and the third, which is not the last, has length 2. *)
Lemma fixed_window_short_before_last :
  0 < chunkSize {| chunkSize := 3; chunkOverlap := 2; separators := [] |}
  /\ 0 <= chunkOverlap {| chunkSize := 3; chunkOverlap := 2; separators := [] |}
       < chunkSize {| chunkSize := 3; chunkOverlap := 2; separators := [] |}
  /\ exists cs t c,
       generateFixedSizeChunks (Platform.frozen 0) 4 (lit "abcd")
         {| chunkSize := 3; chunkOverlap := 2; separators := [] |} 0%nat
       = Ret (cs, t)
       /\ contents cs = [lit "abc"; lit "bcd"; lit "cd"; lit "d"]
       /\ nth_error cs 2 = Some c
       /\ (2 < List.length cs - 1)%nat
       /\ Chunk.length c = 2
       /\ Chunk.length c <> 3.
Proof.
  split; [cbn; lia|]. split; [cbn; lia|].
  eexists. eexists. eexists. split; [vm_compute; reflexivity|].
  split; [reflexivity|]. split; [reflexivity|]. split; [cbn; lia|].
  split; [reflexivity | discriminate].
Qed.

(** ** generateRecursiveChunks *)

Section PhaseA.

Variables chunkSize chunkOverlap : Z.

(** The hard split leaves when its step is positive. *)
Lemma hardSplit_returns (txt : jsstring) (fuel : nat) :
  0 < chunkSize - chunkOverlap ->
  forall i,
    len txt - i <= Z.of_nat fuel ->
    exists segs, hardSplit fuel txt chunkSize chunkOverlap i = Ret segs.
Proof.
  intros Hstep. induction fuel as [|fuel IH]; intros i Hf; cbn [hardSplit].
  - destruct (Z.ltb_spec i (len txt)); [lia | eauto].
  - destruct (Z.ltb_spec i (len txt)); [|eauto].
    destruct (IH (i + (chunkSize - chunkOverlap))) as (segs & E); [lia|].
    rewrite E. cbn. eauto.
Qed.

(** The hard split never leaves when its step is zero or negative and
    there is something to split. *)
Lemma hardSplit_spins (txt : jsstring) (fuel : nat) :
  chunkSize - chunkOverlap <= 0 ->
  forall i,
    i < len txt ->
    hardSplit fuel txt chunkSize chunkOverlap i = Spin.
Proof.
  intros Hstep. induction fuel as [|fuel IH]; intros i Hi; cbn [hardSplit];
    destruct (Z.ltb_spec i (len txt)); try lia; [reflexivity|].
  rewrite IH by lia. reflexivity.
Qed.

Lemma forEach_concat (f : jsstring -> Res (list jsstring)) (l : list jsstring) :
  (forall p, In p l -> exists segs, f p = Ret segs /\ List.concat segs = p) ->
  exists segs, forEach f l = Ret segs /\ List.concat segs = List.concat l.
Proof.
  induction l as [|p l IH]; intros H; cbn [forEach].
  - exists []. split; reflexivity.
  - destruct (H p (or_introl eq_refl)) as (s1 & E1 & C1).
    destruct IH as (s2 & E2 & C2); [intros q Hq; apply H; now right|].
    change ((fix go (l0 : list jsstring) : Res (list jsstring) :=
               match l0 with
               | [] => Ret []
               | p0 :: l' => segs <- f p0;; rest <- go l';; Ret (segs ++ rest)
               end) l) with (forEach f l).
    rewrite E1, E2. cbn. exists (s1 ++ s2). split; [reflexivity|].
    now rewrite concat_app, C1, C2.
Qed.

(** When Phase A reaches no hard split, it returns, whatever the
    overlap and without entering a loop, segments that make up the
    text. *)
Lemma recurse_clean (fuel : nat) (seps : list jsstring) :
  forall txt,
    splitsCleanly chunkSize seps txt = true ->
    exists segs,
      recurse fuel chunkSize chunkOverlap seps txt = Ret segs
      /\ List.concat segs = txt.
Proof.
  induction seps as [|sep nextSeps IH]; intros txt H;
    cbn [recurse splitsCleanly] in *;
    destruct (len txt <=? chunkSize);
    try (exists [txt]; split; [reflexivity | apply app_nil_r]);
    try discriminate.
  destruct (includes txt sep); [|now apply IH].
  destruct (forEach_concat (recurse fuel chunkSize chunkOverlap nextSeps)
              (partsWithSep (split txt sep) sep)) as (segs & E & C).
  - intros p Hp. apply IH. rewrite forallb_forall in H. now apply H.
  - exists segs. split; [assumption|]. now rewrite C, concat_partsWithSep.
Qed.

End PhaseA.

Section PhaseAWithoutOverlap.

Variable chunkSize : Z.
Hypothesis chunkSize_pos : 0 < chunkSize.

(** Without overlap the slices of the hard split are consecutive. *)
Lemma hardSplit_concat (txt : jsstring) (fuel : nat) :
  forall i segs,
    0 <= i ->
    hardSplit fuel txt chunkSize 0 i = Ret segs ->
    List.concat segs = skipn (Z.to_nat i) txt.
Proof.
  induction fuel as [|fuel IH]; intros i segs Hi E; cbn [hardSplit] in E;
    destruct (Z.ltb_spec i (len txt)) as [Hlt|Hge]; try discriminate;
    try (injection E as <-; cbn; rewrite skipn_all2;
         [reflexivity | unfold len in Hge; lia]).
  destruct (hardSplit fuel txt chunkSize 0 (i + (chunkSize - 0)))
    as [rest| |] eqn:E'; cbn in E; try discriminate.
  injection E as <-. cbn [List.concat].
  rewrite (IH (i + (chunkSize - 0)) rest ltac:(lia) E').
  rewrite slice_nonneg by lia.
  replace (Z.to_nat (i + chunkSize) - Z.to_nat i)%nat
    with (Z.to_nat chunkSize) by lia.
  replace (Z.to_nat (i + (chunkSize - 0)))
    with (Z.to_nat chunkSize + Z.to_nat i)%nat by lia.
  rewrite <- skipn_skipn. apply firstn_skipn.
Qed.

(** Without overlap Phase A returns segments that make up the text. *)
Lemma recurse_no_overlap (fuel : nat) (seps : list jsstring) :
  forall txt,
    len txt <= Z.of_nat fuel ->
    exists segs,
      recurse fuel chunkSize 0 seps txt = Ret segs
      /\ List.concat segs = txt.
Proof.
  induction seps as [|sep nextSeps IH]; intros txt Hf; cbn [recurse];
    destruct (len txt <=? chunkSize);
    try (exists [txt]; split; [reflexivity | apply app_nil_r]).
  - destruct (hardSplit_returns chunkSize 0 txt fuel ltac:(lia) 0 ltac:(lia))
      as (segs & E).
    exists segs. split; [assumption|].
    now rewrite (hardSplit_concat txt fuel 0 segs ltac:(lia) E).
  - destruct (includes txt sep); [|now apply IH].
    destruct (forEach_concat (recurse fuel chunkSize 0 nextSeps)
                (partsWithSep (split txt sep) sep)) as (segs & E & C).
    + intros p Hp. apply IH. apply len_piece_le in Hp. lia.
    + exists segs. split; [assumption|]. now rewrite C, concat_partsWithSep.
Qed.

End PhaseAWithoutOverlap.

Section PhaseB.

Variables chunkSize chunkOverlap : Z.
Hypothesis chunkOverlap_nonneg : 0 <= chunkOverlap.

Lemma sliceFrom_app (a b : jsstring) (k : Z) :
  0 <= k <= len a -> sliceFrom (a ++ b) k = sliceFrom a k ++ b.
Proof.
  intros Hk. rewrite !sliceFrom_nonneg by lia. rewrite skipn_app.
  replace (Z.to_nat k - List.length a)%nat with 0%nat by (unfold len in Hk; lia).
  reflexivity.
Qed.

Lemma sliceFrom_tail_app (cur seg : jsstring) :
  sliceFrom (sliceFrom cur (Z.max 0 (len cur - chunkOverlap)) ++ seg)
    (Z.min chunkOverlap (len cur)) = seg.
Proof.
  pose proof (len_nonneg cur) as Hl.
  rewrite (sliceFrom_nonneg cur) by lia.
  rewrite sliceFrom_nonneg by lia. rewrite skipn_app.
  rewrite length_skipn.
  replace (Z.to_nat (Z.min chunkOverlap (len cur))
           - (List.length cur - Z.to_nat (Z.max 0 (len cur - chunkOverlap))))%nat
    with 0%nat by (unfold len in *; lia).
  rewrite skipn_all2; [reflexivity|].
  rewrite length_skipn. unfold len in *. lia.
Qed.

(** The units of Phase B, each without what it repeats of the unit
    before, make up the unit under construction followed by the segments
    still to come. *)
Lemma pack_stitchAfter (segments : list jsstring) :
  forall currentUnit prev,
    Z.min chunkOverlap (len prev) <= len currentUnit ->
    stitchAfter chunkOverlap prev (pack chunkSize chunkOverlap segments currentUnit)
    = sliceFrom currentUnit (Z.min chunkOverlap (len prev))
        ++ List.concat segments.
Proof.
  induction segments as [|segment rest IH]; intros cur prev Hk;
    pose proof (len_nonneg prev) as Hp; pose proof (len_nonneg cur) as Hc;
    cbn [pack List.concat].
  - destruct (Z.gtb_spec (len cur) 0) as [Hpos|Hz]; cbn [stitchAfter].
    + reflexivity.
    + rewrite (len_zero_nil cur Hz). rewrite sliceFrom_nonneg by lia.
      now rewrite skipn_nil.
  - assert (Hplain :
      stitchAfter chunkOverlap prev
        (pack chunkSize chunkOverlap rest (cur ++ segment))
      = sliceFrom cur (Z.min chunkOverlap (len prev))
          ++ segment ++ List.concat rest).
    { rewrite IH by (rewrite len_app; pose proof (len_nonneg segment); lia).
      rewrite sliceFrom_app by lia. now rewrite <- app_assoc. }
    destruct (len cur + len segment >? chunkSize); [|exact Hplain].
    destruct (len cur >? 0); [|exact Hplain].
    cbn [stitchAfter]. f_equal. rewrite IH.
    + now rewrite sliceFrom_tail_app.
    + rewrite len_app, (sliceFrom_nonneg cur) by lia. rewrite len_skipn.
      pose proof (len_nonneg segment). lia.
Qed.

Lemma stitch_pack (segments : list jsstring) :
  stitch chunkOverlap (pack chunkSize chunkOverlap segments [])
  = List.concat segments.
Proof.
  pose proof (pack_stitchAfter segments [] []) as H.
  rewrite len_nil, Z.min_r in H by lia. specialize (H ltac:(lia)).
  cbn in H. rewrite <- H.
  destruct (pack chunkSize chunkOverlap segments []) as [|u us];
    [reflexivity|].
  cbn [stitch stitchAfter]. rewrite len_nil, Z.min_r by lia.
  now rewrite sliceFrom_nonneg by lia.
Qed.

End PhaseB.

Section Numbering.

Variable now : nat -> Z.

Lemma recChunks_contents (cs : list jsstring) :
  forall i ticks, contents (fst (recChunks now cs i ticks)) = cs.
Proof.
  induction cs as [|c cs IH]; intros i ticks; cbn [recChunks]; [reflexivity|].
  specialize (IH (i + 1) (S ticks)).
  destruct (recChunks now cs (i + 1) (S ticks)) as [rest t]. cbn in *.
  now rewrite IH.
Qed.

Lemma recChunks_length_field (cs : list jsstring) :
  forall i ticks c,
    In c (fst (recChunks now cs i ticks)) ->
    Chunk.length c = len (Chunk.content c).
Proof.
  induction cs as [|x cs IH]; intros i ticks c; cbn [recChunks]; [intros []|].
  specialize (IH (i + 1) (S ticks) c).
  destruct (recChunks now cs (i + 1) (S ticks)) as [rest t]. cbn in *.
  intros [<-|H]; [reflexivity | now apply IH].
Qed.

End Numbering.

Section RecursiveCalls.

Variable now : nat -> Z.

Lemma forEach_returns (f : jsstring -> Res (list jsstring)) (l : list jsstring) :
  (forall p, In p l -> exists segs, f p = Ret segs) ->
  exists segs, forEach f l = Ret segs.
Proof.
  induction l as [|p l IH]; intros H; cbn [forEach]; [eauto|].
  destruct (H p (or_introl eq_refl)) as (s1 & E1).
  destruct IH as (s2 & E2); [intros q Hq; apply H; now right|].
  change ((fix go (l0 : list jsstring) : Res (list jsstring) :=
             match l0 with
             | [] => Ret []
             | p0 :: l' => segs <- f p0;; rest <- go l';; Ret (segs ++ rest)
             end) l) with (forEach f l).
  rewrite E1, E2. cbn. eauto.
Qed.

(** Phase A returns whenever the step of the hard split is positive. *)
Lemma recurse_returns (chunkSize chunkOverlap : Z) (fuel : nat)
    (seps : list jsstring) :
  0 < chunkSize - chunkOverlap ->
  forall txt,
    len txt <= Z.of_nat fuel ->
    exists segs, recurse fuel chunkSize chunkOverlap seps txt = Ret segs.
Proof.
  intros Hstep. induction seps as [|sep nextSeps IH]; intros txt Hf;
    cbn [recurse]; destruct (len txt <=? chunkSize); eauto.
  - apply hardSplit_returns; lia.
  - destruct (includes txt sep); [|now apply IH].
    apply forEach_returns. intros p Hp. apply IH.
    apply len_piece_le in Hp. lia.
Qed.

Lemma generateRecursiveChunks_returns (fuel : nat) (text : jsstring)
    (config : ChunkingConfig) (ticks : nat) :
  chunkOverlap config < chunkSize config ->
  len text <= Z.of_nat fuel ->
  exists cs t, generateRecursiveChunks now fuel text config ticks = Ret (cs, t).
Proof.
  intros Hstep Hf. unfold generateRecursiveChunks.
  destruct (recurse_returns (chunkSize config) (chunkOverlap config) fuel
              (separators config) ltac:(lia) text Hf) as (segs & ->).
  cbn. destruct (recChunks now _ 0 ticks) as [cs t]. eauto.
Qed.

(** Whatever is returned has kept only chunks that are not blank. *)
Lemma generateRecursiveChunks_not_blank (fuel : nat) (text : jsstring)
    (config : ChunkingConfig) (ticks : nat) (cs : list Chunk.t) (t : nat) :
  generateRecursiveChunks now fuel text config ticks = Ret (cs, t) ->
  forall c, In c cs -> len (trim (Chunk.content c)) > 0.
Proof.
  unfold generateRecursiveChunks.
  destruct (recurse fuel _ _ _ text) as [segs| |]; cbn; try discriminate.
  intros E c Hc.
  pose proof (recChunks_contents now
                (List.filter notBlank
                   (pack (chunkSize config) (chunkOverlap config) segs []))
                0 ticks) as Hcs.
  injection E as E. rewrite E in Hcs. cbn [fst] in Hcs.
  assert (Hin : In (Chunk.content c) (contents cs))
    by (unfold contents; now apply in_map).
  rewrite Hcs in Hin. apply filter_In in Hin as [_ Hnb].
  unfold notBlank in Hnb. now apply Z.gtb_gt.
Qed.

(** With the separators used up, a non-empty text longer than
    [chunkSize] and a step [chunkSize - chunkOverlap] that is not
    positive, the call is caught in the hard split. *)
Lemma generateRecursiveChunks_spins (fuel : nat) (text : jsstring)
    (config : ChunkingConfig) (ticks : nat) :
  separators config = [] ->
  0 < len text ->
  chunkSize config < len text ->
  chunkSize config - chunkOverlap config <= 0 ->
  generateRecursiveChunks now fuel text config ticks = Spin.
Proof.
  intros Hseps Hpos Hlen Hstep. unfold generateRecursiveChunks.
  rewrite Hseps. cbn [recurse].
  destruct (Z.leb_spec (len text) (chunkSize config)); [lia|].
  rewrite hardSplit_spins; [reflexivity | assumption | assumption].
Qed.

(** On the empty text Phase A pushes at most the empty segment. *)
Lemma recurse_empty (chunkSize chunkOverlap : Z) (fuel : nat)
    (seps : list jsstring) :
  recurse fuel chunkSize chunkOverlap seps [] = Ret [[]] /\ 0 <= chunkSize
  \/ recurse fuel chunkSize chunkOverlap seps [] = Ret [].
Proof.
  induction seps as [|sep nextSeps IH]; cbn [recurse];
    destruct (Z.leb_spec (len []) chunkSize) as [H|H]; try (left; now split).
  - right. destruct fuel; reflexivity.
  - destruct sep as [|c sep]; [right; reflexivity | exact IH].
Qed.

End RecursiveCalls.

(** C1, at inputs where the code does not do what the claim says. On
    the text "ab" with [chunkSize = 1], [chunkOverlap = 1] and no separator,
    and on the text "a" with [chunkSize = 0], [chunkOverlap = 0] and no
    separator, the hard split of Phase A advances by
    [chunkSize - chunkOverlap = 0]: however many iterations are allowed,
    [generateRecursiveChunks] is still inside that loop and returns
    nothing. *)
Theorem recursive_hard_split_never_returns :
  forall (now : nat -> Z) (fuel ticks : nat),
    generateRecursiveChunks now fuel (lit "ab")
      {| chunkSize := 1; chunkOverlap := 1; separators := [] |} ticks = Spin
    /\ generateRecursiveChunks now fuel (lit "a")
         {| chunkSize := 0; chunkOverlap := 0; separators := [] |} ticks = Spin.
Proof.
  intros now fuel ticks.
  split; apply generateRecursiveChunks_spins; cbn; solve [reflexivity | lia].
Qed.

(** C10. On the empty text, whatever the config, the clock and the bound
    on loop iterations, [generateFixedSizeChunks] and
    [generateRecursiveChunks] both return the empty sequence of chunks. *)
Theorem empty_text_no_chunks :
  forall (now : nat -> Z) (fuel : nat) (config : ChunkingConfig) (ticks : nat),
    returned (generateFixedSizeChunks now fuel [] config ticks) = Ret []
    /\ returned (generateRecursiveChunks now fuel [] config ticks) = Ret [].
Proof.
  intros now fuel config ticks. split.
  - unfold generateFixedSizeChunks.
    destruct (chunkSize config <=? 0); [reflexivity|].
    destruct fuel; reflexivity.
  - unfold generateRecursiveChunks.
    destruct (recurse_empty (chunkSize config) (chunkOverlap config) fuel
                (separators config)) as [[-> H]| ->]; [|reflexivity].
    cbn [bind pack]. rewrite len_nil. cbn [Z.add app].
    destruct (Z.gtb_spec 0 (chunkSize config)); [lia|]. reflexivity.
Qed.

(** C2, as the code has it. For every text and every config with
    [chunkSize > 0] and [0 <= chunkOverlap < chunkSize], if
    [chunkOverlap = 0] or Phase A reaches no hard split on the text, then
    [generateRecursiveChunks] returns, and the units Phase B forms, taken
    in order before the blank ones are filtered out, each unit after the
    first without the prefix it repeats from its predecessor (the last
    [min chunkOverlap (length of the predecessor)] characters of it),
    make up the text exactly. The contents of the chunks returned are
    those units that are not blank, in order; so they make up the text
    themselves when no unit is blank. *)
Theorem recursive_units_reconstruct :
  forall (now : nat -> Z) (fuel : nat) (text : jsstring)
         (config : ChunkingConfig) (ticks : nat),
    0 < chunkSize config ->
    0 <= chunkOverlap config < chunkSize config ->
    chunkOverlap config = 0
    \/ splitsCleanly (chunkSize config) (separators config) text = true ->
    len text <= Z.of_nat fuel ->
    exists segs cs t,
      recurse fuel (chunkSize config) (chunkOverlap config)
        (separators config) text = Ret segs
      /\ generateRecursiveChunks now fuel text config ticks = Ret (cs, t)
      /\ stitch (chunkOverlap config)
           (pack (chunkSize config) (chunkOverlap config) segs []) = text
      /\ contents cs
         = List.filter notBlank
             (pack (chunkSize config) (chunkOverlap config) segs [])
      /\ (forallb notBlank
            (pack (chunkSize config) (chunkOverlap config) segs []) = true ->
          stitch (chunkOverlap config) (contents cs) = text).
Proof.
  intros now fuel text config ticks Hs Ho Hcase Hf.
  assert (HA : exists segs,
             recurse fuel (chunkSize config) (chunkOverlap config)
               (separators config) text = Ret segs
             /\ List.concat segs = text).
  { destruct Hcase as [Hz|Hclean].
    - rewrite Hz. now apply recurse_no_overlap.
    - now apply recurse_clean. }
  destruct HA as (segs & EA & CA).
  set (units := pack (chunkSize config) (chunkOverlap config) segs []).
  pose proof (recChunks_contents now (List.filter notBlank units) 0 ticks) as Hcs.
  destruct (recChunks now (List.filter notBlank units) 0 ticks) as [cs t] eqn:EB.
  cbn [fst] in Hcs.
  assert (Hst : stitch (chunkOverlap config) units = text)
    by (unfold units; rewrite stitch_pack by lia; exact CA).
  exists segs, cs, t. split; [exact EA|]. split.
  - unfold generateRecursiveChunks. rewrite EA. cbn [bind].
    fold units. now rewrite EB.
  - split; [exact Hst|]. split; [exact Hcs|].
    intros Hall. rewrite Hcs.
    replace (List.filter notBlank units) with units; [exact Hst|].
    symmetry. apply forallb_filter_id. exact Hall.
Qed.

Lemma recursive_units_reconstruct_witness :
  exists segs cs t,
    recurse 8 4 2 [lit " "] (lit "ab cd ef") = Ret segs
    /\ generateRecursiveChunks (Platform.frozen 0) 8 (lit "ab cd ef")
         {| chunkSize := 4; chunkOverlap := 2; separators := [lit " "] |} 0%nat
       = Ret (cs, t)
    /\ stitch 2 (pack 4 2 segs []) = lit "ab cd ef"
    /\ contents cs = List.filter notBlank (pack 4 2 segs [])
    /\ (forallb notBlank (pack 4 2 segs []) = true ->
        stitch 2 (contents cs) = lit "ab cd ef").
Proof.
  apply (recursive_units_reconstruct (Platform.frozen 0) 8 (lit "ab cd ef")
           {| chunkSize := 4; chunkOverlap := 2; separators := [lit " "] |}
           0%nat).
  - cbn; lia.
  - cbn; lia.
  - right. vm_compute. reflexivity.
  - cbn; lia.
Defined.

(** C2 as it is stated fails in two ways. Without overlap, on "a   b"
    with [chunkSize = 2] and no separator, the unit made of two blanks is
    filtered out and the chunks "a " and "b" are returned: two characters
    of the text are lost. With [chunkOverlap = 2], on "abcdefgh" with
    [chunkSize = 4] and no separator, the slices of the hard split already
    overlap and Phase B repeats the overlap once more: the chunks are
    "abcd", "cdcdef", "efefgh" and "ghgh", and with the declared overlap
    removed from each chunk after the first they give "abcdcdefefghgh". *)
Lemma recursive_roundtrip_fails :
  (exists cs t,
      generateRecursiveChunks (Platform.frozen 0) 5 (lit "a   b")
        {| chunkSize := 2; chunkOverlap := 0; separators := [] |} 0%nat
      = Ret (cs, t)
      /\ contents cs = [lit "a "; lit "b"]
      /\ stitch 0 (contents cs) <> lit "a   b"
      /\ reassemble 0 (contents cs) <> lit "a   b")
  /\ (exists cs t,
         generateRecursiveChunks (Platform.frozen 0) 8 (lit "abcdefgh")
           {| chunkSize := 4; chunkOverlap := 2; separators := [] |} 0%nat
         = Ret (cs, t)
         /\ contents cs = [lit "abcd"; lit "cdcdef"; lit "efefgh"; lit "ghgh"]
         /\ stitch 2 (contents cs) = lit "abcdcdefefghgh"
         /\ stitch 2 (contents cs) <> lit "abcdefgh"
         /\ reassemble 2 (contents cs) <> lit "abcdefgh").
Proof.
  split.
  - eexists. eexists. split; [vm_compute; reflexivity|].
    split; [reflexivity|]. split; discriminate.
  - eexists. eexists. split; [vm_compute; reflexivity|].
    split; [reflexivity|]. split; [reflexivity|]. split; discriminate.
Qed.

(** ** generateJsonChunks *)

Section JsonArray.

Context {Num : Type}.
Variable now : nat -> Z.
Variable JSON_stringify : JValue Num -> jsstring.
Variable chunkSize : Z.

Lemma addChunk_contents (content : jsstring) (st : JsonState) :
  contents (chunks (addChunk now content st))
  = contents (chunks st) ++ [content].
Proof. unfold addChunk, contents. cbn. now rewrite map_app. Qed.

(** Each element closes the batch of the element before it when no two
    neighbours fit in [chunkSize] together. *)
Lemma batchItems_one_by_one (items : list (JValue Num)) :
  forall prev st,
    (forall k a b,
        nth_error (prev :: items) k = Some a ->
        nth_error (prev :: items) (S k) = Some b ->
        len (JSON_stringify a) + 2 + (len (JSON_stringify b) + 2) > chunkSize) ->
    contents
      (chunks (batchItems now JSON_stringify chunkSize items [prev]
                 (len (JSON_stringify prev) + 2) st))
    = contents (chunks st)
        ++ List.map (fun item => JSON_stringify (JArray [item])) (prev :: items).
Proof.
  induction items as [|item rest IH]; intros prev st Hadj; cbn [batchItems].
  - cbn. apply addChunk_contents.
  - pose proof (Hadj 0%nat prev item eq_refl eq_refl) as H0.
    destruct (Z.gtb_spec (len (JSON_stringify prev) + 2
                          + len (JSON_stringify item) + 2) chunkSize); [|lia].
    cbn [andb List.length Z.of_nat]. cbn [Z.gtb Z.compare Pos.of_succ_nat app].
    rewrite Z.add_0_l. rewrite IH.
    + rewrite addChunk_contents, <- app_assoc. reflexivity.
    + intros k a b Ha Hb. apply (Hadj (S k) a b); assumption.
Qed.

Lemma batchItems_from_empty (items : list (JValue Num)) (st : JsonState) :
  (forall k a b,
      nth_error items k = Some a ->
      nth_error items (S k) = Some b ->
      len (JSON_stringify a) + 2 + (len (JSON_stringify b) + 2) > chunkSize) ->
  contents (chunks (batchItems now JSON_stringify chunkSize items [] 0 st))
  = contents (chunks st)
      ++ List.map (fun item => JSON_stringify (JArray [item])) items.
Proof.
  intros Hadj. destruct items as [|item rest]; cbn [batchItems].
  - cbn. now rewrite app_nil_r.
  - cbn [List.length Z.of_nat Z.gtb Z.compare]. rewrite andb_false_r.
    cbn [app]. rewrite Z.add_0_l. now apply batchItems_one_by_one.
Qed.

End JsonArray.

(** C6. For a text that parses as a JSON array whose serialization is
    longer than [chunkSize], when [chunkSize] holds the serialization of
    any one element with its overhead of 2 but not those of two
    neighbouring elements, [generateJsonChunks] returns one chunk per
    element, in the order of the array, and the content of each is the
    serialization of the array that holds that element alone. *)
Theorem json_array_one_element_per_chunk :
  forall (Num : Type) (now : nat -> Z)
         (JSON_parse : jsstring -> JsError + JValue Num)
         (JSON_stringify : JValue Num -> jsstring)
         (fuel : nat) (text : jsstring) (config : ChunkingConfig)
         (ticks : nat) (items : list (JValue Num)),
    JSON_parse text = inr (JArray items) ->
    len (JSON_stringify (JArray items)) > chunkSize config ->
    (forall item, In item items ->
                  len (JSON_stringify item) + 2 <= chunkSize config) ->
    (forall k a b,
        nth_error items k = Some a ->
        nth_error items (S k) = Some b ->
        len (JSON_stringify a) + 2 + (len (JSON_stringify b) + 2)
          > chunkSize config) ->
    exists cs t,
      generateJsonChunks now JSON_parse JSON_stringify fuel text config ticks
      = Ret (cs, t)
      /\ contents cs
         = List.map (fun item => JSON_stringify (JArray [item])) items.
Proof.
  intros Num now JSON_parse JSON_stringify fuel text config ticks items
    Hparse Hbig _ Hadj.
  unfold generateJsonChunks. rewrite Hparse. unfold processValue.
  destruct (Z.leb_spec (len (JSON_stringify (JArray items))) (chunkSize config));
    [lia|].
  cbn [bind]. eexists. eexists. split; [reflexivity|].
  now rewrite batchItems_from_empty.
Qed.

Lemma json_array_one_element_per_chunk_witness :
  exists cs t,
    generateJsonChunks (Platform.frozen 0)
      (Platform.parseOnly (lit "[1,2,3]")
         (JArray [JNumber 1; JNumber 2; JNumber 3]))
      Platform.stringify 0 (lit "[1,2,3]")
      {| chunkSize := 3; chunkOverlap := 0; separators := [] |} 0%nat
    = Ret (cs, t)
    /\ contents cs
       = List.map (fun item => Platform.stringify (JArray [item]))
           [JNumber 1; JNumber 2; JNumber 3].
Proof.
  apply (json_array_one_element_per_chunk Z (Platform.frozen 0)
           (Platform.parseOnly (lit "[1,2,3]")
              (JArray [JNumber 1; JNumber 2; JNumber 3]))
           Platform.stringify 0 (lit "[1,2,3]")
           {| chunkSize := 3; chunkOverlap := 0; separators := [] |} 0%nat
           [JNumber 1; JNumber 2; JNumber 3]).
  - reflexivity.
  - vm_compute. reflexivity.
  - intros item [<-|[<-|[<-|[]]]]; vm_compute; discriminate.
  - intros [|[|[|k]]] a b Ha Hb; cbn in Ha, Hb;
      try discriminate; injection Ha as <-; injection Hb as <-;
      vm_compute; reflexivity.
Defined.

(** ** Nothing is thrown by the recursive chunker *)

Section NoThrow.

Lemma hardSplit_no_throw (fuel : nat) (txt : jsstring)
    (chunkSize chunkOverlap : Z) :
  forall i e, hardSplit fuel txt chunkSize chunkOverlap i <> Throw e.
Proof.
  induction fuel as [|fuel IH]; intros i e; cbn [hardSplit];
    destruct (i <? len txt); try discriminate.
  specialize (IH (i + (chunkSize - chunkOverlap)) e).
  destruct (hardSplit fuel txt chunkSize chunkOverlap
              (i + (chunkSize - chunkOverlap))); cbn; congruence.
Qed.

Lemma forEach_no_throw (f : jsstring -> Res (list jsstring))
    (l : list jsstring) :
  (forall p e, f p <> Throw e) -> forall e, forEach f l <> Throw e.
Proof.
  intros Hf. induction l as [|p l IH]; intros e; cbn [forEach];
    [discriminate|].
  change ((fix go (l0 : list jsstring) : Res (list jsstring) :=
             match l0 with
             | [] => Ret []
             | p0 :: l' => segs <- f p0;; rest <- go l';; Ret (segs ++ rest)
             end) l) with (forEach f l).
  specialize (Hf p e). specialize (IH e).
  destruct (f p); cbn; try congruence.
  destruct (forEach f l); cbn; congruence.
Qed.

Lemma recurse_no_throw (fuel : nat) (chunkSize chunkOverlap : Z)
    (seps : list jsstring) :
  forall txt e, recurse fuel chunkSize chunkOverlap seps txt <> Throw e.
Proof.
  induction seps as [|sep nextSeps IH]; intros txt e; cbn [recurse];
    destruct (len txt <=? chunkSize); try discriminate.
  - apply hardSplit_no_throw.
  - destruct (includes txt sep); [|apply IH].
    apply forEach_no_throw. exact IH.
Qed.

Lemma generateRecursiveChunks_no_throw (now : nat -> Z) (fuel : nat)
    (text : jsstring) (config : ChunkingConfig) (ticks : nat) (e : JsError) :
  generateRecursiveChunks now fuel text config ticks <> Throw e.
Proof.
  unfold generateRecursiveChunks.
  pose proof (recurse_no_throw fuel (chunkSize config) (chunkOverlap config)
                (separators config) text e).
  destruct (recurse fuel _ _ _ text); cbn; congruence.
Qed.

End NoThrow.

(** C7. For every text that [JSON.parse] rejects and every config,
    [generateJsonChunks] ends exactly as [generateRecursiveChunks] does
    on the same text and config, with the same chunks when it returns,
    and it throws nothing: the error of the parser does not reach the
    caller. *)
Theorem json_falls_back_to_recursive :
  forall (Num : Type) (now : nat -> Z)
         (JSON_parse : jsstring -> JsError + JValue Num)
         (JSON_stringify : JValue Num -> jsstring)
         (fuel : nat) (text : jsstring) (config : ChunkingConfig)
         (ticks : nat) (err : JsError),
    JSON_parse text = inl err ->
    generateJsonChunks now JSON_parse JSON_stringify fuel text config ticks
    = generateRecursiveChunks now fuel text config ticks
    /\ forall e,
         generateJsonChunks now JSON_parse JSON_stringify fuel text config ticks
         <> Throw e.
Proof.
  intros Num now JSON_parse JSON_stringify fuel text config ticks err Hparse.
  unfold generateJsonChunks. rewrite Hparse.
  split; [reflexivity|]. intros e. apply generateRecursiveChunks_no_throw.
Qed.

Lemma json_falls_back_to_recursive_witness :
  generateJsonChunks (Platform.frozen 0) Platform.parseNothing
    Platform.stringify 8 (lit "not json")
    {| chunkSize := 4; chunkOverlap := 0; separators := [lit " "] |} 0%nat
  = generateRecursiveChunks (Platform.frozen 0) 8 (lit "not json")
      {| chunkSize := 4; chunkOverlap := 0; separators := [lit " "] |} 0%nat
  /\ forall e,
       generateJsonChunks (Platform.frozen 0) Platform.parseNothing
         Platform.stringify 8 (lit "not json")
         {| chunkSize := 4; chunkOverlap := 0; separators := [lit " "] |} 0%nat
       <> Throw e.
Proof.
  apply (json_falls_back_to_recursive Z (Platform.frozen 0)
           Platform.parseNothing Platform.stringify 8 (lit "not json")
           {| chunkSize := 4; chunkOverlap := 0; separators := [lit " "] |}
           0%nat SyntaxError).
  reflexivity.
Defined.

(** ** The clock reaches the [id] fields only *)

Section TwoClocks.

Variables now1 now2 : nat -> Z.

Lemma fixedLoop_payloads (text : jsstring) (chunkSize step : Z) (fuel : nat) :
  forall start index t1 t2,
    payloads (fixedLoop now1 fuel text chunkSize step start index t1)
    = payloads (fixedLoop now2 fuel text chunkSize step start index t2).
Proof.
  induction fuel as [|fuel IH]; intros start index t1 t2; cbn [fixedLoop];
    destruct (start <? len text); try reflexivity.
  specialize (IH (start + step) (index + 1) (S t1) (S t2)).
  destruct (fixedLoop now1 fuel text chunkSize step (start + step) (index + 1)
              (S t1)) as [[cs1 u1]| |];
    destruct (fixedLoop now2 fuel text chunkSize step (start + step)
                (index + 1) (S t2)) as [[cs2 u2]| |];
    cbn [payloads returned bind] in *; try discriminate; try reflexivity;
    try exact IH.
  injection IH as IH. cbn [List.map]. now rewrite IH.
Qed.

Lemma recChunks_payloads (cs : list jsstring) :
  forall i t1 t2,
    List.map payload (fst (recChunks now1 cs i t1))
    = List.map payload (fst (recChunks now2 cs i t2)).
Proof.
  induction cs as [|c cs IH]; intros i t1 t2; cbn [recChunks]; [reflexivity|].
  specialize (IH (i + 1) (S t1) (S t2)).
  destruct (recChunks now1 cs (i + 1) (S t1)) as [r1 u1].
  destruct (recChunks now2 cs (i + 1) (S t2)) as [r2 u2].
  cbn in *. now rewrite IH.
Qed.

Lemma generateRecursiveChunks_payloads (fuel : nat) (text : jsstring)
    (config : ChunkingConfig) (t1 t2 : nat) :
  payloads (generateRecursiveChunks now1 fuel text config t1)
  = payloads (generateRecursiveChunks now2 fuel text config t2).
Proof.
  unfold generateRecursiveChunks.
  destruct (recurse fuel _ _ _ text) as [segs| |]; try reflexivity.
  cbn [bind].
  pose proof (recChunks_payloads
                (List.filter notBlank
                   (pack (chunkSize config) (chunkOverlap config) segs []))
                0 t1 t2) as H.
  destruct (recChunks now1 _ 0 t1) as [r1 u1].
  destruct (recChunks now2 _ 0 t2) as [r2 u2].
  cbn in *. now rewrite H.
Qed.

Context {Num : Type}.
Variable JSON_stringify : JValue Num -> jsstring.

Lemma addChunk_view (content : jsstring) (s1 s2 : JsonState) :
  stateView s1 = stateView s2 ->
  stateView (addChunk now1 content s1) = stateView (addChunk now2 content s2).
Proof.
  unfold stateView, addChunk. cbn. intros H. injection H as Hc Hi.
  rewrite !map_app, Hc, Hi. reflexivity.
Qed.

Lemma batchItems_view (chunkSize : Z) (items : list (JValue Num)) :
  forall batch size s1 s2,
    stateView s1 = stateView s2 ->
    stateView (batchItems now1 JSON_stringify chunkSize items batch size s1)
    = stateView (batchItems now2 JSON_stringify chunkSize items batch size s2).
Proof.
  induction items as [|item rest IH]; intros batch size s1 s2 H;
    cbn [batchItems].
  - destruct (Z.of_nat (List.length batch) >? 0);
      [now apply addChunk_view | assumption].
  - destruct ((size + len (JSON_stringify item) + 2 >? chunkSize)
              && (Z.of_nat (List.length batch) >? 0));
      apply IH; [now apply addChunk_view | assumption].
Qed.

Lemma batchProps_view (chunkSize : Z) (entries : list (jsstring * JValue Num)) :
  forall obj size s1 s2,
    stateView s1 = stateView s2 ->
    stateView (batchProps now1 JSON_stringify chunkSize entries obj size s1)
    = stateView (batchProps now2 JSON_stringify chunkSize entries obj size s2).
Proof.
  induction entries as [|[k v] rest IH]; intros obj size s1 s2 H;
    cbn [batchProps].
  - destruct (Z.of_nat (List.length obj) >? 0);
      [now apply addChunk_view | assumption].
  - match goal with
    | |- context [if ?b then _ else _] => destruct b
    end; apply IH; [now apply addChunk_view | assumption].
Qed.

Lemma payload_contents (cs1 cs2 : list Chunk.t) :
  List.map payload cs1 = List.map payload cs2 -> contents cs1 = contents cs2.
Proof.
  intros H. unfold contents.
  assert (E : forall cs, List.map Chunk.content cs
                         = List.map (fun p => fst (fst (fst p)))
                             (List.map payload cs))
    by (intros cs; rewrite map_map; reflexivity).
  now rewrite !E, H.
Qed.

Lemma readd_view (cs1 : list Chunk.t) :
  forall cs2 s1 s2,
    contents cs1 = contents cs2 ->
    stateView s1 = stateView s2 ->
    stateView (fold_left (fun s c => addChunk now1 (Chunk.content c) s) cs1 s1)
    = stateView (fold_left (fun s c => addChunk now2 (Chunk.content c) s) cs2 s2).
Proof.
  induction cs1 as [|c1 cs1 IH]; intros [|c2 cs2] s1 s2 Hc H;
    try discriminate; cbn [fold_left]; [assumption|].
  cbn in Hc. injection Hc as Hc0 Hc. apply IH; [exact Hc|].
  rewrite Hc0. now apply addChunk_view.
Qed.

Lemma processValue_view (fuel : nat) (config : ChunkingConfig)
    (value : JValue Num) (s1 s2 : JsonState) :
  stateView s1 = stateView s2 ->
  (st <- processValue now1 JSON_stringify fuel config value s1 ;;
   Ret (stateView st))
  = (st <- processValue now2 JSON_stringify fuel config value s2 ;;
     Ret (stateView st)).
Proof.
  intros H. unfold processValue.
  destruct (len (JSON_stringify value) <=? chunkSize config).
  { cbn. f_equal. now apply addChunk_view. }
  assert (Hscalar :
    (st <- ('(rc, t) <- generateRecursiveChunks now1 fuel
                          (JSON_stringify value) config (ticks s1) ;;
            Ret (fold_left (fun s c => addChunk now1 (Chunk.content c) s) rc
                   {| chunks := chunks s1; index := index s1; ticks := t |})) ;;
     Ret (stateView st))
    = (st <- ('(rc, t) <- generateRecursiveChunks now2 fuel
                            (JSON_stringify value) config (ticks s2) ;;
              Ret (fold_left (fun s c => addChunk now2 (Chunk.content c) s) rc
                     {| chunks := chunks s2; index := index s2; ticks := t |})) ;;
       Ret (stateView st))).
  { pose proof (generateRecursiveChunks_payloads fuel (JSON_stringify value)
                  config (ticks s1) (ticks s2)) as HR.
    destruct (generateRecursiveChunks now1 fuel _ config (ticks s1))
      as [[rc1 u1]| |];
      destruct (generateRecursiveChunks now2 fuel _ config (ticks s2))
        as [[rc2 u2]| |]; cbn in HR |- *; try congruence.
    f_equal. apply readd_view; [|exact H].
    apply payload_contents. congruence. }
  destruct value; try exact Hscalar; cbn [bind]; f_equal.
  - now apply batchItems_view.
  - now apply batchProps_view.
Qed.

Variable JSON_parse : jsstring -> JsError + JValue Num.

Lemma generateJsonChunks_payloads (fuel : nat) (text : jsstring)
    (config : ChunkingConfig) (t1 t2 : nat) :
  payloads (generateJsonChunks now1 JSON_parse JSON_stringify fuel text config t1)
  = payloads (generateJsonChunks now2 JSON_parse JSON_stringify fuel text config t2).
Proof.
  unfold generateJsonChunks.
  destruct (JSON_parse text) as [e|data];
    [apply generateRecursiveChunks_payloads|].
  pose proof (processValue_view fuel config data
                {| chunks := []; index := 0; ticks := t1 |}
                {| chunks := []; index := 0; ticks := t2 |} eq_refl) as H.
  destruct (processValue now1 JSON_stringify fuel config data _) as [r1| |];
    destruct (processValue now2 JSON_stringify fuel config data _) as [r2| |];
    cbn in H |- *; try congruence.
  unfold stateView in H. congruence.
Qed.

End TwoClocks.

(** The clock does not reach the content, the index, the length or the
    token count: two calls of the same chunker on the same text with the
    same config end in the same way and, when they return, return
    sequences of chunks that agree on these four fields at every
    position, whatever the clock shows during each call. *)
Lemma chunkers_payloads_agree :
  forall (Num : Type) (now1 now2 : nat -> Z)
         (JSON_parse : jsstring -> JsError + JValue Num)
         (JSON_stringify : JValue Num -> jsstring)
         (fuel : nat) (text : jsstring) (config : ChunkingConfig)
         (t1 t2 : nat),
    payloads (generateFixedSizeChunks now1 fuel text config t1)
    = payloads (generateFixedSizeChunks now2 fuel text config t2)
    /\ payloads (generateRecursiveChunks now1 fuel text config t1)
       = payloads (generateRecursiveChunks now2 fuel text config t2)
    /\ payloads (generateMarkdownChunks now1 fuel text config t1)
       = payloads (generateMarkdownChunks now2 fuel text config t2)
    /\ payloads (generateJsonChunks now1 JSON_parse JSON_stringify
                   fuel text config t1)
       = payloads (generateJsonChunks now2 JSON_parse JSON_stringify
                     fuel text config t2).
Proof.
  intros Num now1 now2 JSON_parse JSON_stringify fuel text config t1 t2.
  split; [|split; [|split]].
  - unfold generateFixedSizeChunks.
    destruct (chunkSize config <=? 0); [reflexivity|].
    apply fixedLoop_payloads.
  - apply generateRecursiveChunks_payloads.
  - apply generateRecursiveChunks_payloads.
  - apply generateJsonChunks_payloads.
Qed.

(** C8 as it is stated fails on the [id] fields: the same text and config
    give the fixed-window chunker a chunk with id "chunk-0-0" when the
    clock shows 0 and one with id "chunk-0-1" when it shows 1. *)
Lemma same_input_different_ids :
  exists c1 c2,
    returned (generateFixedSizeChunks (Platform.frozen 0) 2 (lit "ab")
                {| chunkSize := 2; chunkOverlap := 0; separators := [] |} 0%nat)
    = Ret [c1]
    /\ returned (generateFixedSizeChunks (Platform.frozen 1) 2 (lit "ab")
                   {| chunkSize := 2; chunkOverlap := 0; separators := [] |} 0%nat)
       = Ret [c2]
    /\ Chunk.id c1 = lit "chunk-0-0"
    /\ Chunk.id c2 = lit "chunk-0-1"
    /\ c1 <> c2.
Proof.
  eexists. eexists. split; [vm_compute; reflexivity|].
  split; [vm_compute; reflexivity|].
  split; [reflexivity|]. split; [reflexivity | discriminate].
Qed.

(** ** The [length] field *)

Section LengthField.

(** Induction that follows [codePointCount]: two code units at a time. *)
Lemma pairwise_ind (P : jsstring -> Prop) :
  P [] ->
  (forall a, P [a]) ->
  (forall a b s, P s -> P (b :: s) -> P (a :: b :: s)) ->
  forall s, P s.
Proof.
  intros H0 H1 H2 s.
  enough (H : P s /\ forall a, P (a :: s)) by apply H.
  induction s as [|b s [IHs IHc]]; split; auto.
Qed.

Lemma codePointCount_pair (a b : unit16) (s : jsstring) :
  codePointCount (a :: b :: s)
  = if isHighSurrogate a && isLowSurrogate b
    then 1 + codePointCount s
    else 1 + codePointCount (b :: s).
Proof. reflexivity. Qed.

Lemma codePointCount_le (s : jsstring) : codePointCount s <= len s.
Proof.
  induction s as [| a | a b s IH1 IH2] using pairwise_ind;
    [cbn; lia | cbn; lia |].
  rewrite codePointCount_pair, (len_cons a). rewrite len_cons in *.
  destruct (isHighSurrogate a && isLowSurrogate b); lia.
Qed.

Lemma codePointCount_no_surrogate (s : jsstring) :
  forallb (fun u => negb (isHighSurrogate u)) s = true ->
  codePointCount s = len s.
Proof.
  induction s as [| a | a b s IH1 IH2] using pairwise_ind;
    [reflexivity | reflexivity |].
  intros H. cbn [forallb] in H. apply andb_prop in H as [Ha H].
  rewrite codePointCount_pair. apply negb_true_iff in Ha. rewrite Ha.
  cbn [andb]. rewrite IH2 by exact H. now rewrite (len_cons a).
Qed.

Variable now : nat -> Z.

Lemma fixedLoop_length_field (text : jsstring) (chunkSize step : Z)
    (fuel : nat) (start index : Z) (ticks : nat) (cs : list Chunk.t) (t : nat) :
  fixedLoop now fuel text chunkSize step start index ticks = Ret (cs, t) ->
  forall c, In c cs -> Chunk.length c = len (Chunk.content c).
Proof.
  intros E c Hc. apply In_nth_error in Hc as [k Hk].
  now destruct (fixedLoop_nth now text chunkSize step fuel _ _ _ _ _ E k c Hk)
    as (_ & _ & H & _).
Qed.

Lemma generateRecursiveChunks_length_field (fuel : nat) (text : jsstring)
    (config : ChunkingConfig) (ticks : nat) (cs : list Chunk.t) (t : nat) :
  generateRecursiveChunks now fuel text config ticks = Ret (cs, t) ->
  forall c, In c cs -> Chunk.length c = len (Chunk.content c).
Proof.
  unfold generateRecursiveChunks.
  destruct (recurse fuel _ _ _ text) as [segs| |]; cbn [bind];
    try discriminate.
  intros E c Hc. injection E as E.
  apply (recChunks_length_field now
           (List.filter notBlank
              (pack (chunkSize config) (chunkOverlap config) segs []))
           0 ticks c).
  now rewrite E.
Qed.

Context {Num : Type}.
Variable JSON_stringify : JValue Num -> jsstring.

Lemma addChunk_measured (content : jsstring) (st : JsonState) :
  measured st -> measured (addChunk now content st).
Proof.
  intros H c Hc. unfold addChunk in Hc. cbn in Hc.
  apply in_app_or in Hc as [Hc|[<-|[]]]; [now apply H | reflexivity].
Qed.

Lemma batchItems_measured (chunkSize : Z) (items : list (JValue Num)) :
  forall batch size st,
    measured st ->
    measured (batchItems now JSON_stringify chunkSize items batch size st).
Proof.
  induction items as [|item rest IH]; intros batch size st H;
    cbn [batchItems].
  - destruct (Z.of_nat (List.length batch) >? 0);
      [now apply addChunk_measured | assumption].
  - destruct ((size + len (JSON_stringify item) + 2 >? chunkSize)
              && (Z.of_nat (List.length batch) >? 0));
      apply IH; [now apply addChunk_measured | assumption].
Qed.

Lemma batchProps_measured (chunkSize : Z)
    (entries : list (jsstring * JValue Num)) :
  forall obj size st,
    measured st ->
    measured (batchProps now JSON_stringify chunkSize entries obj size st).
Proof.
  induction entries as [|[k v] rest IH]; intros obj size st H;
    cbn [batchProps].
  - destruct (Z.of_nat (List.length obj) >? 0);
      [now apply addChunk_measured | assumption].
  - match goal with
    | |- context [if ?b then _ else _] => destruct b
    end; apply IH; [now apply addChunk_measured | assumption].
Qed.

Lemma readd_measured (rc : list Chunk.t) :
  forall st,
    measured st ->
    measured (fold_left (fun s c => addChunk now (Chunk.content c) s) rc st).
Proof.
  induction rc as [|c rc IH]; intros st H; cbn [fold_left]; [assumption|].
  apply IH. now apply addChunk_measured.
Qed.

Lemma processValue_measured (fuel : nat) (config : ChunkingConfig)
    (value : JValue Num) (st st' : JsonState) :
  measured st ->
  processValue now JSON_stringify fuel config value st = Ret st' ->
  measured st'.
Proof.
  intros H. unfold processValue.
  destruct (len (JSON_stringify value) <=? chunkSize config).
  { intros E. injection E as <-. now apply addChunk_measured. }
  assert (Hscalar :
    ('(rc, t) <- generateRecursiveChunks now fuel (JSON_stringify value)
                   config (ticks st) ;;
     Ret (fold_left (fun s c => addChunk now (Chunk.content c) s) rc
            {| chunks := chunks st; index := index st; ticks := t |}))
    = Ret st' -> measured st').
  { destruct (generateRecursiveChunks now fuel _ config (ticks st))
      as [[rc u]| |]; cbn [bind]; try discriminate.
    intros E. injection E as <-. apply readd_measured. exact H. }
  destruct value; try exact Hscalar; intros E; injection E as <-.
  - now apply batchItems_measured.
  - now apply batchProps_measured.
Qed.

Variable JSON_parse : jsstring -> JsError + JValue Num.

Lemma generateJsonChunks_length_field (fuel : nat) (text : jsstring)
    (config : ChunkingConfig) (ticks : nat) (cs : list Chunk.t) (t : nat) :
  generateJsonChunks now JSON_parse JSON_stringify fuel text config ticks
  = Ret (cs, t) ->
  forall c, In c cs -> Chunk.length c = len (Chunk.content c).
Proof.
  unfold generateJsonChunks.
  destruct (JSON_parse text) as [e|data];
    [apply generateRecursiveChunks_length_field|].
  destruct (processValue now JSON_stringify fuel config data _)
    as [st'| |] eqn:E; cbn [bind]; try discriminate.
  intros R. injection R as <- <-.
  assert (H0 : measured {| chunks := []; index := 0; ticks := ticks |})
    by (intros c []).
  exact (processValue_measured _ _ _ _ _ H0 E).
Qed.

End LengthField.

(** C9, as the code has it. For every chunk returned by the fixed,
    recursive, markdown or JSON chunker, the [length] field is the number
    of UTF-16 code units of [content] (what [content.length] is). That
    number is never below the number of code points of [content], and
    equals it when [content] holds no high surrogate, in particular no
    character outside the Basic Multilingual Plane. *)
Theorem chunk_length_counts_code_units :
  forall (Num : Type) (now : nat -> Z)
         (JSON_parse : jsstring -> JsError + JValue Num)
         (JSON_stringify : JValue Num -> jsstring)
         (fuel : nat) (text : jsstring) (config : ChunkingConfig)
         (ticks : nat) (cs : list Chunk.t) (t : nat),
    generateFixedSizeChunks now fuel text config ticks = Ret (cs, t)
    \/ generateRecursiveChunks now fuel text config ticks = Ret (cs, t)
    \/ generateMarkdownChunks now fuel text config ticks = Ret (cs, t)
    \/ generateJsonChunks now JSON_parse JSON_stringify fuel text config ticks
       = Ret (cs, t) ->
    forall c,
      In c cs ->
      Chunk.length c = len (Chunk.content c)
      /\ codePointCount (Chunk.content c) <= Chunk.length c
      /\ (forallb (fun u => negb (isHighSurrogate u)) (Chunk.content c) = true ->
          Chunk.length c = codePointCount (Chunk.content c)).
Proof.
  intros Num now JSON_parse JSON_stringify fuel text config ticks cs t H c Hc.
  assert (E : Chunk.length c = len (Chunk.content c)).
  { destruct H as [H|[H|[H|H]]].
    - unfold generateFixedSizeChunks in H.
      destruct (chunkSize config <=? 0).
      + injection H as <- _. destruct Hc.
      + now apply (fixedLoop_length_field now _ _ _ _ _ _ _ _ _ H).
    - now apply (generateRecursiveChunks_length_field now _ _ _ _ _ _ H).
    - now apply (generateRecursiveChunks_length_field now _ _ _ _ _ _ H).
    - now apply (generateJsonChunks_length_field now JSON_stringify JSON_parse
                   _ _ _ _ _ _ H). }
  rewrite E. split; [reflexivity|]. split; [apply codePointCount_le|].
  intros Hbmp. symmetry. now apply codePointCount_no_surrogate.
Qed.

Lemma chunk_length_counts_code_units_witness :
  Chunk.length (Chunk.mk (lit "chunk-0-0") [0xD83D; 0xDE00]%N 0 2 1)
  = len (Chunk.content (Chunk.mk (lit "chunk-0-0") [0xD83D; 0xDE00]%N 0 2 1))
  /\ codePointCount
       (Chunk.content (Chunk.mk (lit "chunk-0-0") [0xD83D; 0xDE00]%N 0 2 1))
     <= Chunk.length (Chunk.mk (lit "chunk-0-0") [0xD83D; 0xDE00]%N 0 2 1)
  /\ (forallb (fun u => negb (isHighSurrogate u))
         (Chunk.content (Chunk.mk (lit "chunk-0-0") [0xD83D; 0xDE00]%N 0 2 1))
       = true ->
       Chunk.length (Chunk.mk (lit "chunk-0-0") [0xD83D; 0xDE00]%N 0 2 1)
       = codePointCount
           (Chunk.content
              (Chunk.mk (lit "chunk-0-0") [0xD83D; 0xDE00]%N 0 2 1))).
Proof.
  apply (chunk_length_counts_code_units Z (Platform.frozen 0)
           Platform.parseNothing Platform.stringify 2 [0xD83D; 0xDE00]%N
           {| chunkSize := 10; chunkOverlap := 0; separators := [] |} 0%nat
           [Chunk.mk (lit "chunk-0-0") [0xD83D; 0xDE00]%N 0 2 1] 1%nat).
  - left. vm_compute. reflexivity.
  - left. reflexivity.
Defined.

(** C9 as it is stated fails on a character outside the Basic
    Multilingual Plane: U+1F600 is the surrogate pair D83D DE00, and the
    chunk the fixed-window chunker makes of it has [length] 2 for one
    code point. *)
Lemma astral_length_is_two :
  exists c t,
    generateFixedSizeChunks (Platform.frozen 0) 2 [0xD83D; 0xDE00]%N
      {| chunkSize := 10; chunkOverlap := 0; separators := [] |} 0%nat
    = Ret ([c], t)
    /\ Chunk.content c = [0xD83D; 0xDE00]%N
    /\ codePointCount (Chunk.content c) = 1
    /\ Chunk.length c = 2
    /\ Chunk.length c <> codePointCount (Chunk.content c).
Proof.
  eexists. eexists. split; [vm_compute; reflexivity|].
  split; [reflexivity|]. split; [reflexivity|].
  split; [reflexivity | discriminate].
Qed.


(** * Further properties of the chunkers *)

(** ** generateFixedSizeChunks, for every config *)

Section FixedWindowMore.

Variable now : nat -> Z.

(** A window that reaches past the end is cut by [slice] itself. *)
Lemma slice_min_end (text : jsstring) (s c : Z) :
  0 <= s -> 0 <= c ->
  slice text s (Z.min (s + c) (len text)) = slice text s (s + c).
Proof.
  intros Hs Hc. pose proof (len_nonneg text) as Hl.
  rewrite !slice_nonneg by lia.
  destruct (Z.le_gt_cases (s + c) (len text)) as [H|H].
  - now rewrite Z.min_l by lia.
  - rewrite Z.min_r by lia.
    rewrite !firstn_all2; try reflexivity; rewrite length_skipn;
      unfold len in *; lia.
Qed.

Lemma fixedLoop_tokenCount (text : jsstring) (chunkSize step : Z) (fuel : nat) :
  forall start index ticks cs t,
    fixedLoop now fuel text chunkSize step start index ticks = Ret (cs, t) ->
    forall c, In c cs ->
              Chunk.tokenCount c = estimateTokenCount (Chunk.content c).
Proof.
  induction fuel as [|fuel IH]; intros start index ticks cs t E c Hc;
    cbn [fixedLoop] in E; destruct (start <? len text);
    try discriminate; try (injection E as <- <-; destruct Hc).
  destruct (fixedLoop now fuel text chunkSize step (start + step) (index + 1)
              (S ticks)) as [[cs' t']| |] eqn:E'; cbn in E; try discriminate.
  injection E as <- <-. destruct Hc as [<-|Hc]; [reflexivity|].
  exact (IH _ _ _ _ _ E' c Hc).
Qed.

(** The step of the loop, as the function computes it. *)
Lemma fixed_step_pos (config : ChunkingConfig) :
  0 < chunkSize config ->
  0 < chunkSize config
      - Z.min (chunkOverlap config) (chunkSize config - 1).
Proof. lia. Qed.

End FixedWindowMore.





(** X3. With [chunkSize > 0] and any [chunkOverlap] at all, no chunk
    returned by [generateFixedSizeChunks] is empty and none is longer
    than [chunkSize]. *)
Theorem fixed_chunk_length_bounds :
  forall (now : nat -> Z) (fuel : nat) (text : jsstring)
         (config : ChunkingConfig) (ticks : nat)
         (cs : list Chunk.t) (t : nat),
    0 < chunkSize config ->
    generateFixedSizeChunks now fuel text config ticks = Ret (cs, t) ->
    forall c, In c cs ->
              1 <= Chunk.length c <= chunkSize config
              /\ Chunk.content c <> [].
Proof.
  intros now fuel text config ticks cs t Hs R c Hc.
  destruct (generateFixedSizeChunks_loop now fuel text config ticks Hs)
    as [E Hstep]. cbv zeta in E. rewrite E in R.
  apply In_nth_error in Hc as [k Hk].
  destruct (fixedLoop_nth now text (chunkSize config) _ fuel _ _ _ _ _ R k c Hk)
    as (Hlt & Hcont & Hlen & _). cbn in Hlt, Hcont.
  pose proof (len_nonneg text) as Hl.
  assert (Hb : 1 <= Chunk.length c <= chunkSize config).
  { rewrite Hlen, Hcont. rewrite len_slice_nonneg by nia. nia. }
  split; [exact Hb|]. intros Hnil. rewrite Hlen, Hnil in Hb. cbn in Hb. lia.
Qed.

Lemma fixed_chunk_length_bounds_witness :
  1 <= Chunk.length (Chunk.mk (lit "chunk-2-0") (lit "c") 2 1 1) <= 2
  /\ Chunk.content (Chunk.mk (lit "chunk-2-0") (lit "c") 2 1 1) <> [].
Proof.
  apply (fixed_chunk_length_bounds (Platform.frozen 0) 3 (lit "abc")
           {| chunkSize := 2; chunkOverlap := 9; separators := [] |} 0%nat
           [Chunk.mk (lit "chunk-0-0") (lit "ab") 0 2 1;
            Chunk.mk (lit "chunk-1-0") (lit "bc") 1 2 1;
            Chunk.mk (lit "chunk-2-0") (lit "c") 2 1 1] 3%nat).
  - cbn. lia.
  - vm_compute. reflexivity.
  - right. right. left. reflexivity.
Defined.



(** ** generateRecursiveChunks: what it returns and how large *)

Section RecursiveMore.

(** A window of [c] characters, wherever it starts, holds at most [c]. *)
Lemma len_slice_window (s : jsstring) (a c : Z) :
  0 <= c -> len (slice s a (a + c)) <= c.
Proof.
  intros Hc. unfold slice, relIndex. rewrite len_firstn, len_skipn.
  pose proof (len_nonneg s).
  destruct (Z.ltb_spec a 0); destruct (Z.ltb_spec (a + c) 0); lia.
Qed.

Lemma hardSplit_bounded (chunkSize chunkOverlap : Z) (txt : jsstring)
    (fuel : nat) :
  0 <= chunkSize ->
  forall i segs,
    hardSplit fuel txt chunkSize chunkOverlap i = Ret segs ->
    Forall (fun seg => len seg <= chunkSize) segs.
Proof.
  intros Hc. induction fuel as [|fuel IH]; intros i segs E;
    cbn [hardSplit] in E; destruct (i <? len txt);
    try discriminate; try (injection E as <-; constructor).
  destruct (hardSplit fuel txt chunkSize chunkOverlap
              (i + (chunkSize - chunkOverlap))) as [rest| |] eqn:E';
    cbn in E; try discriminate.
  injection E as <-. constructor; [now apply len_slice_window|].
  exact (IH _ _ E').
Qed.

(** What holds of the segments of every piece holds of the segments of
    all the pieces. *)
Lemma forEach_Forall (P : jsstring -> Prop)
    (f : jsstring -> Res (list jsstring)) (l : list jsstring) :
  (forall p s, In p l -> f p = Ret s -> Forall P s) ->
  forall segs, forEach f l = Ret segs -> Forall P segs.
Proof.
  induction l as [|p l IH]; intros H segs E; cbn [forEach] in E.
  - injection E as <-. constructor.
  - change ((fix go (l0 : list jsstring) : Res (list jsstring) :=
               match l0 with
               | [] => Ret []
               | p0 :: l' => segs <- f p0;; rest <- go l';; Ret (segs ++ rest)
               end) l) with (forEach f l) in E.
    destruct (f p) as [s1| |] eqn:E1; cbn in E; try discriminate.
    destruct (forEach f l) as [s2| |] eqn:E2; cbn in E; try discriminate.
    injection E as <-. apply Forall_app. split.
    + exact (H p s1 (or_introl eq_refl) E1).
    + apply IH; [|reflexivity]. intros q s Hq. apply H. now right.
Qed.

(** Every segment of Phase A fits in [chunkSize]. *)
Lemma recurse_bounded (fuel : nat) (chunkSize chunkOverlap : Z)
    (seps : list jsstring) :
  0 <= chunkSize ->
  forall txt segs,
    recurse fuel chunkSize chunkOverlap seps txt = Ret segs ->
    Forall (fun seg => len seg <= chunkSize) segs.
Proof.
  intros Hc. induction seps as [|sep nextSeps IH]; intros txt segs E;
    cbn [recurse] in E;
    destruct (Z.leb_spec (len txt) chunkSize);
    try (injection E as <-; repeat constructor; assumption).
  - now apply (hardSplit_bounded chunkSize chunkOverlap txt fuel Hc 0).
  - destruct (includes txt sep); [|now apply (IH txt)].
    apply (forEach_Forall _ _ _ (fun p s _ => IH p s) _ E).
Qed.

(** Every unit of Phase B holds at most [chunkSize + chunkOverlap]
    characters when every segment fits in [chunkSize]. *)
Lemma pack_bounded (chunkSize chunkOverlap : Z) (segments : list jsstring) :
  0 <= chunkSize -> 0 <= chunkOverlap ->
  Forall (fun seg => len seg <= chunkSize) segments ->
  forall currentUnit,
    len currentUnit <= chunkSize + chunkOverlap ->
    Forall (fun u => len u <= chunkSize + chunkOverlap)
      (pack chunkSize chunkOverlap segments currentUnit).
Proof.
  intros Hc Ho Hsegs. induction Hsegs as [|segment rest Hseg _ IH];
    intros cur Hcur; cbn [pack]; pose proof (len_nonneg cur) as Hl.
  - destruct (len cur >? 0); repeat constructor; assumption.
  - pose proof (len_nonneg segment) as Hls.
    destruct (Z.gtb_spec (len cur + len segment) chunkSize) as [Hgt|Hle];
      [destruct (Z.gtb_spec (len cur) 0) as [Hpos|Hz]|].
    + constructor; [assumption|]. apply IH.
      rewrite len_app, sliceFrom_nonneg by lia. rewrite len_skipn. lia.
    + apply IH. rewrite len_app. lia.
    + apply IH. rewrite len_app. lia.
Qed.

End RecursiveMore.

(** X5. A text that fits in [chunkSize] is not split by
    [generateRecursiveChunks], whatever the separators, the overlap and
    the bound on loops: it is returned whole as the only chunk, or as no
    chunk at all when it is blank. *)
Theorem recursive_text_that_fits :
  forall (now : nat -> Z) (fuel : nat) (text : jsstring)
         (config : ChunkingConfig) (ticks : nat),
    len text <= chunkSize config ->
    exists cs t,
      generateRecursiveChunks now fuel text config ticks = Ret (cs, t)
      /\ contents cs = if notBlank text then [text] else [].
Proof.
  intros now fuel text config ticks Hfit.
  assert (EA : recurse fuel (chunkSize config) (chunkOverlap config)
                 (separators config) text = Ret [text]).
  { destruct (separators config); cbn [recurse];
      destruct (Z.leb_spec (len text) (chunkSize config)); try lia;
      reflexivity. }
  unfold generateRecursiveChunks. rewrite EA. cbn [bind pack].
  rewrite len_nil, Z.add_0_l, app_nil_l.
  destruct (Z.gtb_spec (len text) (chunkSize config)); [lia|].
  assert (EU : List.filter notBlank (if len text >? 0 then [text] else [])
               = if notBlank text then [text] else []).
  { destruct (Z.gtb_spec (len text) 0) as [Hpos|Hz]; [reflexivity|].
    rewrite (len_zero_nil text Hz). reflexivity. }
  rewrite EU.
  pose proof (recChunks_contents now (if notBlank text then [text] else [])
                0 ticks) as Hcs.
  destruct (recChunks now _ 0 ticks) as [cs t]. cbn [fst] in Hcs.
  exists cs, t. split; [reflexivity | exact Hcs].
Qed.

Lemma recursive_text_that_fits_witness :
  exists cs t,
    generateRecursiveChunks (Platform.frozen 0) 0 (lit "a b")
      {| chunkSize := 3; chunkOverlap := 5; separators := [lit " "] |} 0%nat
    = Ret (cs, t)
    /\ contents cs = if notBlank (lit "a b") then [lit "a b"] else [].
Proof.
  apply (recursive_text_that_fits (Platform.frozen 0) 0 (lit "a b")
           {| chunkSize := 3; chunkOverlap := 5; separators := [lit " "] |}
           0%nat).
  cbn. lia.
Defined.

(** X6. With [chunkSize >= 0] and [chunkOverlap >= 0], no chunk returned
    by [generateRecursiveChunks] is longer than
    [chunkSize + chunkOverlap]; without overlap no chunk is longer than
    [chunkSize]. *)
Theorem recursive_chunk_length_bound :
  forall (now : nat -> Z) (fuel : nat) (text : jsstring)
         (config : ChunkingConfig) (ticks : nat)
         (cs : list Chunk.t) (t : nat),
    0 <= chunkSize config ->
    0 <= chunkOverlap config ->
    generateRecursiveChunks now fuel text config ticks = Ret (cs, t) ->
    forall c, In c cs ->
              Chunk.length c <= chunkSize config + chunkOverlap config.
Proof.
  intros now fuel text config ticks cs t Hc Ho R c Hin.
  rewrite (generateRecursiveChunks_length_field now fuel text config ticks
             cs t R c Hin).
  unfold generateRecursiveChunks in R.
  destruct (recurse fuel _ _ _ text) as [segs| |] eqn:EA; cbn [bind] in R;
    try discriminate.
  injection R as R.
  pose proof (recChunks_contents now
                (List.filter notBlank
                   (pack (chunkSize config) (chunkOverlap config) segs []))
                0 ticks) as Hcs.
  rewrite R in Hcs. cbn [fst] in Hcs.
  assert (Hu : In (Chunk.content c) (contents cs))
    by (unfold contents; now apply in_map).
  rewrite Hcs in Hu. apply filter_In in Hu as [Hu _].
  pose proof (pack_bounded (chunkSize config) (chunkOverlap config) segs
                Hc Ho (recurse_bounded fuel _ _ _ Hc text segs EA) []
                ltac:(rewrite len_nil; lia)) as Hall.
  rewrite Forall_forall in Hall. now apply Hall.
Qed.

Lemma recursive_chunk_length_bound_witness :
  Chunk.length (Chunk.mk (lit "rec-chunk-1-0") (lit "cdcdef") 1 6 2) <= 4 + 2.
Proof.
  apply (recursive_chunk_length_bound (Platform.frozen 0) 8 (lit "abcdefgh")
           {| chunkSize := 4; chunkOverlap := 2; separators := [] |} 0%nat
           [Chunk.mk (lit "rec-chunk-0-0") (lit "abcd") 0 4 1;
            Chunk.mk (lit "rec-chunk-1-0") (lit "cdcdef") 1 6 2;
            Chunk.mk (lit "rec-chunk-2-0") (lit "efefgh") 2 6 2;
            Chunk.mk (lit "rec-chunk-3-0") (lit "ghgh") 3 4 1] 4%nat).
  - cbn. lia.
  - cbn. lia.
  - vm_compute. reflexivity.
  - right. left. reflexivity.
Defined.

(** ** generateRecursiveChunks: nothing but the text *)

Section Verbatim.

Lemma slice_substring (s : jsstring) (a b : Z) :
  exists pre post, s = pre ++ slice s a b ++ post.
Proof.
  unfold slice.
  set (f := Z.to_nat (relIndex (len s) a)).
  set (n := Z.to_nat (Z.max (relIndex (len s) b - relIndex (len s) a) 0)).
  exists (firstn f s), (skipn n (skipn f s)).
  now rewrite (firstn_skipn n), (firstn_skipn f).
Qed.

Lemma concat_substring (l : list jsstring) (p : jsstring) :
  In p l -> exists pre post, List.concat l = pre ++ p ++ post.
Proof.
  induction l as [|q l IH]; intros H; [destruct H|]. cbn [List.concat].
  destruct H as [->|H].
  - exists [], (List.concat l). reflexivity.
  - destruct (IH H) as (pre & post & E). exists (q ++ pre), post.
    now rewrite E, <- app_assoc.
Qed.

Lemma substring_trans (a b c : jsstring) :
  (exists pre post, b = pre ++ a ++ post) ->
  (exists pre post, c = pre ++ b ++ post) ->
  exists pre post, c = pre ++ a ++ post.
Proof.
  intros (p1 & q1 & ->) (p2 & q2 & ->). exists (p2 ++ p1), (q1 ++ q2).
  now rewrite <- !app_assoc.
Qed.

Lemma hardSplit_substrings (chunkSize chunkOverlap : Z) (txt : jsstring)
    (fuel : nat) :
  forall i segs,
    hardSplit fuel txt chunkSize chunkOverlap i = Ret segs ->
    Forall (fun seg => exists pre post, txt = pre ++ seg ++ post) segs.
Proof.
  induction fuel as [|fuel IH]; intros i segs E;
    cbn [hardSplit] in E; destruct (i <? len txt);
    try discriminate; try (injection E as <-; constructor).
  destruct (hardSplit fuel txt chunkSize chunkOverlap
              (i + (chunkSize - chunkOverlap))) as [rest| |] eqn:E';
    cbn in E; try discriminate.
  injection E as <-. constructor; [apply slice_substring | exact (IH _ _ E')].
Qed.

Lemma recurse_substrings (fuel : nat) (chunkSize chunkOverlap : Z)
    (seps : list jsstring) :
  forall txt segs,
    recurse fuel chunkSize chunkOverlap seps txt = Ret segs ->
    Forall (fun seg => exists pre post, txt = pre ++ seg ++ post) segs.
Proof.
  induction seps as [|sep nextSeps IH]; intros txt segs E;
    cbn [recurse] in E; destruct (len txt <=? chunkSize);
    try (injection E as <-; repeat constructor; exists [], [];
         now rewrite app_nil_r).
  - now apply (hardSplit_substrings chunkSize chunkOverlap txt fuel 0).
  - destruct (includes txt sep); [|now apply IH].
    apply (forEach_Forall _ (recurse fuel chunkSize chunkOverlap nextSeps)
             (partsWithSep (split txt sep) sep)); [|exact E].
    intros p s Hp Es. eapply Forall_impl; [|exact (IH p s Es)].
    intros seg Hseg. apply (substring_trans seg p txt Hseg).
    destruct (concat_substring _ p Hp) as (pre & post & Ec).
    rewrite concat_partsWithSep in Ec. now exists pre, post.
Qed.

Lemma substring_incl (a b : jsstring) :
  (exists pre post, b = pre ++ a ++ post) -> incl a b.
Proof.
  intros (pre & post & ->) u Hu. apply in_or_app. right.
  apply in_or_app. now left.
Qed.

Lemma sliceFrom_incl (s : jsstring) (k : Z) : incl (sliceFrom s k) s.
Proof.
  unfold sliceFrom. intros u Hu.
  rewrite <- (firstn_skipn (Z.to_nat (relIndex (len s) k)) s).
  apply in_or_app. now right.
Qed.

(** The units of Phase B hold code units of the segments only. *)
Lemma pack_incl (chunkSize chunkOverlap : Z) (txt : jsstring)
    (segments : list jsstring) :
  Forall (fun seg => incl seg txt) segments ->
  forall currentUnit,
    incl currentUnit txt ->
    Forall (fun u => incl u txt)
      (pack chunkSize chunkOverlap segments currentUnit).
Proof.
  intros Hsegs. induction Hsegs as [|segment rest Hseg _ IH];
    intros cur Hcur; cbn [pack].
  - destruct (len cur >? 0); repeat constructor; assumption.
  - assert (Hplain : incl (cur ++ segment) txt) by now apply incl_app.
    destruct (len cur + len segment >? chunkSize); [|now apply IH].
    destruct (len cur >? 0); [|now apply IH].
    constructor; [assumption|]. apply IH. apply incl_app; [|assumption].
    intros u Hu. apply Hcur. exact (sliceFrom_incl cur _ u Hu).
Qed.

Lemma trim_all_whitespace (s : jsstring) :
  forallb isWhiteSpace s = true -> trim s = [].
Proof.
  intros H. unfold trim, trimEnd.
  assert (E : trimStart s = []).
  { induction s as [|c s IH]; [reflexivity|]. cbn in *.
    apply andb_prop in H as [-> H]. now apply IH. }
  rewrite E. reflexivity.
Qed.

(** The chunks before and after the filter, of a call that returns. *)
Lemma generateRecursiveChunks_units (now : nat -> Z) (fuel : nat)
    (text : jsstring) (config : ChunkingConfig) (ticks : nat)
    (cs : list Chunk.t) (t : nat) :
  generateRecursiveChunks now fuel text config ticks = Ret (cs, t) ->
  exists segs,
    recurse fuel (chunkSize config) (chunkOverlap config)
      (separators config) text = Ret segs
    /\ contents cs
       = List.filter notBlank
           (pack (chunkSize config) (chunkOverlap config) segs []).
Proof.
  unfold generateRecursiveChunks.
  destruct (recurse fuel _ _ _ text) as [segs| |]; cbn [bind];
    try discriminate.
  intros R. injection R as R. exists segs. split; [reflexivity|].
  pose proof (recChunks_contents now
                (List.filter notBlank
                   (pack (chunkSize config) (chunkOverlap config) segs []))
                0 ticks) as Hcs.
  now rewrite R in Hcs.
Qed.

End Verbatim.

(** X7. Every segment Phase A pushes is a piece of the text it was given,
    in one stretch: the text is something, then the segment, then
    something. *)
Theorem recurse_segments_are_substrings :
  forall (fuel : nat) (chunkSize chunkOverlap : Z) (seps : list jsstring)
         (txt : jsstring) (segs : list jsstring) (seg : jsstring),
    recurse fuel chunkSize chunkOverlap seps txt = Ret segs ->
    In seg segs ->
    exists pre post, txt = pre ++ seg ++ post.
Proof.
  intros fuel chunkSize chunkOverlap seps txt segs seg E Hin.
  pose proof (recurse_substrings fuel chunkSize chunkOverlap seps txt segs E)
    as Hall.
  rewrite Forall_forall in Hall. now apply Hall.
Qed.

Lemma recurse_segments_are_substrings_witness :
  exists pre post, lit "ab cd ef" = pre ++ lit "cd " ++ post.
Proof.
  apply (recurse_segments_are_substrings 8 4 2 [lit " "] (lit "ab cd ef")
           [lit "ab "; lit "cd "; lit "ef"] (lit "cd ")).
  - vm_compute. reflexivity.
  - right. left. reflexivity.
Defined.

(** X8. [generateRecursiveChunks] invents no character: every code unit
    of the content of every chunk it returns is a code unit of the
    text. *)
Theorem recursive_chunks_hold_text_only :
  forall (now : nat -> Z) (fuel : nat) (text : jsstring)
         (config : ChunkingConfig) (ticks : nat)
         (cs : list Chunk.t) (t : nat),
    generateRecursiveChunks now fuel text config ticks = Ret (cs, t) ->
    forall c u, In c cs -> In u (Chunk.content c) -> In u text.
Proof.
  intros now fuel text config ticks cs t R c u Hc Hu.
  destruct (generateRecursiveChunks_units now fuel text config ticks cs t R)
    as (segs & EA & Hcs).
  assert (Hin : In (Chunk.content c) (contents cs))
    by (unfold contents; now apply in_map).
  rewrite Hcs in Hin. apply filter_In in Hin as [Hin _].
  pose proof (pack_incl (chunkSize config) (chunkOverlap config) text segs)
    as Hall.
  assert (Hsegs : Forall (fun seg => incl seg text) segs).
  { eapply Forall_impl; [|exact (recurse_substrings fuel _ _ _ text segs EA)].
    intros seg. apply substring_incl. }
  specialize (Hall Hsegs [] (incl_nil_l text)).
  rewrite Forall_forall in Hall. exact (Hall _ Hin u Hu).
Qed.

Lemma recursive_chunks_hold_text_only_witness :
  In 100%N (lit "abcdefgh").
Proof.
  apply (recursive_chunks_hold_text_only (Platform.frozen 0) 8 (lit "abcdefgh")
           {| chunkSize := 4; chunkOverlap := 2; separators := [] |} 0%nat
           [Chunk.mk (lit "rec-chunk-0-0") (lit "abcd") 0 4 1;
            Chunk.mk (lit "rec-chunk-1-0") (lit "cdcdef") 1 6 2;
            Chunk.mk (lit "rec-chunk-2-0") (lit "efefgh") 2 6 2;
            Chunk.mk (lit "rec-chunk-3-0") (lit "ghgh") 3 4 1] 4%nat)
    with (c := Chunk.mk (lit "rec-chunk-1-0") (lit "cdcdef") 1 6 2).
  - vm_compute. reflexivity.
  - right. left. reflexivity.
  - right. left. reflexivity.
Defined.

(** A call on a blank text that returns, returns no chunk. *)
Lemma generateRecursiveChunks_blank (now : nat -> Z) (fuel : nat)
    (text : jsstring) (config : ChunkingConfig) (ticks : nat)
    (cs : list Chunk.t) (t : nat) :
  forallb isWhiteSpace text = true ->
  generateRecursiveChunks now fuel text config ticks = Ret (cs, t) ->
  cs = [].
Proof.
  intros Hws R.
  destruct cs as [|c cs]; [reflexivity|]. exfalso.
  pose proof (generateRecursiveChunks_not_blank now fuel text config ticks
                (c :: cs) t R c (or_introl eq_refl)) as Hnb.
  rewrite trim_all_whitespace in Hnb; [cbn in Hnb; lia|].
  apply forallb_forall. intros u Hu. rewrite forallb_forall in Hws.
  apply Hws.
  destruct (generateRecursiveChunks_units now fuel text config ticks _ t R)
    as (segs & EA & Hcs).
  assert (Hin : In (Chunk.content c) (contents (c :: cs))) by now left.
  rewrite Hcs in Hin. apply filter_In in Hin as [Hin _].
  assert (Hsegs : Forall (fun seg => incl seg text) segs).
  { eapply Forall_impl; [|exact (recurse_substrings fuel _ _ _ text segs EA)].
    intros seg. apply substring_incl. }
  pose proof (pack_incl (chunkSize config) (chunkOverlap config) text segs
                Hsegs [] (incl_nil_l text)) as Hall.
  rewrite Forall_forall in Hall. exact (Hall _ Hin u Hu).
Qed.

(** X9. On a text made of white space only, [generateRecursiveChunks]
    never returns a chunk: it returns the empty sequence, unless it is
    caught in the hard split. *)
Theorem recursive_blank_text_no_chunks :
  forall (now : nat -> Z) (fuel : nat) (text : jsstring)
         (config : ChunkingConfig) (ticks : nat),
    forallb isWhiteSpace text = true ->
    returned (generateRecursiveChunks now fuel text config ticks) = Ret []
    \/ returned (generateRecursiveChunks now fuel text config ticks) = Spin.
Proof.
  intros now fuel text config ticks Hws.
  destruct (generateRecursiveChunks now fuel text config ticks)
    as [[cs t]|e|] eqn:R.
  - left. now rewrite (generateRecursiveChunks_blank now fuel text config
                         ticks cs t Hws R).
  - exfalso. exact (generateRecursiveChunks_no_throw now fuel text config
                      ticks e R).
  - right. reflexivity.
Qed.

Lemma recursive_blank_text_no_chunks_witness :
  returned (generateRecursiveChunks (Platform.frozen 0) 5 [32; 9; 10; 32]%N
              {| chunkSize := 2; chunkOverlap := 0; separators := [] |} 0%nat)
  = Ret []
  \/ returned (generateRecursiveChunks (Platform.frozen 0) 5 [32; 9; 10; 32]%N
                 {| chunkSize := 2; chunkOverlap := 0; separators := [] |}
                 0%nat)
     = Spin.
Proof.
  apply (recursive_blank_text_no_chunks (Platform.frozen 0) 5 [32; 9; 10; 32]%N
           {| chunkSize := 2; chunkOverlap := 0; separators := [] |} 0%nat).
  reflexivity.
Defined.

(** ** The empty separator keeps Phase A out of the hard split *)

Section EmptySeparator.

Lemma recurse_fits (fuel : nat) (chunkSize chunkOverlap : Z)
    (seps : list jsstring) (txt : jsstring) :
  len txt <= chunkSize ->
  recurse fuel chunkSize chunkOverlap seps txt = Ret [txt].
Proof.
  intros H. destruct seps; cbn [recurse];
    destruct (Z.leb_spec (len txt) chunkSize); try lia; reflexivity.
Qed.

Lemma pieces_of_empty_separator (txt p : jsstring) :
  In p (partsWithSep (split txt []) []) -> len p = 1.
Proof.
  rewrite partsWithSep_reattach, reattach_nil_sep. cbn [split].
  intros H. apply in_map_iff in H as (c & <- & _). reflexivity.
Qed.

Lemma recurse_with_empty_separator (fuel : nat) (chunkSize chunkOverlap : Z)
    (seps : list jsstring) :
  1 <= chunkSize ->
  In [] seps ->
  forall txt,
    exists segs, recurse fuel chunkSize chunkOverlap seps txt = Ret segs.
Proof.
  intros Hc. induction seps as [|sep nextSeps IH]; intros Hin txt;
    [destruct Hin|].
  cbn [recurse]. destruct (len txt <=? chunkSize); [eauto|].
  destruct sep as [|u sep].
  - (* the empty separator itself: every piece is one code unit *)
    replace (includes txt []) with true by (destruct txt; reflexivity).
    apply forEach_returns. intros p Hp. exists [p].
    apply recurse_fits. rewrite (pieces_of_empty_separator txt p Hp). lia.
  - destruct Hin as [Hin|Hin]; [discriminate|].
    destruct (includes txt (u :: sep)); [|now apply IH].
    apply forEach_returns. intros p _. now apply IH.
Qed.

End EmptySeparator.

(** X10. When the empty string is among the separators and
    [chunkSize >= 1], [generateRecursiveChunks] returns for every text
    and every overlap, also one that is not below [chunkSize], and
    without entering the hard split at all: no bound on its loop is
    needed. *)
Theorem recursive_returns_with_empty_separator :
  forall (now : nat -> Z) (fuel : nat) (text : jsstring)
         (config : ChunkingConfig) (ticks : nat),
    1 <= chunkSize config ->
    In [] (separators config) ->
    exists cs t,
      generateRecursiveChunks now fuel text config ticks = Ret (cs, t).
Proof.
  intros now fuel text config ticks Hc Hin. unfold generateRecursiveChunks.
  destruct (recurse_with_empty_separator fuel (chunkSize config)
              (chunkOverlap config) (separators config) Hc Hin text)
    as (segs & ->).
  cbn [bind]. destruct (recChunks now _ 0 ticks) as [cs t]. eauto.
Qed.

Lemma recursive_returns_with_empty_separator_witness :
  exists cs t,
    generateRecursiveChunks (Platform.frozen 0) 0 (lit "abcdef")
      {| chunkSize := 2; chunkOverlap := 5; separators := [lit " "; []] |}
      0%nat
    = Ret (cs, t).
Proof.
  apply (recursive_returns_with_empty_separator (Platform.frozen 0) 0
           (lit "abcdef")
           {| chunkSize := 2; chunkOverlap := 5; separators := [lit " "; []] |}
           0%nat).
  - cbn. lia.
  - right. left. reflexivity.
Defined.

(** ** Numbering and token counts *)

Section Numbered.

Variable now : nat -> Z.

Lemma recChunks_nth (cs : list jsstring) :
  forall i ticks k c,
    nth_error (fst (recChunks now cs i ticks)) k = Some c ->
    Chunk.index c = i + Z.of_nat k
    /\ Chunk.tokenCount c = estimateTokenCount (Chunk.content c).
Proof.
  induction cs as [|x cs IH]; intros i ticks k c; cbn [recChunks].
  - destruct k; discriminate.
  - specialize (IH (i + 1) (S ticks)).
    destruct (recChunks now cs (i + 1) (S ticks)) as [rest t]. cbn [fst] in *.
    destruct k as [|k]; cbn [nth_error].
    + intros E. injection E as <-. cbn. split; [lia | reflexivity].
    + intros E. destruct (IH k c E) as [Hi Ht]. split; [lia | exact Ht].
Qed.

Lemma generateRecursiveChunks_numbered (fuel : nat) (text : jsstring)
    (config : ChunkingConfig) (ticks : nat) (cs : list Chunk.t) (t : nat) :
  generateRecursiveChunks now fuel text config ticks = Ret (cs, t) ->
  forall k c,
    nth_error cs k = Some c ->
    Chunk.index c = Z.of_nat k
    /\ Chunk.tokenCount c = estimateTokenCount (Chunk.content c).
Proof.
  unfold generateRecursiveChunks.
  destruct (recurse fuel _ _ _ text) as [segs| |]; cbn [bind];
    try discriminate.
  intros R k c Hk. injection R as R.
  pose proof (recChunks_nth
                (List.filter notBlank
                   (pack (chunkSize config) (chunkOverlap config) segs []))
                0 ticks k c) as H.
  rewrite R in H. cbn [fst] in H. rewrite Z.add_0_l in H. now apply H.
Qed.

Lemma generateFixedSizeChunks_numbered (fuel : nat) (text : jsstring)
    (config : ChunkingConfig) (ticks : nat) (cs : list Chunk.t) (t : nat) :
  generateFixedSizeChunks now fuel text config ticks = Ret (cs, t) ->
  forall k c,
    nth_error cs k = Some c ->
    Chunk.index c = Z.of_nat k
    /\ Chunk.tokenCount c = estimateTokenCount (Chunk.content c).
Proof.
  unfold generateFixedSizeChunks. destruct (chunkSize config <=? 0).
  - intros R k c Hk. injection R as <- _. destruct k; discriminate.
  - intros R k c Hk. split.
    + destruct (fixedLoop_nth now text _ _ fuel _ _ _ _ _ R k c Hk)
        as (_ & _ & _ & Hi). now rewrite Z.add_0_l in Hi.
    + apply (fixedLoop_tokenCount now text _ _ fuel _ _ _ _ _ R).
      eapply nth_error_In. exact Hk.
Qed.

Context {Num : Type}.
Variable JSON_stringify : JValue Num -> jsstring.

(** What [addChunk] keeps, the whole of [processValue] keeps. *)
Section Invariant.

Variable Inv : JsonState -> Prop.
Hypothesis Inv_addChunk :
  forall content st, Inv st -> Inv (addChunk now content st).
Hypothesis Inv_ticks :
  forall st t,
    Inv st -> Inv {| chunks := chunks st; index := index st; ticks := t |}.

Lemma batchItems_keeps (chunkSize : Z) (items : list (JValue Num)) :
  forall batch size st,
    Inv st -> Inv (batchItems now JSON_stringify chunkSize items batch size st).
Proof.
  induction items as [|item rest IH]; intros batch size st H;
    cbn [batchItems].
  - destruct (Z.of_nat (List.length batch) >? 0); auto.
  - destruct ((size + len (JSON_stringify item) + 2 >? chunkSize)
              && (Z.of_nat (List.length batch) >? 0)); apply IH; auto.
Qed.

Lemma batchProps_keeps (chunkSize : Z)
    (entries : list (jsstring * JValue Num)) :
  forall obj size st,
    Inv st -> Inv (batchProps now JSON_stringify chunkSize entries obj size st).
Proof.
  induction entries as [|[k v] rest IH]; intros obj size st H;
    cbn [batchProps].
  - destruct (Z.of_nat (List.length obj) >? 0); auto.
  - match goal with
    | |- context [if ?b then _ else _] => destruct b
    end; apply IH; auto.
Qed.

Lemma readd_keeps (rc : list Chunk.t) :
  forall st,
    Inv st ->
    Inv (fold_left (fun s c => addChunk now (Chunk.content c) s) rc st).
Proof.
  induction rc as [|c rc IH]; intros st H; cbn [fold_left]; auto.
Qed.

Lemma processValue_keeps (fuel : nat) (config : ChunkingConfig)
    (value : JValue Num) (st st' : JsonState) :
  Inv st ->
  processValue now JSON_stringify fuel config value st = Ret st' ->
  Inv st'.
Proof.
  intros H. unfold processValue.
  destruct (len (JSON_stringify value) <=? chunkSize config).
  { intros E. injection E as <-. auto. }
  assert (Hscalar :
    ('(rc, t) <- generateRecursiveChunks now fuel (JSON_stringify value)
                   config (ticks st) ;;
     Ret (fold_left (fun s c => addChunk now (Chunk.content c) s) rc
            {| chunks := chunks st; index := index st; ticks := t |}))
    = Ret st' -> Inv st').
  { destruct (generateRecursiveChunks now fuel _ config (ticks st))
      as [[rc u]| |]; cbn [bind]; try discriminate.
    intros E. injection E as <-. apply readd_keeps. auto. }
  destruct value; try exact Hscalar; intros E; injection E as <-.
  - now apply batchItems_keeps.
  - now apply batchProps_keeps.
Qed.

End Invariant.

Lemma addChunk_numbered (content : jsstring) (st : JsonState) :
  numbered st -> numbered (addChunk now content st).
Proof.
  intros [Hi Hn]. unfold numbered, addChunk. cbn [chunks index].
  split; [rewrite length_app; cbn; lia|].
  intros k c Hk.
  destruct (Nat.lt_ge_cases k (List.length (chunks st))) as [Hlt|Hge].
  - rewrite nth_error_app1 in Hk by assumption. now apply Hn.
  - rewrite nth_error_app2 in Hk by assumption.
    destruct (k - List.length (chunks st))%nat as [|d] eqn:Ed; cbn in Hk.
    + injection Hk as <-. cbn. split; [lia | reflexivity].
    + destruct d; discriminate.
Qed.

Variable JSON_parse : jsstring -> JsError + JValue Num.

Lemma generateJsonChunks_numbered (fuel : nat) (text : jsstring)
    (config : ChunkingConfig) (ticks : nat) (cs : list Chunk.t) (t : nat) :
  generateJsonChunks now JSON_parse JSON_stringify fuel text config ticks
  = Ret (cs, t) ->
  forall k c,
    nth_error cs k = Some c ->
    Chunk.index c = Z.of_nat k
    /\ Chunk.tokenCount c = estimateTokenCount (Chunk.content c).
Proof.
  unfold generateJsonChunks. destruct (JSON_parse text) as [e|data].
  - apply generateRecursiveChunks_numbered.
  - destruct (processValue now JSON_stringify fuel config data _)
      as [st'| |] eqn:E; cbn [bind]; try discriminate.
    intros R. injection R as <- <-.
    assert (H0 : numbered {| chunks := []; index := 0; ticks := ticks |}).
    { split; [reflexivity|]. intros k c Hk. destruct k; discriminate. }
    destruct (processValue_keeps numbered addChunk_numbered
                (fun st u H => H) fuel config data _ st' H0 E) as [_ Hn].
    exact Hn.
Qed.

End Numbered.

(** X11. Whichever chunker returns them (fixed, recursive, markdown,
    JSON), the chunks are numbered from 0 in the order they are
    returned, without gap, and the [tokenCount] of each is
    [estimateTokenCount] of its content. *)
Theorem chunks_are_numbered_in_order :
  forall (Num : Type) (now : nat -> Z)
         (JSON_parse : jsstring -> JsError + JValue Num)
         (JSON_stringify : JValue Num -> jsstring)
         (fuel : nat) (text : jsstring) (config : ChunkingConfig)
         (ticks : nat) (cs : list Chunk.t) (t : nat),
    generateFixedSizeChunks now fuel text config ticks = Ret (cs, t)
    \/ generateRecursiveChunks now fuel text config ticks = Ret (cs, t)
    \/ generateMarkdownChunks now fuel text config ticks = Ret (cs, t)
    \/ generateJsonChunks now JSON_parse JSON_stringify fuel text config ticks
       = Ret (cs, t) ->
    forall k c,
      nth_error cs k = Some c ->
      Chunk.index c = Z.of_nat k
      /\ Chunk.tokenCount c = estimateTokenCount (Chunk.content c).
Proof.
  intros Num now JSON_parse JSON_stringify fuel text config ticks cs t H.
  destruct H as [H|[H|[H|H]]].
  - exact (generateFixedSizeChunks_numbered now fuel text config ticks cs t H).
  - exact (generateRecursiveChunks_numbered now fuel text config ticks cs t H).
  - exact (generateRecursiveChunks_numbered now fuel text config ticks cs t H).
  - exact (generateJsonChunks_numbered now JSON_stringify JSON_parse
             fuel text config ticks cs t H).
Qed.

Lemma chunks_are_numbered_in_order_witness :
  Chunk.index (Chunk.mk (lit "json-chunk-1-0") [91; 10; 32; 32; 50; 10; 93]%N 1 7 2)
  = Z.of_nat 1
  /\ Chunk.tokenCount (Chunk.mk (lit "json-chunk-1-0") [91; 10; 32; 32; 50; 10; 93]%N 1 7 2)
     = estimateTokenCount
         (Chunk.content
            (Chunk.mk (lit "json-chunk-1-0") [91; 10; 32; 32; 50; 10; 93]%N 1 7 2)).
Proof.
  apply (chunks_are_numbered_in_order Z (Platform.frozen 0)
           (Platform.parseOnly (lit "[1,2]") (JArray [JNumber 1; JNumber 2]))
           Platform.stringify 0 (lit "[1,2]")
           {| chunkSize := 3; chunkOverlap := 0; separators := [] |} 0%nat
           [Chunk.mk (lit "json-chunk-0-0") [91; 10; 32; 32; 49; 10; 93]%N 0 7 2;
            Chunk.mk (lit "json-chunk-1-0") [91; 10; 32; 32; 50; 10; 93]%N 1 7 2]
           2%nat) with (k := 1%nat).
  - right. right. right. vm_compute. reflexivity.
  - reflexivity.
Defined.

(** ** estimateTokenCount: bounds and concatenation *)

Section TokenEstimateMore.

Lemma cjkChars_app (a b : jsstring) :
  cjkChars (a ++ b) = cjkChars a + cjkChars b.
Proof. unfold cjkChars. rewrite filter_app, length_app. lia. Qed.

Lemma otherChars_app (a b : jsstring) :
  otherChars (a ++ b) = otherChars a + otherChars b.
Proof. unfold otherChars. rewrite filter_app, length_app. lia. Qed.

Lemma cjkChars_nonneg (a : jsstring) : 0 <= cjkChars a.
Proof. unfold cjkChars. lia. Qed.

Lemma otherChars_nonneg (a : jsstring) : 0 <= otherChars a.
Proof. unfold otherChars. lia. Qed.

End TokenEstimateMore.

(** X12. The estimate of [estimateTokenCount] lies between a quarter of
    the length of the text and the length itself:
    [text.length <= 4 * estimate] and [estimate <= text.length]. *)
Theorem estimateTokenCount_bounds :
  forall text : jsstring,
    len text <= 4 * estimateTokenCount text
    /\ estimateTokenCount text <= len text.
Proof.
  intros text. rewrite estimateTokenCount_eq.
  pose proof (ceilDiv_4_bounds (otherChars text)).
  pose proof (cjk_other_total text).
  pose proof (cjkChars_nonneg text). pose proof (otherChars_nonneg text).
  lia.
Qed.

(** X13. Cutting a text in two never lowers the total estimate and
    raises it by one at most: the estimate of [a ++ b] is at most the sum
    of the estimates of [a] and [b] and at least that sum less one; and
    it is at least the estimate of either part. *)
Theorem estimateTokenCount_concat :
  forall a b : jsstring,
    estimateTokenCount a + estimateTokenCount b - 1
      <= estimateTokenCount (a ++ b)
      <= estimateTokenCount a + estimateTokenCount b
    /\ estimateTokenCount a <= estimateTokenCount (a ++ b)
    /\ estimateTokenCount b <= estimateTokenCount (a ++ b).
Proof.
  intros a b. rewrite !estimateTokenCount_eq, cjkChars_app, otherChars_app.
  pose proof (ceilDiv_4_bounds (otherChars a)).
  pose proof (ceilDiv_4_bounds (otherChars b)).
  pose proof (ceilDiv_4_bounds (otherChars a + otherChars b)).
  pose proof (cjkChars_nonneg a). pose proof (cjkChars_nonneg b).
  pose proof (otherChars_nonneg a). pose proof (otherChars_nonneg b).
  lia.
Qed.

(** ** generateJsonChunks: batches of an array *)

Section JsonBatches.

Context {Num : Type}.
Variable now : nat -> Z.
Variable JSON_stringify : JValue Num -> jsstring.
Variable chunkSize : Z.

Lemma batchCost_app (a b : list (JValue Num)) :
  batchCost JSON_stringify (a ++ b)
  = batchCost JSON_stringify a + batchCost JSON_stringify b.
Proof.
  unfold batchCost. induction a as [|x a IH]; cbn [app fold_right]; lia.
Qed.

(** The loop over the elements closes batches that, put end to end, are
    the batch under construction followed by the elements still to come;
    no batch is empty, and a batch of two elements or more is within
    [chunkSize] by the size the loop counts. *)
Lemma batchItems_batches (items : list (JValue Num)) :
  forall batch st,
    ((2 <= List.length batch)%nat ->
     batchCost JSON_stringify batch <= chunkSize) ->
    exists batches,
      contents (chunks (batchItems now JSON_stringify chunkSize items batch
                          (batchCost JSON_stringify batch) st))
      = contents (chunks st)
          ++ List.map (fun b => JSON_stringify (JArray b)) batches
      /\ List.concat batches = batch ++ items
      /\ Forall (fun b => b <> []) batches
      /\ Forall (fun b => (2 <= List.length b)%nat ->
                          batchCost JSON_stringify b <= chunkSize) batches.
Proof.
  induction items as [|item rest IH]; intros batch st Hsize;
    cbn [batchItems].
  - destruct batch as [|x batch].
    + exists []. cbn. rewrite app_nil_r. repeat split; constructor.
    + exists [x :: batch]. cbn [List.length Z.of_nat].
      replace (Z.pos (Pos.of_succ_nat (List.length batch)) >? 0) with true
        by reflexivity.
      rewrite addChunk_contents. cbn [List.map List.concat].
      rewrite !app_nil_r. repeat split; repeat constructor;
        [discriminate | exact Hsize].
  - destruct ((batchCost JSON_stringify batch + len (JSON_stringify item) + 2
               >? chunkSize)
              && (Z.of_nat (List.length batch) >? 0)) eqn:Hflush.
    + (* the batch is closed and the element opens the next one *)
      apply andb_prop in Hflush as [_ Hne].
      cbn [app]. rewrite Z.add_0_l.
      destruct (IH [item] (addChunk now (JSON_stringify (JArray batch)) st))
        as (batches & Hc & Hcat & Hnn & Hsz).
      { cbn [List.length]. lia. }
      replace (len (JSON_stringify item) + 2)
        with (batchCost JSON_stringify [item]) by (cbn; lia).
      exists (batch :: batches). rewrite Hc, addChunk_contents.
      cbn [List.map List.concat]. rewrite Hcat, <- app_assoc.
      repeat split; try constructor; try assumption.
      intros ->. discriminate.
    + (* the element joins the batch *)
      replace (batchCost JSON_stringify batch + (len (JSON_stringify item) + 2))
        with (batchCost JSON_stringify (batch ++ [item]))
        by (rewrite batchCost_app; cbn; lia).
      destruct (IH (batch ++ [item]) st) as (batches & Hc & Hcat & Hnn & Hsz).
      { intros H2. rewrite batchCost_app. cbn [batchCost fold_right].
        rewrite length_app in H2. cbn [List.length] in H2.
        apply andb_false_iff in Hflush as [Hle|Hemp].
        - destruct (Z.gtb_spec (batchCost JSON_stringify batch
                                + len (JSON_stringify item) + 2) chunkSize);
            [discriminate | lia].
        - destruct (Z.gtb_spec (Z.of_nat (List.length batch)) 0);
            [discriminate | lia]. }
      exists batches. rewrite Hc, Hcat, <- app_assoc.
      repeat split; assumption.
Qed.

End JsonBatches.

(** X14. For a text that parses as a JSON array whose serialization is
    longer than [chunkSize], [generateJsonChunks] always returns, and its
    chunks are the serializations of batches of consecutive elements:
    the batches put end to end are the array, so that no element is
    lost, repeated or moved; no batch is empty; and every batch of two
    elements or more is within [chunkSize] by the size the loop counts
    (the length of each serialized element plus 2). Only a batch of a
    single element can be over. *)
Theorem json_array_batches_partition :
  forall (Num : Type) (now : nat -> Z)
         (JSON_parse : jsstring -> JsError + JValue Num)
         (JSON_stringify : JValue Num -> jsstring)
         (fuel : nat) (text : jsstring) (config : ChunkingConfig)
         (ticks : nat) (items : list (JValue Num)),
    JSON_parse text = inr (JArray items) ->
    len (JSON_stringify (JArray items)) > chunkSize config ->
    exists cs t batches,
      generateJsonChunks now JSON_parse JSON_stringify fuel text config ticks
      = Ret (cs, t)
      /\ contents cs = List.map (fun b => JSON_stringify (JArray b)) batches
      /\ List.concat batches = items
      /\ Forall (fun b => b <> []) batches
      /\ Forall (fun b => (2 <= List.length b)%nat ->
                          batchCost JSON_stringify b <= chunkSize config)
           batches.
Proof.
  intros Num now JSON_parse JSON_stringify fuel text config ticks items
    Hparse Hbig.
  unfold generateJsonChunks. rewrite Hparse. unfold processValue.
  destruct (Z.leb_spec (len (JSON_stringify (JArray items))) (chunkSize config));
    [lia|].
  cbn [bind].
  destruct (batchItems_batches now JSON_stringify (chunkSize config) items []
              {| chunks := []; index := 0; ticks := ticks |})
    as (batches & Hc & Hcat & Hnn & Hsz).
  { cbn [List.length]. lia. }
  cbn [batchCost fold_right] in Hc.
  eexists. eexists. exists batches. split; [reflexivity|].
  split; [exact Hc|]. split; [exact Hcat|]. split; assumption.
Qed.

Lemma json_array_batches_partition_witness :
  exists cs t batches,
    generateJsonChunks (Platform.frozen 0)
      (Platform.parseOnly (lit "[1,2,3]")
         (JArray [JNumber 1; JNumber 2; JNumber 3]))
      Platform.stringify 0 (lit "[1,2,3]")
      {| chunkSize := 6; chunkOverlap := 0; separators := [] |} 0%nat
    = Ret (cs, t)
    /\ contents cs = List.map (fun b => Platform.stringify (JArray b)) batches
    /\ List.concat batches = [JNumber 1; JNumber 2; JNumber 3]
    /\ Forall (fun b => b <> []) batches
    /\ Forall (fun b => (2 <= List.length b)%nat ->
                        batchCost Platform.stringify b <= 6) batches.
Proof.
  apply (json_array_batches_partition Z (Platform.frozen 0)
           (Platform.parseOnly (lit "[1,2,3]")
              (JArray [JNumber 1; JNumber 2; JNumber 3]))
           Platform.stringify 0 (lit "[1,2,3]")
           {| chunkSize := 6; chunkOverlap := 0; separators := [] |} 0%nat
           [JNumber 1; JNumber 2; JNumber 3]).
  - reflexivity.
  - vm_compute. reflexivity.
Defined.

(** ** generateJsonChunks: groups of the properties of an object *)

Section JsonGroups.

Context {Num : Type}.
Variable now : nat -> Z.
Variable JSON_stringify : JValue Num -> jsstring.
Variable chunkSize : Z.

Lemma str_eqb_eq (a b : jsstring) : str_eqb a b = true <-> a = b.
Proof.
  revert b. induction a as [|x a IH]; intros [|y b]; cbn; split;
    try discriminate; try reflexivity.
  - intros H. apply andb_prop in H as [Hxy Hab].
    apply N.eqb_eq in Hxy. apply IH in Hab. congruence.
  - intros E. injection E as -> ->. unfold unit_eqb. rewrite N.eqb_refl.
    now apply IH.
Qed.

Lemma str_eqb_neq (a b : jsstring) : a <> b -> str_eqb a b = false.
Proof.
  intros H. destruct (str_eqb a b) eqn:E; [|reflexivity].
  apply str_eqb_eq in E. contradiction.
Qed.

(** A key the object does not have yet is added after the others. *)
Lemma putProp_fresh (o : list (jsstring * JValue Num)) (k : jsstring)
    (v : JValue Num) :
  ~ In k (List.map fst o) -> putProp o k v = o ++ [(k, v)].
Proof.
  induction o as [|[k' v'] o IH]; intros H; cbn [putProp app]; [reflexivity|].
  cbn in H. rewrite str_eqb_neq by (intros ->; apply H; now left).
  rewrite IH; [reflexivity|]. intros Hin. apply H. now right.
Qed.

Lemma setProp_fresh (o : list (jsstring * JValue Num)) (k : jsstring)
    (v : JValue Num) :
  k <> lit "__proto__" -> ~ In k (List.map fst o) ->
  setProp o k v = o ++ [(k, v)].
Proof.
  intros Hp Hk. unfold setProp. rewrite str_eqb_neq by assumption.
  now apply putProp_fresh.
Qed.

Lemma cost_snoc {A : Type} (f : A -> Z) (base : Z) (l : list A) (x : A) :
  fold_right (fun a acc => f a + 2 + acc) base (l ++ [x])
  = fold_right (fun a acc => f a + 2 + acc) base l + (f x + 2).
Proof.
  induction l as [|y l IH]; cbn [app fold_right]; [|rewrite IH]; lia.
Qed.

Lemma groupCost_snoc (g : list (jsstring * JValue Num)) (k : jsstring)
    (v : JValue Num) :
  groupCost JSON_stringify (g ++ [(k, v)])
  = groupCost JSON_stringify g
    + (len ([34%N] ++ k ++ [34%N; 58%N; 32%N] ++ JSON_stringify v) + 2).
Proof.
  exact (cost_snoc
           (fun kv => len ([34%N] ++ fst kv ++ [34%N; 58%N; 32%N]
                             ++ JSON_stringify (snd kv)))
           2 g (k, v)).
Qed.

(** The loop over the properties, as [batchItems_batches] for the
    elements of an array. *)
Lemma batchProps_groups (entries : list (jsstring * JValue Num)) :
  forall obj st,
    NoDup (List.map fst (obj ++ entries)) ->
    Forall (fun kv => fst kv <> lit "__proto__") entries ->
    ((2 <= List.length obj)%nat ->
     groupCost JSON_stringify obj <= chunkSize) ->
    exists groups,
      contents (chunks (batchProps now JSON_stringify chunkSize entries obj
                          (groupCost JSON_stringify obj) st))
      = contents (chunks st)
          ++ List.map (fun g => JSON_stringify (JObject g)) groups
      /\ List.concat groups = obj ++ entries
      /\ Forall (fun g => g <> []) groups
      /\ Forall (fun g => (2 <= List.length g)%nat ->
                          groupCost JSON_stringify g <= chunkSize) groups.
Proof.
  induction entries as [|[k v] rest IH]; intros obj st Hnd Hproto Hsize;
    cbn [batchProps].
  - destruct obj as [|x obj].
    + exists []. cbn. rewrite app_nil_r. repeat split; constructor.
    + exists [x :: obj]. cbn [List.length Z.of_nat].
      replace (Z.pos (Pos.of_succ_nat (List.length obj)) >? 0) with true
        by reflexivity.
      rewrite addChunk_contents. cbn [List.map List.concat].
      rewrite !app_nil_r. repeat split; repeat constructor;
        [discriminate | exact Hsize].
  - inversion Hproto as [|? ? Hk Hrest]; subst. cbn [fst] in Hk.
    assert (Hfresh : ~ In k (List.map fst obj)).
    { rewrite map_app in Hnd. cbn [List.map fst] in Hnd.
      apply NoDup_remove_2 in Hnd. intros Hin. apply Hnd.
      apply in_or_app. now left. }
    assert (Hnd' : NoDup (List.map fst ((obj ++ [(k, v)]) ++ rest)))
      by now rewrite <- app_assoc.
    assert (Hnd1 : NoDup (List.map fst ([(k, v)] ++ rest))).
    { rewrite map_app in Hnd. now apply NoDup_app_remove_l in Hnd. }
    set (propStr := [34%N] ++ k ++ [34%N; 58%N; 32%N] ++ JSON_stringify v).
    destruct ((groupCost JSON_stringify obj + len propStr + 2 >? chunkSize)
              && (Z.of_nat (List.length obj) >? 0)) eqn:Hflush.
    + apply andb_prop in Hflush as [_ Hne].
      rewrite (setProp_fresh [] k v Hk (fun F => F)). cbn [app].
      pose proof (groupCost_snoc [] k v) as Hone.
      change (groupCost JSON_stringify [(k, v)] = 2 + (len propStr + 2))
        in Hone.
      rewrite <- Hone.
      destruct (IH [(k, v)] (addChunk now (JSON_stringify (JObject obj)) st)
                  Hnd1 Hrest) as (groups & Hc & Hcat & Hnn & Hsz).
      { cbn [List.length]. lia. }
      exists (obj :: groups). rewrite Hc, addChunk_contents.
      cbn [List.map List.concat]. rewrite Hcat, <- app_assoc.
      repeat split; try constructor; try assumption.
      intros ->. discriminate.
    + rewrite (setProp_fresh obj k v Hk Hfresh).
      replace (groupCost JSON_stringify obj + (len propStr + 2))
        with (groupCost JSON_stringify (obj ++ [(k, v)]))
        by (rewrite groupCost_snoc; reflexivity).
      destruct (IH (obj ++ [(k, v)]) st Hnd' Hrest)
        as (groups & Hc & Hcat & Hnn & Hsz).
      { intros H2. rewrite groupCost_snoc. fold propStr.
        rewrite length_app in H2. cbn [List.length] in H2.
        apply andb_false_iff in Hflush as [Hle|Hemp].
        - destruct (Z.gtb_spec (groupCost JSON_stringify obj
                                + len propStr + 2) chunkSize);
            [discriminate | lia].
        - destruct (Z.gtb_spec (Z.of_nat (List.length obj)) 0);
            [discriminate | lia]. }
      exists groups. rewrite Hc, Hcat, <- app_assoc.
      repeat split; assumption.
Qed.

End JsonGroups.

(** X15. For a text that parses as a JSON object whose serialization is
    longer than [chunkSize], whose keys are distinct (as the keys of an
    object are) and none of which is [__proto__], [generateJsonChunks]
    always returns, and its chunks are the serializations of objects
    made of consecutive properties: the groups put end to end are the
    properties of the object in their order, so that none is lost,
    repeated or moved; no group is empty; and every group of two
    properties or more is within [chunkSize] by the size the loop counts.
    Only a group of a single property can be over. *)
Theorem json_object_groups_partition :
  forall (Num : Type) (now : nat -> Z)
         (JSON_parse : jsstring -> JsError + JValue Num)
         (JSON_stringify : JValue Num -> jsstring)
         (fuel : nat) (text : jsstring) (config : ChunkingConfig)
         (ticks : nat) (props : list (jsstring * JValue Num)),
    JSON_parse text = inr (JObject props) ->
    len (JSON_stringify (JObject props)) > chunkSize config ->
    NoDup (List.map fst props) ->
    Forall (fun kv => fst kv <> lit "__proto__") props ->
    exists cs t groups,
      generateJsonChunks now JSON_parse JSON_stringify fuel text config ticks
      = Ret (cs, t)
      /\ contents cs = List.map (fun g => JSON_stringify (JObject g)) groups
      /\ List.concat groups = props
      /\ Forall (fun g => g <> []) groups
      /\ Forall (fun g => (2 <= List.length g)%nat ->
                          groupCost JSON_stringify g <= chunkSize config)
           groups.
Proof.
  intros Num now JSON_parse JSON_stringify fuel text config ticks props
    Hparse Hbig Hnd Hproto.
  unfold generateJsonChunks. rewrite Hparse. unfold processValue.
  destruct (Z.leb_spec (len (JSON_stringify (JObject props))) (chunkSize config));
    [lia|].
  cbn [bind].
  destruct (batchProps_groups now JSON_stringify (chunkSize config) props []
              {| chunks := []; index := 0; ticks := ticks |} Hnd Hproto)
    as (groups & Hc & Hcat & Hnn & Hsz).
  { cbn [List.length]. lia. }
  cbn [groupCost fold_right] in Hc.
  eexists. eexists. exists groups. split; [reflexivity|].
  split; [exact Hc|]. split; [exact Hcat|]. split; assumption.
Qed.

Lemma json_object_groups_partition_witness :
  exists cs t groups,
    generateJsonChunks (Platform.frozen 0)
      (Platform.parseOnly (Platform.stringify
         (JObject [(lit "a", JNumber 1); (lit "b", JNumber 2);
                   (lit "c", JNumber 3)]))
         (JObject [(lit "a", JNumber 1); (lit "b", JNumber 2);
                   (lit "c", JNumber 3)]))
      Platform.stringify 0 (Platform.stringify
         (JObject [(lit "a", JNumber 1); (lit "b", JNumber 2);
                   (lit "c", JNumber 3)]))
      {| chunkSize := 18; chunkOverlap := 0; separators := [] |} 0%nat
    = Ret (cs, t)
    /\ contents cs = List.map (fun g => Platform.stringify (JObject g)) groups
    /\ List.concat groups
       = [(lit "a", JNumber 1); (lit "b", JNumber 2); (lit "c", JNumber 3)]
    /\ Forall (fun g => g <> []) groups
    /\ Forall (fun g => (2 <= List.length g)%nat ->
                        groupCost Platform.stringify g <= 18) groups.
Proof.
  apply (json_object_groups_partition Z (Platform.frozen 0)
           (Platform.parseOnly (Platform.stringify
         (JObject [(lit "a", JNumber 1); (lit "b", JNumber 2);
                   (lit "c", JNumber 3)]))
              (JObject [(lit "a", JNumber 1); (lit "b", JNumber 2);
                        (lit "c", JNumber 3)]))
           Platform.stringify 0 (Platform.stringify
         (JObject [(lit "a", JNumber 1); (lit "b", JNumber 2);
                   (lit "c", JNumber 3)]))
           {| chunkSize := 18; chunkOverlap := 0; separators := [] |} 0%nat
           [(lit "a", JNumber 1); (lit "b", JNumber 2); (lit "c", JNumber 3)]).
  - reflexivity.
  - vm_compute. reflexivity.
  - repeat constructor; cbn; intuition discriminate.
  - repeat constructor; discriminate.
Defined.

(** ** generateJsonChunks: a scalar that does not fit *)

Section JsonScalar.

Context {Num : Type}.
Variable now : nat -> Z.
Variable JSON_stringify : JValue Num -> jsstring.

(** Chunks that are numbered from the next index of the state keep their
    content, index, length and token count when they are added again. *)
Lemma readd_payloads (rc : list Chunk.t) :
  forall st,
    (forall k c,
        nth_error rc k = Some c ->
        Chunk.index c = index st + Z.of_nat k
        /\ Chunk.length c = len (Chunk.content c)
        /\ Chunk.tokenCount c = estimateTokenCount (Chunk.content c)) ->
    List.map payload
      (chunks (fold_left (fun s c => addChunk now (Chunk.content c) s) rc st))
    = List.map payload (chunks st) ++ List.map payload rc.
Proof.
  induction rc as [|c rc IH]; intros st H; cbn [fold_left List.map].
  - now rewrite app_nil_r.
  - rewrite IH.
    + destruct (H 0%nat c eq_refl) as (Hi & Hl & Ht).
      unfold addChunk at 1. cbn [chunks]. rewrite map_app, <- app_assoc.
      cbn [List.map app]. do 2 f_equal. unfold payload. cbn.
      rewrite Hi, Hl, Ht, Z.add_0_r. reflexivity.
    + intros k c' Hk. destruct (H (S k) c' Hk) as (Hi & Hl & Ht).
      cbn [addChunk index]. repeat split; try assumption. lia.
Qed.

End JsonScalar.

(** X16. For a text that parses as a JSON value that is neither an array
    nor an object (a string, a number, a boolean or null) and whose
    serialization is longer than [chunkSize], [generateJsonChunks] ends
    as [generateRecursiveChunks] does on that serialization, and when it
    returns, its chunks have the same content, index, length and
    tokenCount as the chunks of [generateRecursiveChunks]. *)
Theorem json_scalar_is_recursive_on_serialization :
  forall (Num : Type) (now : nat -> Z)
         (JSON_parse : jsstring -> JsError + JValue Num)
         (JSON_stringify : JValue Num -> jsstring)
         (fuel : nat) (text : jsstring) (config : ChunkingConfig)
         (t0 : nat) (value : JValue Num),
    JSON_parse text = inr value ->
    isScalar value = true ->
    len (JSON_stringify value) > chunkSize config ->
    payloads (generateJsonChunks now JSON_parse JSON_stringify
                fuel text config t0)
    = payloads (generateRecursiveChunks now fuel (JSON_stringify value)
                  config t0).
Proof.
  intros Num now JSON_parse JSON_stringify fuel text config t0 value
    Hparse Hscalar Hbig.
  unfold generateJsonChunks. rewrite Hparse. unfold processValue.
  destruct (Z.leb_spec (len (JSON_stringify value)) (chunkSize config)); [lia|].
  assert (E :
    payloads
      (st <- ('(rc, t) <- generateRecursiveChunks now fuel
                            (JSON_stringify value) config t0 ;;
              Ret (fold_left (fun s c => addChunk now (Chunk.content c) s) rc
                     {| chunks := []; index := 0; ticks := t |})) ;;
       Ret (chunks st, ticks st))
    = payloads (generateRecursiveChunks now fuel (JSON_stringify value)
                  config t0)).
  { destruct (generateRecursiveChunks now fuel (JSON_stringify value) config
                t0) as [[rc u]| |] eqn:R; try reflexivity.
    cbn [bind payloads returned]. f_equal.
    rewrite (readd_payloads now rc); [reflexivity|].
    intros k c Hk. cbn [index]. rewrite Z.add_0_l.
    destruct (generateRecursiveChunks_numbered now fuel _ config t0 rc u
                R k c Hk) as [Hi Ht].
    repeat split; try assumption.
    apply (generateRecursiveChunks_length_field now fuel _ config t0 rc u R).
    eapply nth_error_In. exact Hk. }
  destruct value; try discriminate; exact E.
Qed.

Lemma json_scalar_is_recursive_on_serialization_witness :
  payloads (generateJsonChunks (Platform.frozen 0)
              (Platform.parseOnly (lit "1234567") (JNumber 1234567))
              Platform.stringify 7 (lit "1234567")
              {| chunkSize := 3; chunkOverlap := 0; separators := [] |} 0%nat)
  = payloads (generateRecursiveChunks (Platform.frozen 0) 7
                (Platform.stringify (JNumber 1234567))
                {| chunkSize := 3; chunkOverlap := 0; separators := [] |}
                0%nat).
Proof.
  apply (json_scalar_is_recursive_on_serialization Z (Platform.frozen 0)
           (Platform.parseOnly (lit "1234567") (JNumber 1234567))
           Platform.stringify 7 (lit "1234567")
           {| chunkSize := 3; chunkOverlap := 0; separators := [] |} 0%nat
           (JNumber 1234567)).
  - reflexivity.
  - reflexivity.
  - vm_compute. reflexivity.
Defined.

(** ** The [id] fields of one result are distinct *)


Section Ids.

Lemma digits_range (d : Decimal.uint) (u : unit16) :
  In u (digits d) -> (48 <= u <= 57)%N.
Proof.
  induction d; cbn [digits]; intros H; try destruct H as [<-|H];
    try (now apply IHd); try lia; destruct H.
Qed.

Lemma digits_inj (d d' : Decimal.uint) : digits d = digits d' -> d = d'.
Proof.
  revert d'. induction d; intros d' H; destruct d'; cbn [digits] in H;
    try discriminate; try reflexivity;
    injection H as H; f_equal; now apply IHd.
Qed.

(** The decimal writing of an integer determines it. *)
Lemma numToString_inj (a b : Z) : numToString a = numToString b -> a = b.
Proof.
  unfold numToString. intros H. apply DecimalZ.to_int_inj.
  destruct (Z.to_int a) as [d|d], (Z.to_int b) as [d'|d'].
  - f_equal. now apply digits_inj.
  - exfalso. assert (Hin : In 45%N (digits d)) by (rewrite H; now left).
    apply digits_range in Hin. lia.
  - exfalso. assert (Hin : In 45%N (digits d')) by (rewrite <- H; now left).
    apply digits_range in Hin. lia.
  - injection H as H. f_equal. now apply digits_inj.
Qed.

Lemma numToString_no_dash (z : Z) : 0 <= z -> ~ In 45%N (numToString z).
Proof.
  intros Hz Hin. unfold numToString in Hin.
  destruct z as [|p|p]; [| |lia].
  - cbn in Hin. destruct Hin as [F|[]]. discriminate.
  - change (In 45%N (digits (Pos.to_uint p))) in Hin.
    apply digits_range in Hin. lia.
Qed.

(** Two strings that agree up to the first dash agree before it. *)
Lemma before_dash (a b r r' : jsstring) :
  ~ In 45%N a -> ~ In 45%N b ->
  a ++ 45%N :: r = b ++ 45%N :: r' -> a = b.
Proof.
  revert b. induction a as [|x a IH]; intros [|y b] Ha Hb H; cbn in H.
  - reflexivity.
  - injection H as H _. exfalso. apply Hb. now left.
  - injection H as H _. exfalso. apply Ha. now left.
  - injection H as -> H. f_equal. apply IH; try assumption.
    + intros F. apply Ha. now right.
    + intros F. apply Hb. now right.
Qed.

Variable now : nat -> Z.

(** Chunks that carry their position as index, and an [id] made of one
    prefix, the index, a dash and a reading of the clock, have distinct
    [id]s. *)
Lemma ids_distinct (prefix : jsstring) (cs : list Chunk.t) :
  (forall k c, nth_error cs k = Some c -> Chunk.index c = Z.of_nat k) ->
  (forall c, In c cs ->
     exists tick,
       Chunk.id c
       = prefix ++ numToString (Chunk.index c) ++ lit "-"
           ++ numToString (now tick)) ->
  forall j k a b,
    nth_error cs j = Some a -> nth_error cs k = Some b -> j <> k ->
    Chunk.id a <> Chunk.id b.
Proof.
  intros Hidx Hid j k a b Ha Hb Hjk E.
  destruct (Hid a (nth_error_In _ _ Ha)) as (ta & Ea).
  destruct (Hid b (nth_error_In _ _ Hb)) as (tb & Eb).
  rewrite Ea, Eb in E. apply app_inv_head in E.
  rewrite (Hidx j a Ha), (Hidx k b Hb) in E.
  apply before_dash in E; try (apply numToString_no_dash; lia).
  apply numToString_inj in E. lia.
Qed.

Lemma fixedLoop_ids (text : jsstring) (chunkSize step : Z) (fuel : nat) :
  forall start index ticks cs t,
    fixedLoop now fuel text chunkSize step start index ticks = Ret (cs, t) ->
    forall c, In c cs ->
      exists tick,
        Chunk.id c
        = lit "chunk-" ++ numToString (Chunk.index c) ++ lit "-"
            ++ numToString (now tick).
Proof.
  induction fuel as [|fuel IH]; intros start index ticks cs t E c Hc;
    cbn [fixedLoop] in E; destruct (start <? len text);
    try discriminate; try (injection E as <- <-; destruct Hc).
  destruct (fixedLoop now fuel text chunkSize step (start + step) (index + 1)
              (S ticks)) as [[cs' t']| |] eqn:E'; cbn in E; try discriminate.
  injection E as <- <-. destruct Hc as [<-|Hc].
  - exists ticks. reflexivity.
  - exact (IH _ _ _ _ _ E' c Hc).
Qed.

Lemma recChunks_ids (cs : list jsstring) :
  forall i ticks c,
    In c (fst (recChunks now cs i ticks)) ->
    exists tick,
      Chunk.id c
      = lit "rec-chunk-" ++ numToString (Chunk.index c) ++ lit "-"
          ++ numToString (now tick).
Proof.
  induction cs as [|x cs IH]; intros i ticks c; cbn [recChunks]; [intros []|].
  specialize (IH (i + 1) (S ticks) c).
  destruct (recChunks now cs (i + 1) (S ticks)) as [rest t]. cbn [fst] in *.
  intros [<-|H]; [exists ticks; reflexivity | now apply IH].
Qed.

Lemma generateRecursiveChunks_ids (fuel : nat) (text : jsstring)
    (config : ChunkingConfig) (ticks : nat) (cs : list Chunk.t) (t : nat) :
  generateRecursiveChunks now fuel text config ticks = Ret (cs, t) ->
  forall c, In c cs ->
    exists tick,
      Chunk.id c
      = lit "rec-chunk-" ++ numToString (Chunk.index c) ++ lit "-"
          ++ numToString (now tick).
Proof.
  unfold generateRecursiveChunks.
  destruct (recurse fuel _ _ _ text) as [segs| |]; cbn [bind];
    try discriminate.
  intros R c Hc. injection R as R.
  apply (recChunks_ids
           (List.filter notBlank
              (pack (chunkSize config) (chunkOverlap config) segs []))
           0 ticks c).
  now rewrite R.
Qed.

Context {Num : Type}.
Variable JSON_stringify : JValue Num -> jsstring.

Lemma addChunk_ids (content : jsstring) (st : JsonState) :
  (forall c, In c (chunks st) ->
     exists tick,
       Chunk.id c
       = lit "json-chunk-" ++ numToString (Chunk.index c) ++ lit "-"
           ++ numToString (now tick)) ->
  forall c, In c (chunks (addChunk now content st)) ->
    exists tick,
      Chunk.id c
      = lit "json-chunk-" ++ numToString (Chunk.index c) ++ lit "-"
          ++ numToString (now tick).
Proof.
  intros H c Hc. unfold addChunk in Hc. cbn [chunks] in Hc.
  apply in_app_or in Hc as [Hc|[<-|[]]]; [now apply H|].
  exists (ticks st). reflexivity.
Qed.

End Ids.

(** X17. In the sequence returned by one call of the fixed, recursive,
    markdown or JSON chunker, no two chunks have the same [id], whatever
    the clock shows, also when it stands still. *)
Theorem chunk_ids_are_distinct :
  forall (Num : Type) (now : nat -> Z)
         (JSON_parse : jsstring -> JsError + JValue Num)
         (JSON_stringify : JValue Num -> jsstring)
         (fuel : nat) (text : jsstring) (config : ChunkingConfig)
         (ticks : nat) (cs : list Chunk.t) (t : nat),
    generateFixedSizeChunks now fuel text config ticks = Ret (cs, t)
    \/ generateRecursiveChunks now fuel text config ticks = Ret (cs, t)
    \/ generateMarkdownChunks now fuel text config ticks = Ret (cs, t)
    \/ generateJsonChunks now JSON_parse JSON_stringify fuel text config ticks
       = Ret (cs, t) ->
    forall j k a b,
      nth_error cs j = Some a -> nth_error cs k = Some b -> j <> k ->
      Chunk.id a <> Chunk.id b.
Proof.
  intros Num now JSON_parse JSON_stringify fuel text config ticks cs t H.
  assert (Hrec : generateRecursiveChunks now fuel text config ticks
                 = Ret (cs, t) ->
                 forall j k a b,
                   nth_error cs j = Some a -> nth_error cs k = Some b ->
                   j <> k -> Chunk.id a <> Chunk.id b).
  { intros R. apply (ids_distinct now (lit "rec-chunk-")).
    - intros k c Hk.
      now destruct (generateRecursiveChunks_numbered now fuel text config
                      ticks cs t R k c Hk).
    - exact (generateRecursiveChunks_ids now fuel text config ticks cs t R). }
  destruct H as [H|[H|[H|H]]]; try exact (Hrec H).
  - apply (ids_distinct now (lit "chunk-")).
    + intros k c Hk.
      now destruct (generateFixedSizeChunks_numbered now fuel text config
                      ticks cs t H k c Hk).
    + unfold generateFixedSizeChunks in H.
      destruct (chunkSize config <=? 0).
      * injection H as <- _. intros c [].
      * exact (fixedLoop_ids now text _ _ fuel _ _ _ _ _ H).
  - destruct (JSON_parse text) as [e|data] eqn:Hparse.
    + apply Hrec. unfold generateJsonChunks in H. now rewrite Hparse in H.
    + apply (ids_distinct now (lit "json-chunk-")).
      * intros k c Hk.
        now destruct (generateJsonChunks_numbered now JSON_stringify
                        JSON_parse fuel text config ticks cs t H k c Hk).
      * unfold generateJsonChunks in H. rewrite Hparse in H.
        destruct (processValue now JSON_stringify fuel config data _)
          as [st'| |] eqn:E; cbn [bind] in H; try discriminate.
        injection H as <- <-.
        refine (processValue_keeps now JSON_stringify
                 (fun st => forall c, In c (chunks st) ->
                    exists tick,
                      Chunk.id c
                      = lit "json-chunk-" ++ numToString (Chunk.index c)
                          ++ lit "-" ++ numToString (now tick))
                 (addChunk_ids now) (fun st u Hst => Hst)
                 fuel config data _ st' _ E).
        intros c [].
Qed.

Lemma chunk_ids_are_distinct_witness :
  Chunk.id (Chunk.mk (lit "chunk-0-0") (lit "ab") 0 2 1)
  <> Chunk.id (Chunk.mk (lit "chunk-1-0") (lit "c") 1 1 1).
Proof.
  apply (chunk_ids_are_distinct Z (Platform.frozen 0) Platform.parseNothing
           Platform.stringify 3 (lit "abc")
           {| chunkSize := 2; chunkOverlap := 0; separators := [] |} 0%nat
           [Chunk.mk (lit "chunk-0-0") (lit "ab") 0 2 1;
            Chunk.mk (lit "chunk-1-0") (lit "c") 1 1 1] 2%nat)
    with (j := 0%nat) (k := 1%nat).
  - left. vm_compute. reflexivity.
  - reflexivity.
  - reflexivity.
  - discriminate.
Defined.

(** ** The statistics of the Visualizer *)

Section Statistics.

Lemma roundDiv_pos (n d : Z) :
  0 < d -> roundDiv n d = (2 * n + d) / (2 * d).
Proof.
  intros Hd. destruct d as [|p|p]; try lia.
  unfold roundDiv, Qfloor, Qplus, Qdiv, Qmult, Qinv, inject_Z.
  cbn [Qnum Qden]. rewrite Pos.mul_1_l, Pos2Z.inj_mul. f_equal; lia.
Qed.

Lemma minOf_le (xs : list Z) :
  forall x, minOf x xs <= x /\ Forall (fun y => minOf x xs <= y) xs.
Proof.
  unfold minOf. induction xs as [|y xs IH]; intros x; cbn [fold_left].
  - split; [lia | constructor].
  - destruct (IH (Z.min x y)) as [H1 H2]. split; [lia|].
    constructor; [lia | exact H2].
Qed.

Lemma maxOf_ge (xs : list Z) :
  forall x, x <= maxOf x xs /\ Forall (fun y => y <= maxOf x xs) xs.
Proof.
  unfold maxOf. induction xs as [|y xs IH]; intros x; cbn [fold_left].
  - split; [lia | constructor].
  - destruct (IH (Z.max x y)) as [H1 H2]. split; [lia|].
    constructor; [lia | exact H2].
Qed.

Lemma minOf_In (xs : list Z) : forall x, In (minOf x xs) (x :: xs).
Proof.
  unfold minOf. induction xs as [|y xs IH]; intros x; cbn [fold_left].
  - now left.
  - destruct (IH (Z.min x y)) as [H|H]; [|now right; right].
    destruct (Z.min_spec x y) as [[_ E]|[_ E]]; rewrite E in *;
      [now left | now right; left].
Qed.

Lemma maxOf_In (xs : list Z) : forall x, In (maxOf x xs) (x :: xs).
Proof.
  unfold maxOf. induction xs as [|y xs IH]; intros x; cbn [fold_left].
  - now left.
  - destruct (IH (Z.max x y)) as [H|H]; [|now right; right].
    destruct (Z.max_spec x y) as [[_ E]|[_ E]]; rewrite E in *;
      [now right; left | now left].
Qed.

(** A sum of lengths lies between the number of chunks times a lower
    bound and times an upper bound of the lengths. *)
Lemma sum_lengths_between (lo hi : Z) (chunks : list Chunk.t) :
  Forall (fun c => lo <= Chunk.length c <= hi) chunks ->
  forall acc,
    acc + Z.of_nat (List.length chunks) * lo
    <= fold_left (fun a c => a + Chunk.length c) chunks acc
    <= acc + Z.of_nat (List.length chunks) * hi.
Proof.
  induction 1 as [|c chunks Hc _ IH]; intros acc; cbn [fold_left List.length].
  - lia.
  - specialize (IH (acc + Chunk.length c)). lia.
Qed.

Lemma totalTokens_sum (chunks : list Chunk.t) :
  totalTokens chunks
  = fold_right (fun c acc => Chunk.tokenCount c + acc) 0 chunks.
Proof.
  unfold totalTokens.
  assert (E : forall acc,
             fold_left
               (fun a c =>
                  a + (if Chunk.tokenCount c =? 0 then 0
                       else Chunk.tokenCount c)) chunks acc
             = acc + fold_right (fun c a => Chunk.tokenCount c + a) 0 chunks).
  { induction chunks as [|c chunks IH]; intros acc; cbn [fold_left fold_right];
      [lia|]. rewrite IH.
    destruct (Z.eqb_spec (Chunk.tokenCount c) 0) as [->|_]; lia. }
  destruct chunks as [|c chunks]; [reflexivity|].
  replace (Z.of_nat (List.length (c :: chunks)) >? 0) with true
    by (cbn; reflexivity).
  now rewrite E.
Qed.

End Statistics.

(** X18. For a list of chunks that is not empty and that the engine
    accepts as the arguments of one call, the figures of the Visualizer
    are in order: [minSize <= avgSize <= maxSize]; [minSize] and
    [maxSize] are the lengths of chunks of the list, and the length of
    every chunk lies between them. For a longer list [Math.min] and
    [Math.max] throw and there is no figure. *)
Theorem visualizer_sizes_in_order :
  forall (argLimit : nat) (chunks : list Chunk.t),
    chunks <> [] ->
    if (List.length chunks <=? argLimit)%nat
    then exists lo hi,
        minSize argLimit chunks = Some lo
        /\ maxSize argLimit chunks = Some hi
        /\ lo <= avgSize chunks <= hi
        /\ In lo (List.map Chunk.length chunks)
        /\ In hi (List.map Chunk.length chunks)
        /\ forall c, In c chunks -> lo <= Chunk.length c <= hi
    else minSize argLimit chunks = None /\ maxSize argLimit chunks = None.
Proof.
  intros argLimit [|c0 chunks] Hne; [contradiction|]. clear Hne.
  unfold minSize, maxSize, avgSize.
  replace (Z.of_nat (List.length (c0 :: chunks)) >? 0) with true
    by (cbn; reflexivity).
  cbn [List.map].
  replace (List.length (Chunk.length c0 :: List.map Chunk.length chunks))
    with (List.length (c0 :: chunks)) by (cbn; now rewrite length_map).
  destruct (List.length (c0 :: chunks) <=? argLimit)%nat; [|now split].
  set (x := Chunk.length c0). set (xs := List.map Chunk.length chunks).
  exists (minOf x xs), (maxOf x xs).
  split; [reflexivity|]. split; [reflexivity|].
  destruct (minOf_le xs x) as [Hm0 Hm]. destruct (maxOf_ge xs x) as [HM0 HM].
  assert (Hall : forall c, In c (c0 :: chunks) ->
                   minOf x xs <= Chunk.length c <= maxOf x xs).
  { intros c [<-|Hc]; [fold x; lia|].
    rewrite Forall_forall in Hm, HM.
    assert (Hin : In (Chunk.length c) xs) by (unfold xs; now apply in_map).
    split; [now apply Hm | now apply HM]. }
  split; [|split; [apply minOf_In | split; [apply maxOf_In | exact Hall]]].
  rewrite roundDiv_pos by (cbn [List.length]; lia).
  pose proof (sum_lengths_between (minOf x xs) (maxOf x xs) (c0 :: chunks)
                ltac:(apply Forall_forall; exact Hall) 0) as Hsum.
  set (n := Z.of_nat (List.length (c0 :: chunks))) in *.
  assert (Hn : 0 < n) by (unfold n; cbn [List.length]; lia).
  set (sum := fold_left (fun a c => a + Chunk.length c) (c0 :: chunks) 0) in *.
  split.
  - apply Z.div_le_lower_bound; nia.
  - apply Z.lt_succ_r. apply Z.div_lt_upper_bound; nia.
Qed.

Lemma visualizer_sizes_in_order_witness :
  exists lo hi,
    minSize 1000 [Chunk.mk (lit "chunk-0-0") (lit "ab") 0 2 1;
                   Chunk.mk (lit "chunk-1-0") (lit "c") 1 1 1] = Some lo
    /\ maxSize 1000 [Chunk.mk (lit "chunk-0-0") (lit "ab") 0 2 1;
                      Chunk.mk (lit "chunk-1-0") (lit "c") 1 1 1] = Some hi
    /\ lo <= avgSize [Chunk.mk (lit "chunk-0-0") (lit "ab") 0 2 1;
                      Chunk.mk (lit "chunk-1-0") (lit "c") 1 1 1] <= hi
    /\ In lo (List.map Chunk.length
                 [Chunk.mk (lit "chunk-0-0") (lit "ab") 0 2 1;
                  Chunk.mk (lit "chunk-1-0") (lit "c") 1 1 1])
    /\ In hi (List.map Chunk.length
                 [Chunk.mk (lit "chunk-0-0") (lit "ab") 0 2 1;
                  Chunk.mk (lit "chunk-1-0") (lit "c") 1 1 1])
    /\ forall c,
         In c [Chunk.mk (lit "chunk-0-0") (lit "ab") 0 2 1;
               Chunk.mk (lit "chunk-1-0") (lit "c") 1 1 1] ->
         lo <= Chunk.length c <= hi.
Proof.
  apply (visualizer_sizes_in_order 1000
           [Chunk.mk (lit "chunk-0-0") (lit "ab") 0 2 1;
            Chunk.mk (lit "chunk-1-0") (lit "c") 1 1 1]).
  discriminate.
Defined.

(** ** The total of the token counts of a fixed-window result *)

Section TotalTokens.

Lemma estimate_app_le (a b : jsstring) :
  estimateTokenCount (a ++ b) <= estimateTokenCount a + estimateTokenCount b.
Proof.
  rewrite !estimateTokenCount_eq, cjkChars_app, otherChars_app.
  pose proof (ceilDiv_4_bounds (otherChars a)).
  pose proof (ceilDiv_4_bounds (otherChars b)).
  pose proof (ceilDiv_4_bounds (otherChars a + otherChars b)).
  lia.
Qed.

Lemma estimate_prefix_le (a b : jsstring) :
  estimateTokenCount a <= estimateTokenCount (a ++ b).
Proof.
  rewrite !estimateTokenCount_eq, cjkChars_app, otherChars_app.
  pose proof (ceilDiv_4_bounds (otherChars a)).
  pose proof (ceilDiv_4_bounds (otherChars a + otherChars b)).
  pose proof (cjkChars_nonneg b). pose proof (otherChars_nonneg b).
  lia.
Qed.

(** A window and what follows its first [step] characters estimate at
    least as much as the whole, when the step is within the window. *)
Lemma estimate_window (X : jsstring) (m step : nat) :
  (step <= m \/ List.length X <= m)%nat ->
  estimateTokenCount X
  <= estimateTokenCount (firstn m X) + estimateTokenCount (skipn step X).
Proof.
  intros H.
  assert (Hpre : exists r, firstn m X = firstn step X ++ r).
  { destruct H as [H|H].
    - exists (skipn step (firstn m X)).
      rewrite <- (firstn_skipn step (firstn m X)) at 1. f_equal.
      rewrite firstn_firstn. f_equal. lia.
    - exists (skipn step X). rewrite firstn_all2 by assumption.
      now rewrite firstn_skipn. }
  destruct Hpre as (r & ->).
  pose proof (estimate_prefix_le (firstn step X) r).
  pose proof (estimate_app_le (firstn step X) (skipn step X)) as Hs.
  rewrite firstn_skipn in Hs. lia.
Qed.

Variable now : nat -> Z.

Lemma fixedLoop_tokens (text : jsstring) (chunkSize step : Z) (fuel : nat) :
  0 < step <= chunkSize ->
  forall start index ticks cs t,
    0 <= start ->
    fixedLoop now fuel text chunkSize step start index ticks = Ret (cs, t) ->
    estimateTokenCount (skipn (Z.to_nat start) text)
    <= fold_right (fun c acc => Chunk.tokenCount c + acc) 0 cs.
Proof.
  intros Hstep. induction fuel as [|fuel IH]; intros start index ticks cs t H0 E;
    cbn [fixedLoop] in E; destruct (Z.ltb_spec start (len text)) as [Hlt|Hge];
    try discriminate;
    try (injection E as <- <-; rewrite skipn_all2 by (unfold len in Hge; lia);
         reflexivity).
  destruct (fixedLoop now fuel text chunkSize step (start + step) (index + 1)
              (S ticks)) as [[cs' t']| |] eqn:E'; cbn in E; try discriminate.
  injection E as <- <-. cbn [fold_right Chunk.tokenCount].
  pose proof (IH (start + step) _ _ _ _ ltac:(lia) E') as Hrest.
  pose proof (len_nonneg text) as Hl.
  rewrite slice_nonneg by lia.
  replace (Z.to_nat (start + step))
    with (Z.to_nat step + Z.to_nat start)%nat in Hrest by lia.
  rewrite <- skipn_skipn in Hrest.
  set (X := skipn (Z.to_nat start) text) in *.
  pose proof (estimate_window X
                (Z.to_nat (Z.min (start + chunkSize) (len text))
                 - Z.to_nat start) (Z.to_nat step)) as Hw.
  assert (HX : List.length X = (List.length text - Z.to_nat start)%nat)
    by (unfold X; apply length_skipn).
  assert (Hd : (Z.to_nat step
                <= Z.to_nat (Z.min (start + chunkSize) (len text))
                   - Z.to_nat start)%nat
               \/ (List.length X
                   <= Z.to_nat (Z.min (start + chunkSize) (len text))
                      - Z.to_nat start)%nat).
  { unfold len in *. clearbody X.
    destruct (Z.le_gt_cases (start + chunkSize) (Z.of_nat (List.length text)));
      [left | right]; lia. }
  specialize (Hw Hd). lia.
Qed.

End TotalTokens.

(** X19. With [chunkSize > 0] and [chunkOverlap >= 0], the total the
    Visualizer shows for the chunks of [generateFixedSizeChunks] is the
    sum of their token counts and is never below the estimate of
    [estimateTokenCount] for the whole text. *)
Theorem fixed_total_tokens_cover_text :
  forall (now : nat -> Z) (fuel : nat) (text : jsstring)
         (config : ChunkingConfig) (ticks : nat)
         (cs : list Chunk.t) (t : nat),
    0 < chunkSize config ->
    0 <= chunkOverlap config ->
    generateFixedSizeChunks now fuel text config ticks = Ret (cs, t) ->
    totalTokens cs
    = fold_right (fun c acc => Chunk.tokenCount c + acc) 0 cs
    /\ estimateTokenCount text <= totalTokens cs.
Proof.
  intros now fuel text config ticks cs t Hs Ho R.
  split; [apply totalTokens_sum|]. rewrite totalTokens_sum.
  destruct (generateFixedSizeChunks_loop now fuel text config ticks Hs)
    as [E Hstep]. cbv zeta in E. rewrite E in R.
  exact (fixedLoop_tokens now text (chunkSize config)
           (chunkSize config
            - Z.min (chunkOverlap config) (chunkSize config - 1)) fuel
           ltac:(lia) 0 0 ticks cs t ltac:(lia) R).
Qed.

Lemma fixed_total_tokens_cover_text_witness :
  totalTokens [Chunk.mk (lit "chunk-0-0") (lit "abcd") 0 4 1;
               Chunk.mk (lit "chunk-1-0") (lit "cdef") 1 4 1;
               Chunk.mk (lit "chunk-2-0") (lit "ef") 2 2 1]
  = fold_right (fun c acc => Chunk.tokenCount c + acc) 0
      [Chunk.mk (lit "chunk-0-0") (lit "abcd") 0 4 1;
       Chunk.mk (lit "chunk-1-0") (lit "cdef") 1 4 1;
       Chunk.mk (lit "chunk-2-0") (lit "ef") 2 2 1]
  /\ estimateTokenCount (lit "abcdef")
     <= totalTokens [Chunk.mk (lit "chunk-0-0") (lit "abcd") 0 4 1;
                     Chunk.mk (lit "chunk-1-0") (lit "cdef") 1 4 1;
                     Chunk.mk (lit "chunk-2-0") (lit "ef") 2 2 1].
Proof.
  apply (fixed_total_tokens_cover_text (Platform.frozen 0) 6 (lit "abcdef")
           {| chunkSize := 4; chunkOverlap := 2; separators := [] |} 0%nat
           _ 3%nat).
  - cbn. lia.
  - cbn. lia.
  - vm_compute. reflexivity.
Defined.

(** ** Phase B: the overlap between units *)

Section UnitsOverlap.

Variables chunkSize chunkOverlap : Z.

(** The first unit closed begins with the unit under construction. *)
Lemma pack_head (segments : list jsstring) :
  forall currentUnit u us,
    pack chunkSize chunkOverlap segments currentUnit = u :: us ->
    exists r, u = currentUnit ++ r.
Proof.
  induction segments as [|segment rest IH]; intros cur u us E;
    cbn [pack] in E.
  - destruct (len cur >? 0); [|discriminate].
    injection E as <- _. exists []. now rewrite app_nil_r.
  - assert (Hplain : pack chunkSize chunkOverlap rest (cur ++ segment)
                     = u :: us -> exists r, u = cur ++ r).
    { intros E'. destruct (IH _ _ _ E') as (r & ->).
      exists (segment ++ r). now rewrite app_assoc. }
    destruct (len cur + len segment >? chunkSize); [|now apply Hplain].
    destruct (len cur >? 0); [|now apply Hplain].
    injection E as <- _. exists []. now rewrite app_nil_r.
Qed.

Lemma pack_consecutive (segments : list jsstring) :
  forall currentUnit k u v,
    nth_error (pack chunkSize chunkOverlap segments currentUnit) k = Some u ->
    nth_error (pack chunkSize chunkOverlap segments currentUnit) (S k)
    = Some v ->
    exists rest,
      v = sliceFrom u (Z.max 0 (len u - chunkOverlap)) ++ rest.
Proof.
  induction segments as [|segment rest IH]; intros cur k u v Hu Hv;
    cbn [pack] in Hu, Hv.
  - destruct (len cur >? 0); destruct k; cbn in Hv; discriminate.
  - destruct (len cur + len segment >? chunkSize);
      [|exact (IH _ _ _ _ Hu Hv)].
    destruct (len cur >? 0); [|exact (IH _ _ _ _ Hu Hv)].
    destruct k as [|k]; cbn [nth_error] in Hu, Hv.
    + injection Hu as <-.
      destruct (pack chunkSize chunkOverlap rest
                  (sliceFrom cur (Z.max 0 (len cur - chunkOverlap)) ++ segment))
        as [|w ws] eqn:E; [discriminate|].
      injection Hv as <-. destruct (pack_head _ _ _ _ E) as (r & ->).
      exists (segment ++ r). now rewrite app_assoc.
    + exact (IH _ _ _ _ Hu Hv).
Qed.

End UnitsOverlap.

(** X20. Of two units that Phase B closes one after the other, the
    second begins with the end of the first: with the characters of the
    first from position [max 0 (length - chunkOverlap)] on, which are
    its last [chunkOverlap] characters, or all of it when it is
    shorter. *)
Theorem units_begin_with_the_overlap :
  forall (chunkSize chunkOverlap : Z) (segments : list jsstring)
         (k : nat) (u v : jsstring),
    nth_error (pack chunkSize chunkOverlap segments []) k = Some u ->
    nth_error (pack chunkSize chunkOverlap segments []) (S k) = Some v ->
    exists rest,
      v = sliceFrom u (Z.max 0 (len u - chunkOverlap)) ++ rest.
Proof.
  intros chunkSize chunkOverlap segments k u v.
  apply pack_consecutive.
Qed.

Lemma units_begin_with_the_overlap_witness :
  exists rest,
    lit "b cd " = sliceFrom (lit "ab ") (Z.max 0 (len (lit "ab ") - 2)) ++ rest.
Proof.
  apply (units_begin_with_the_overlap 4 2 [lit "ab "; lit "cd "; lit "ef"]
           0%nat (lit "ab ") (lit "b cd ")).
  - reflexivity.
  - reflexivity.
Defined.



(** ** Without separators and overlap, the recursive chunker is the
    fixed-window chunker *)

Section RecursiveAsFixed.

Variable now : nat -> Z.
Variable text : jsstring.
Variable chunkSize : Z.
Hypothesis chunkSize_pos : 0 < chunkSize.

(** The hard split without overlap pushes the contents of the fixed
    windows of step [chunkSize]. *)
Lemma hardSplit_is_fixedLoop (fuel : nat) :
  forall i index ticks,
    0 <= i ->
    hardSplit fuel text chunkSize 0 i
    = (r <- fixedLoop now fuel text chunkSize chunkSize i index ticks ;;
       Ret (contents (fst r))).
Proof.
  induction fuel as [|fuel IH]; intros i index ticks Hi;
    cbn [hardSplit fixedLoop]; destruct (i <? len text); try reflexivity.
  rewrite Z.sub_0_r.
  rewrite (IH (i + chunkSize) (index + 1) (S ticks)) by lia.
  destruct (fixedLoop now fuel text chunkSize chunkSize (i + chunkSize)
              (index + 1) (S ticks)) as [[cs t]| |]; try reflexivity.
  cbn [bind fst contents List.map Chunk.content]. do 2 f_equal.
  symmetry. apply slice_min_end; lia.
Qed.

(** Windows that are full, but for the last, are not merged by Phase B:
    each one closes the one before it. *)
Lemma pack_full_windows (W : list jsstring) :
  forall w,
    (forall k x, nth_error (w :: W) k = Some x ->
                 1 <= len x <= chunkSize
                 /\ ((S k < List.length (w :: W))%nat -> len x = chunkSize)) ->
    pack chunkSize 0 W w = w :: W.
Proof.
  induction W as [|w' W IH]; intros w H; cbn [pack].
  - destruct (H 0%nat w eq_refl) as [Hw _].
    destruct (Z.gtb_spec (len w) 0); [reflexivity | lia].
  - destruct (H 0%nat w eq_refl) as [Hw Hfull].
    specialize (Hfull ltac:(cbn [List.length]; lia)).
    destruct (H 1%nat w' eq_refl) as [Hw' _].
    destruct (Z.gtb_spec (len w + len w') chunkSize); [|lia].
    destruct (Z.gtb_spec (len w) 0); [|lia].
    f_equal.
    replace (sliceFrom w (Z.max 0 (len w - 0))) with (@nil unit16).
    + cbn [app]. apply IH. intros k x Hk.
      destruct (H (S k) x Hk) as [Hx Hf]. split; [exact Hx|].
      intros Hlt. apply Hf. cbn [List.length] in *. lia.
    + rewrite sliceFrom_nonneg by lia. rewrite skipn_all2; [reflexivity|].
      unfold len in *. lia.
Qed.

(** The contents of the fixed windows of step [chunkSize] are full, but
    for the last. *)
Lemma fixedLoop_full_windows (fuel : nat) (cs : list Chunk.t) (t ticks : nat) :
  fixedLoop now fuel text chunkSize chunkSize 0 0 ticks = Ret (cs, t) ->
  forall k x,
    nth_error (contents cs) k = Some x ->
    1 <= len x <= chunkSize
    /\ ((S k < List.length (contents cs))%nat -> len x = chunkSize).
Proof.
  intros R k x Hk. unfold contents in Hk.
  rewrite nth_error_map in Hk.
  destruct (nth_error cs k) as [c|] eqn:Hc; [|discriminate].
  injection Hk as <-.
  destruct (fixedLoop_nth now text chunkSize chunkSize fuel _ _ _ _ _ R k c Hc)
    as (Hlt & Hcont & _). cbv zeta in Hlt, Hcont.
  rewrite Z.add_0_l in Hlt, Hcont.
  pose proof (len_nonneg text) as Hl.
  rewrite Hcont, len_slice_nonneg by nia. split; [nia|].
  unfold contents. rewrite length_map. intros Hnext.
  apply (fixedLoop_length now text chunkSize chunkSize chunkSize_pos
           fuel 0 0 ticks cs t R (S k)) in Hnext.
  nia.
Qed.

Lemma pack_fixed_windows (fuel : nat) (cs : list Chunk.t) (t ticks : nat) :
  fixedLoop now fuel text chunkSize chunkSize 0 0 ticks = Ret (cs, t) ->
  pack chunkSize 0 (contents cs) [] = contents cs.
Proof.
  intros R. pose proof (fixedLoop_full_windows fuel cs t ticks R) as H.
  destruct (contents cs) as [|w W]; [reflexivity|]. cbn [pack].
  destruct (H 0%nat w eq_refl) as [Hw _]. rewrite len_nil, Z.add_0_l.
  destruct (Z.gtb_spec (len w) chunkSize); [lia|].
  cbn [app]. now apply pack_full_windows.
Qed.

End RecursiveAsFixed.

(** X22. With no separator, no overlap and [chunkSize > 0],
    [generateRecursiveChunks] returns the chunks of
    [generateFixedSizeChunks] less the blank ones: both return, and the
    contents of the recursive chunks are the contents of the fixed
    windows that are not white space only, in order. *)
Theorem recursive_without_separators_is_fixed :
  forall (now : nat -> Z) (fuel : nat) (text : jsstring)
         (config : ChunkingConfig) (ticks : nat),
    separators config = [] ->
    chunkOverlap config = 0 ->
    0 < chunkSize config ->
    len text <= Z.of_nat fuel ->
    exists cf t1 cr t2,
      generateFixedSizeChunks now fuel text config ticks = Ret (cf, t1)
      /\ generateRecursiveChunks now fuel text config ticks = Ret (cr, t2)
      /\ contents cr = List.filter notBlank (contents cf).
Proof.
  intros now fuel text config ticks Hseps Hov Hs Hf.
  destruct (generateFixedSizeChunks_loop now fuel text config ticks Hs)
    as [E _]. cbv zeta in E. rewrite Hov, Z.min_l, Z.sub_0_r in E by lia.
  destruct (fixedLoop_returns now text (chunkSize config) (chunkSize config)
              Hs fuel 0 0 ticks ltac:(lia)) as (cf & t1 & R).
  assert (EA : exists segs,
             recurse fuel (chunkSize config) 0 [] text = Ret segs
             /\ pack (chunkSize config) 0 segs [] = contents cf).
  { cbn [recurse].
    destruct (Z.leb_spec (len text) (chunkSize config)) as [Hfit|Hbig].
    - exists [text]. split; [reflexivity|].
      (* one window at most *)
      pose proof (fixedLoop_length now text _ _ Hs fuel 0 0 ticks cf t1 R)
        as Hlen.
      pose proof (len_nonneg text) as Hl.
      cbn [pack app]. rewrite len_nil, Z.add_0_l.
      destruct (Z.gtb_spec (len text) (chunkSize config)); [lia|].
      destruct cf as [|c [|c' cf]].
      + destruct (Z.gtb_spec (len text) 0) as [Hpos|_]; [|reflexivity].
        exfalso. apply (Nat.lt_irrefl 0). apply (Hlen 0%nat). lia.
      + destruct (fixedLoop_nth now text _ _ fuel _ _ _ _ _ R 0%nat c eq_refl)
          as (Hlt & Hc & _). cbv zeta in Hlt, Hc. cbn in Hlt.
        destruct (Z.gtb_spec (len text) 0); [|lia].
        cbn [contents List.map]. f_equal. rewrite Hc. cbn [Z.of_nat Z.mul Z.add].
        rewrite Z.min_r by lia. rewrite slice_nonneg by lia.
        cbn [Z.to_nat skipn]. rewrite Nat.sub_0_r.
        symmetry. apply firstn_all2. unfold len. lia.
      + exfalso.
        assert (H1 : (1 < List.length (c :: c' :: cf))%nat)
          by (cbn [List.length]; lia).
        apply Hlen in H1. lia.
    - rewrite (hardSplit_is_fixedLoop now text (chunkSize config) Hs fuel
                 0 0 ticks ltac:(lia)).
      rewrite R. cbn [bind fst]. eexists. split; [reflexivity|].
      exact (pack_fixed_windows now text (chunkSize config) Hs fuel cf t1
               ticks R). }
  destruct EA as (segs & EA & Hpack).
  pose proof (recChunks_contents now (List.filter notBlank (contents cf))
                0 ticks) as Hcs.
  destruct (recChunks now (List.filter notBlank (contents cf)) 0 ticks)
    as [cr t2] eqn:EB. cbn [fst] in Hcs.
  exists cf, t1, cr, t2. split; [congruence|]. split; [|exact Hcs].
  unfold generateRecursiveChunks. rewrite Hseps, Hov, EA. cbn [bind].
  rewrite Hpack. now rewrite EB.
Qed.

Lemma recursive_without_separators_is_fixed_witness :
  exists cf t1 cr t2,
    generateFixedSizeChunks (Platform.frozen 0) 5 (lit "a   b")
      {| chunkSize := 2; chunkOverlap := 0; separators := [] |} 0%nat
    = Ret (cf, t1)
    /\ generateRecursiveChunks (Platform.frozen 0) 5 (lit "a   b")
         {| chunkSize := 2; chunkOverlap := 0; separators := [] |} 0%nat
       = Ret (cr, t2)
    /\ contents cr = List.filter notBlank (contents cf).
Proof.
  apply (recursive_without_separators_is_fixed (Platform.frozen 0) 5
           (lit "a   b")
           {| chunkSize := 2; chunkOverlap := 0; separators := [] |} 0%nat).
  - reflexivity.
  - reflexivity.
  - cbn. lia.
  - cbn. lia.
Defined.


(** ** estimateTokenCount counts code units *)

Section CodePoints.

Lemma codePoints_pair (a b : unit16) (s : jsstring) :
  codePoints (a :: b :: s)
  = if isHighSurrogate a && isLowSurrogate b
    then (0x10000 + (a - 0xD800) * 0x400 + (b - 0xDC00))%N :: codePoints s
    else a :: codePoints (b :: s).
Proof. reflexivity. Qed.

(** A string without high surrogate is the list of its own code
    points. *)
Lemma codePoints_no_surrogate (s : jsstring) :
  forallb (fun u => negb (isHighSurrogate u)) s = true ->
  codePoints s = s.
Proof.
  induction s as [| a | a b s IH1 IH2] using pairwise_ind;
    [reflexivity | reflexivity |].
  intros H. cbn [forallb] in H. apply andb_prop in H as [Ha H].
  rewrite codePoints_pair. apply negb_true_iff in Ha. rewrite Ha.
  cbn [andb]. now rewrite IH2.
Qed.

End CodePoints.

(** C4, as the code has it. [estimateTokenCount] returns, for every
    string, the non-negative integer [cjkCount + ceil (otherCount / 4)]
    where the two counts are counts of UTF-16 code units, as the regular
    expression without [u] flag and [text.length] count them: [cjkCount]
    is the number of code units in the CJK ranges, [otherCount] the
    number of the other code units, the two add up to [text.length], and
    the ceiling is the least integer [q] with [otherCount <= 4 q]. When
    the text holds no high surrogate, in particular no character outside
    the Basic Multilingual Plane, these are the counts of characters and
    the result is the formula on code points. It is [0] on the empty
    string, [2] on the two CJK characters U+6D4B U+8BD5, [1] on "abcd"
    and [1] on "abc". *)
Theorem estimateTokenCount_counts_code_units :
  (forall text : jsstring,
      0 <= estimateTokenCount text
      /\ estimateTokenCount text = cjkChars text + ceilDiv (otherChars text) 4
      /\ 4 * (ceilDiv (otherChars text) 4 - 1) < otherChars text
           <= 4 * ceilDiv (otherChars text) 4
      /\ cjkChars text + otherChars text = len text
      /\ (forallb (fun u => negb (isHighSurrogate u)) text = true ->
          estimateTokenCount text
          = cjkCodePoints text + ceilDiv (otherCodePoints text) 4))
  /\ estimateTokenCount [] = 0
  /\ estimateTokenCount [0x6D4B; 0x8BD5]%N = 2
  /\ estimateTokenCount (lit "abcd") = 1
  /\ estimateTokenCount (lit "abc") = 1.
Proof.
  split; [|repeat split; reflexivity].
  intros text. split; [apply estimateTokenCount_nonneg|].
  split; [apply estimateTokenCount_eq|].
  split; [apply ceilDiv_4_bounds|].
  split; [apply cjk_other_total|].
  intros Hbmp. unfold cjkCodePoints, otherCodePoints.
  rewrite (codePoints_no_surrogate text Hbmp). apply estimateTokenCount_eq.
Qed.

Lemma estimateTokenCount_counts_code_units_witness :
  estimateTokenCount [0x61; 0x6D4B; 0x62]%N
  = cjkCodePoints [0x61; 0x6D4B; 0x62]%N
    + ceilDiv (otherCodePoints [0x61; 0x6D4B; 0x62]%N) 4.
Proof.
  apply (proj1 estimateTokenCount_counts_code_units [0x61; 0x6D4B; 0x62]%N).
  reflexivity.
Defined.

(** C4 as it is stated, with characters counted as the specification
    counts them, fails on characters outside the Basic Multilingual
    Plane: three times U+1F600 are three characters, none of them CJK,
    and the formula gives [ceil (3 / 4) = 1]; they are six code units and
    [estimateTokenCount] returns [ceil (6 / 4) = 2]. *)
Lemma three_astral_characters_count_two :
  codePoints [0xD83D; 0xDE00; 0xD83D; 0xDE00; 0xD83D; 0xDE00]%N
  = [0x1F600; 0x1F600; 0x1F600]%N
  /\ cjkCodePoints [0xD83D; 0xDE00; 0xD83D; 0xDE00; 0xD83D; 0xDE00]%N = 0
  /\ otherCodePoints [0xD83D; 0xDE00; 0xD83D; 0xDE00; 0xD83D; 0xDE00]%N = 3
  /\ cjkCodePoints [0xD83D; 0xDE00; 0xD83D; 0xDE00; 0xD83D; 0xDE00]%N
     + ceilDiv
         (otherCodePoints [0xD83D; 0xDE00; 0xD83D; 0xDE00; 0xD83D; 0xDE00]%N) 4
     = 1
  /\ estimateTokenCount [0xD83D; 0xDE00; 0xD83D; 0xDE00; 0xD83D; 0xDE00]%N = 2
  /\ estimateTokenCount [0xD83D; 0xDE00; 0xD83D; 0xDE00; 0xD83D; 0xDE00]%N
     <> cjkCodePoints [0xD83D; 0xDE00; 0xD83D; 0xDE00; 0xD83D; 0xDE00]%N
        + ceilDiv
            (otherCodePoints
               [0xD83D; 0xDE00; 0xD83D; 0xDE00; 0xD83D; 0xDE00]%N) 4.
Proof.
  repeat split; try reflexivity. discriminate.
Qed.

(** ** The clock in the [id] fields *)

Section Stamps.

(** Two ids with the same tag and index are the same exactly when the
    readings of the clock in them are. *)
Lemma stamp_eq (tag : jsstring) (k : Z) (r1 r2 : Z) :
  tag ++ numToString k ++ lit "-" ++ numToString r1
  = tag ++ numToString k ++ lit "-" ++ numToString r2
  <-> r1 = r2.
Proof.
  split; [|now intros ->].
  intros H. apply app_inv_head in H. apply app_inv_head in H.
  injection H as H. now apply numToString_inj.
Qed.

Lemma stamped_ids_agree (now1 now2 : nat -> Z) (tag : jsstring)
    (cs1 cs2 : list Chunk.t) (u1 u2 : nat) :
  stamped now1 tag cs1 u1 -> stamped now2 tag cs2 u2 ->
  forall k a b,
    nth_error cs1 k = Some a -> nth_error cs2 k = Some b ->
    (Chunk.id a = Chunk.id b
     <-> now1 (u1 - List.length cs1 + k)%nat
         = now2 (u2 - List.length cs2 + k)%nat).
Proof.
  intros [_ H1] [_ H2] k a b Ha Hb.
  rewrite (H1 k a Ha), (H2 k b Hb). apply stamp_eq.
Qed.

Variable now : nat -> Z.

Lemma fixedLoop_stamps (text : jsstring) (chunkSize step : Z) (fuel : nat) :
  forall start index ticks cs t',
    fixedLoop now fuel text chunkSize step start index ticks = Ret (cs, t') ->
    t' = (ticks + List.length cs)%nat
    /\ forall k c,
         nth_error cs k = Some c ->
         Chunk.id c
         = lit "chunk-" ++ numToString (index + Z.of_nat k) ++ lit "-"
             ++ numToString (now (ticks + k)%nat).
Proof.
  induction fuel as [|fuel IH]; intros start index ticks cs t' E;
    cbn [fixedLoop] in E; destruct (start <? len text);
    try discriminate;
    try (injection E as <- <-; split;
         [cbn; lia | intros k c Hk; destruct k; discriminate]).
  destruct (fixedLoop now fuel text chunkSize step (start + step) (index + 1)
              (S ticks)) as [[cs' u]| |] eqn:E'; cbn in E; try discriminate.
  injection E as <- <-. destruct (IH _ _ _ _ _ E') as [Ht Hid].
  split; [cbn [List.length]; lia|].
  intros [|k] c Hk; cbn [nth_error] in Hk.
  - injection Hk as <-. cbn [Chunk.id].
    now rewrite Z.add_0_r, Nat.add_0_r.
  - rewrite (Hid k c Hk).
    replace (index + 1 + Z.of_nat k) with (index + Z.of_nat (S k)) by lia.
    replace (S ticks + k)%nat with (ticks + S k)%nat by lia. reflexivity.
Qed.

Lemma generateFixedSizeChunks_stamped (fuel : nat) (text : jsstring)
    (config : ChunkingConfig) (ticks : nat) (cs : list Chunk.t) (t' : nat) :
  generateFixedSizeChunks now fuel text config ticks = Ret (cs, t') ->
  stamped now (lit "chunk-") cs t'.
Proof.
  unfold generateFixedSizeChunks. destruct (chunkSize config <=? 0).
  - intros E. injection E as <- <-. split; [cbn; lia|].
    intros k c Hk. destruct k; discriminate.
  - intros E. destruct (fixedLoop_stamps _ _ _ _ _ _ _ _ _ E) as [-> Hid].
    split; [lia|]. intros k c Hk. rewrite (Hid k c Hk), Z.add_0_l.
    replace (ticks + List.length cs - List.length cs + k)%nat
      with (ticks + k)%nat by lia. reflexivity.
Qed.

Lemma recChunks_stamps (cs : list jsstring) :
  forall i ticks chs t',
    recChunks now cs i ticks = (chs, t') ->
    t' = (ticks + List.length chs)%nat
    /\ forall k c,
         nth_error chs k = Some c ->
         Chunk.id c
         = lit "rec-chunk-" ++ numToString (i + Z.of_nat k) ++ lit "-"
             ++ numToString (now (ticks + k)%nat).
Proof.
  induction cs as [|x cs IH]; intros i ticks chs t' E; cbn [recChunks] in E.
  - injection E as <- <-. split; [cbn; lia|].
    intros k c Hk. destruct k; discriminate.
  - destruct (recChunks now cs (i + 1) (S ticks)) as [rest u] eqn:E'.
    injection E as <- <-. destruct (IH _ _ _ _ E') as [Ht Hid].
    split; [cbn [List.length]; lia|].
    intros [|k] c Hk; cbn [nth_error] in Hk.
    + injection Hk as <-. cbn [Chunk.id].
      now rewrite Z.add_0_r, Nat.add_0_r.
    + rewrite (Hid k c Hk).
      replace (i + 1 + Z.of_nat k) with (i + Z.of_nat (S k)) by lia.
      replace (S ticks + k)%nat with (ticks + S k)%nat by lia. reflexivity.
Qed.

Lemma generateRecursiveChunks_stamped (fuel : nat) (text : jsstring)
    (config : ChunkingConfig) (ticks : nat) (cs : list Chunk.t) (t' : nat) :
  generateRecursiveChunks now fuel text config ticks = Ret (cs, t') ->
  stamped now (lit "rec-chunk-") cs t'.
Proof.
  unfold generateRecursiveChunks.
  destruct (recurse fuel _ _ _ text) as [segs| |]; cbn [bind];
    try discriminate.
  intros E. injection E as E.
  destruct (recChunks_stamps _ _ _ _ _ E) as [-> Hid].
  split; [lia|]. intros k c Hk. rewrite (Hid k c Hk), Z.add_0_l.
  replace (ticks + List.length cs - List.length cs + k)%nat
    with (ticks + k)%nat by lia. reflexivity.
Qed.

Context {Num : Type}.
Variable JSON_stringify : JValue Num -> jsstring.

(** The state of [generateJsonChunks] holds chunks stamped by the last
    readings of the clock, and the next index is their number. *)
Lemma addChunk_stamped (content : jsstring) (st : JsonState) :
  index st = Z.of_nat (List.length (chunks st))
  /\ stamped now (lit "json-chunk-") (chunks st) (ticks st) ->
  index (addChunk now content st)
  = Z.of_nat (List.length (chunks (addChunk now content st)))
  /\ stamped now (lit "json-chunk-") (chunks (addChunk now content st))
       (ticks (addChunk now content st)).
Proof.
  intros (Hi & Hle & Hid). unfold stamped, addChunk. cbn [chunks index ticks].
  rewrite !length_app. cbn [List.length].
  split; [lia|]. split; [lia|].
  intros k c Hk.
  destruct (Nat.lt_ge_cases k (List.length (chunks st))) as [Hlt|Hge].
  - rewrite nth_error_app1 in Hk by assumption. rewrite (Hid k c Hk).
    replace (S (ticks st) - (List.length (chunks st) + 1) + k)%nat
      with (ticks st - List.length (chunks st) + k)%nat by lia.
    reflexivity.
  - rewrite nth_error_app2 in Hk by assumption.
    destruct (k - List.length (chunks st))%nat as [|d] eqn:Ed; cbn in Hk;
      [|destruct d; discriminate].
    injection Hk as <-. cbn [Chunk.id]. rewrite Hi.
    replace k with (List.length (chunks st)) by lia.
    replace (S (ticks st) - (List.length (chunks st) + 1)
             + List.length (chunks st))%nat with (ticks st) by lia.
    reflexivity.
Qed.

Lemma fresh_stamped (t : nat) :
  index {| chunks := []; index := 0; ticks := t |}
  = Z.of_nat (List.length (chunks {| chunks := []; index := 0; ticks := t |}))
  /\ stamped now (lit "json-chunk-")
       (chunks {| chunks := []; index := 0; ticks := t |})
       (ticks {| chunks := []; index := 0; ticks := t |}).
Proof.
  split; [reflexivity|]. split; [cbn; lia|].
  intros k c Hk. destruct k; discriminate.
Qed.

Lemma processValue_stamped (fuel : nat) (config : ChunkingConfig)
    (value : JValue Num) (t : nat) (st' : JsonState) :
  processValue now JSON_stringify fuel config value
    {| chunks := []; index := 0; ticks := t |} = Ret st' ->
  stamped now (lit "json-chunk-") (chunks st') (ticks st').
Proof.
  set (Inv := fun st : JsonState =>
                index st = Z.of_nat (List.length (chunks st))
                /\ stamped now (lit "json-chunk-") (chunks st) (ticks st)).
  enough (H : processValue now JSON_stringify fuel config value
                {| chunks := []; index := 0; ticks := t |} = Ret st' ->
              Inv st') by (intros E; exact (proj2 (H E))).
  unfold processValue.
  destruct (len (JSON_stringify value) <=? chunkSize config).
  { intros E. injection E as <-. apply addChunk_stamped, fresh_stamped. }
  assert (Hscalar :
    ('(rc, u) <- generateRecursiveChunks now fuel (JSON_stringify value)
                   config t ;;
     Ret (fold_left (fun s c => addChunk now (Chunk.content c) s) rc
            {| chunks := []; index := 0; ticks := u |}))
    = Ret st' -> Inv st').
  { destruct (generateRecursiveChunks now fuel _ config t)
      as [[rc u]| |]; cbn [bind]; try discriminate.
    intros E. injection E as <-.
    apply (readd_keeps now Inv addChunk_stamped). apply fresh_stamped. }
  destruct value; try exact Hscalar; intros E; injection E as <-.
  - apply (batchItems_keeps now JSON_stringify Inv addChunk_stamped).
    apply fresh_stamped.
  - apply (batchProps_keeps now JSON_stringify Inv addChunk_stamped).
    apply fresh_stamped.
Qed.

Variable JSON_parse : jsstring -> JsError + JValue Num.

Lemma generateJsonChunks_stamped (fuel : nat) (text : jsstring)
    (config : ChunkingConfig) (ticks : nat) (cs : list Chunk.t) (t' : nat) :
  generateJsonChunks now JSON_parse JSON_stringify fuel text config ticks
  = Ret (cs, t') ->
  stamped now
    (match JSON_parse text with
     | inl _ => lit "rec-chunk-"
     | inr _ => lit "json-chunk-"
     end) cs t'.
Proof.
  unfold generateJsonChunks. destruct (JSON_parse text) as [e|data].
  - apply generateRecursiveChunks_stamped.
  - destruct (processValue now JSON_stringify fuel config data _)
      as [st'| |] eqn:E; cbn [bind]; try discriminate.
    intros R. injection R as <- <-. exact (processValue_stamped _ _ _ _ _ E).
Qed.

End Stamps.

Section TwoCalls.

(** Calls that return chunks with the same payloads return as many. *)
Lemma payloads_same_length (r1 r2 : Res (list Chunk.t * nat))
    (cs1 cs2 : list Chunk.t) (u1 u2 : nat) :
  payloads r1 = payloads r2 ->
  r1 = Ret (cs1, u1) -> r2 = Ret (cs2, u2) ->
  List.length cs1 = List.length cs2.
Proof.
  intros H -> ->. cbn in H. injection H as H.
  apply (f_equal (@List.length _)) in H. now rewrite !length_map in H.
Qed.

End TwoCalls.

(** C8, as the code has it. Two invocations of the same chunker (fixed,
    recursive, markdown or JSON) on the same text with the same config
    end in the same way and, when they return, return sequences of
    chunks with the same [content], [index], [length] and [tokenCount]
    at every position, whatever the clock shows during each invocation.
    The [id] of the chunk at position [k] is the tag of the chunker, [k]
    and the reading of [Date.now()] taken when that chunk is built, which
    is one of the last readings of the call, one for each chunk in
    order; so the two invocations return as many chunks, and the [id]s
    at a position are identical exactly when the two readings are. *)
Theorem chunkers_differ_by_clock_readings_only :
  forall (Num : Type) (now1 now2 : nat -> Z)
         (JSON_parse : jsstring -> JsError + JValue Num)
         (JSON_stringify : JValue Num -> jsstring)
         (fuel : nat) (text : jsstring) (config : ChunkingConfig)
         (t1 t2 : nat),
    (payloads (generateFixedSizeChunks now1 fuel text config t1)
     = payloads (generateFixedSizeChunks now2 fuel text config t2)
     /\ payloads (generateRecursiveChunks now1 fuel text config t1)
        = payloads (generateRecursiveChunks now2 fuel text config t2)
     /\ payloads (generateMarkdownChunks now1 fuel text config t1)
        = payloads (generateMarkdownChunks now2 fuel text config t2)
     /\ payloads (generateJsonChunks now1 JSON_parse JSON_stringify
                    fuel text config t1)
        = payloads (generateJsonChunks now2 JSON_parse JSON_stringify
                      fuel text config t2))
    /\ forall (tag : jsstring) (r1 r2 : Res (list Chunk.t * nat))
              (cs1 cs2 : list Chunk.t) (u1 u2 : nat),
         (tag = lit "chunk-"
          /\ r1 = generateFixedSizeChunks now1 fuel text config t1
          /\ r2 = generateFixedSizeChunks now2 fuel text config t2)
         \/ (tag = lit "rec-chunk-"
             /\ r1 = generateRecursiveChunks now1 fuel text config t1
             /\ r2 = generateRecursiveChunks now2 fuel text config t2)
         \/ (tag = lit "rec-chunk-"
             /\ r1 = generateMarkdownChunks now1 fuel text config t1
             /\ r2 = generateMarkdownChunks now2 fuel text config t2)
         \/ (tag = match JSON_parse text with
                   | inl _ => lit "rec-chunk-"
                   | inr _ => lit "json-chunk-"
                   end
             /\ r1 = generateJsonChunks now1 JSON_parse JSON_stringify
                       fuel text config t1
             /\ r2 = generateJsonChunks now2 JSON_parse JSON_stringify
                       fuel text config t2) ->
         r1 = Ret (cs1, u1) ->
         r2 = Ret (cs2, u2) ->
         List.length cs1 = List.length cs2
         /\ stamped now1 tag cs1 u1
         /\ stamped now2 tag cs2 u2
         /\ forall k a b,
              nth_error cs1 k = Some a ->
              nth_error cs2 k = Some b ->
              (Chunk.id a = Chunk.id b
               <-> now1 (u1 - List.length cs1 + k)%nat
                   = now2 (u2 - List.length cs2 + k)%nat).
Proof.
  intros Num now1 now2 JSON_parse JSON_stringify fuel text config t1 t2.
  pose proof (chunkers_payloads_agree Num now1 now2 JSON_parse JSON_stringify
                fuel text config t1 t2) as (Pf & Pr & Pm & Pj).
  split; [repeat split; assumption|].
  intros tag r1 r2 cs1 cs2 u1 u2 Hcase E1 E2.
  assert (H : List.length cs1 = List.length cs2
              /\ stamped now1 tag cs1 u1 /\ stamped now2 tag cs2 u2).
  { destruct Hcase as [(-> & -> & ->)|[(-> & -> & ->)|[(-> & -> & ->)
                      |(-> & -> & ->)]]].
    - split; [exact (payloads_same_length _ _ _ _ _ _ Pf E1 E2)|].
      split; eapply generateFixedSizeChunks_stamped; eassumption.
    - split; [exact (payloads_same_length _ _ _ _ _ _ Pr E1 E2)|].
      split; eapply generateRecursiveChunks_stamped; eassumption.
    - split; [exact (payloads_same_length _ _ _ _ _ _ Pm E1 E2)|].
      split; eapply generateRecursiveChunks_stamped; eassumption.
    - split; [exact (payloads_same_length _ _ _ _ _ _ Pj E1 E2)|].
      split; eapply generateJsonChunks_stamped; eassumption. }
  destruct H as (Hlen & S1 & S2).
  split; [exact Hlen|]. split; [exact S1|]. split; [exact S2|].
  exact (stamped_ids_agree now1 now2 tag cs1 cs2 u1 u2 S1 S2).
Qed.

Lemma chunkers_differ_by_clock_readings_only_witness :
  List.length [Chunk.mk (lit "chunk-0-0") (lit "ab") 0 2 1]
  = List.length [Chunk.mk (lit "chunk-0-1") (lit "ab") 0 2 1]
  /\ stamped (Platform.frozen 0) (lit "chunk-")
       [Chunk.mk (lit "chunk-0-0") (lit "ab") 0 2 1] 1
  /\ stamped (Platform.frozen 1) (lit "chunk-")
       [Chunk.mk (lit "chunk-0-1") (lit "ab") 0 2 1] 1
  /\ forall k a b,
       nth_error [Chunk.mk (lit "chunk-0-0") (lit "ab") 0 2 1] k = Some a ->
       nth_error [Chunk.mk (lit "chunk-0-1") (lit "ab") 0 2 1] k = Some b ->
       (Chunk.id a = Chunk.id b
        <-> Platform.frozen 0
              (1 - List.length [Chunk.mk (lit "chunk-0-0") (lit "ab") 0 2 1]
               + k)%nat
            = Platform.frozen 1
                (1 - List.length [Chunk.mk (lit "chunk-0-1") (lit "ab") 0 2 1]
                 + k)%nat).
Proof.
  apply (proj2 (chunkers_differ_by_clock_readings_only Z
                  (Platform.frozen 0) (Platform.frozen 1)
                  Platform.parseNothing Platform.stringify 2 (lit "ab")
                  {| chunkSize := 2; chunkOverlap := 0; separators := [] |}
                  0%nat 0%nat)
           (lit "chunk-")
           (generateFixedSizeChunks (Platform.frozen 0) 2 (lit "ab")
              {| chunkSize := 2; chunkOverlap := 0; separators := [] |} 0%nat)
           (generateFixedSizeChunks (Platform.frozen 1) 2 (lit "ab")
              {| chunkSize := 2; chunkOverlap := 0; separators := [] |} 0%nat)).
  - left. repeat split; reflexivity.
  - vm_compute. reflexivity.
  - vm_compute. reflexivity.
Defined.
